(** * Micrograd: the scalar autodiff engine of [main/engine.py]

    A shallow embedding of the class [Value] and of its backward driver,
    followed by the properties of the engine that the specification states.

    Modelling choices, all of them visible in the definitions below.

    - Python objects live in a store, a list of [Value] records; the
      identity of an object is its position in the list, in allocation
      order.  Every reference held by the program ([self], [other], [out],
      the members of [_prev]) is such a position, so two names for one
      object alias the same record.
    - A Python number is a [num]: a float, idealised as an exact real, or
      a complex number, which is what [**] produces for a negative base and
      a fractional exponent.  Rounding and the int/float distinction are
      not represented.  The range of a float is: [**] and [math.exp] raise
      [OverflowError] when their exact result rounds to infinity.  The
      operators [+], [-], [*] and [/] never raise on overflow in Python,
      they return an infinity, which stands here as the exact real.
    - A method is a computation in the monad [M]: it reads and writes the
      store and either returns or raises.  A raised exception leaves
      the store as it was at the raise, as in Python.
    - The closure stored in [_backward] is represented by the variables it
      captures and a tag for its body ([rule]). *)

From Stdlib Require Import Reals Lra.
From stdpp Require Import base gmap sets list strings.

(** ** Python numbers *)

Inductive num : Type :=
  | Flt (x : R)
  | Cplx (re im : R).

Definition re_part (a : num) : R :=
  match a with Flt x => x | Cplx re _ => re end.

Definition im_part (a : num) : R :=
  match a with Flt _ => 0%R | Cplx _ im => im end.

(** [a + b]: float arithmetic on two floats, complex arithmetic as soon as
    one side is complex (the float is converted to a complex first). *)
Definition num_add (a b : num) : num :=
  match a, b with
  | Flt x, Flt y => Flt (x + y)
  | _, _ => Cplx (re_part a + re_part b) (im_part a + im_part b)
  end.

Definition num_sub (a b : num) : num :=
  match a, b with
  | Flt x, Flt y => Flt (x - y)
  | _, _ => Cplx (re_part a - re_part b) (im_part a - im_part b)
  end.

Definition num_mul (a b : num) : num :=
  match a, b with
  | Flt x, Flt y => Flt (x * y)
  | _, _ => Cplx (re_part a * re_part b - im_part a * im_part b)
                 (re_part a * im_part b + im_part a * re_part b)
  end.

Definition num_neg (a : num) : num :=
  match a with
  | Flt x => Flt (- x)
  | Cplx re im => Cplx (- re) (- im)
  end.

(** [a == 0] *)
Definition num_is_zero (a : num) : Prop :=
  re_part a = 0%R ∧ im_part a = 0%R.

Definition num_is_zero_dec (a : num) : {num_is_zero a} + {¬ num_is_zero a}.
Proof.
  unfold num_is_zero.
  destruct (Req_dec_T (re_part a) 0); [|right; tauto].
  destruct (Req_dec_T (im_part a) 0); [left|right]; tauto.
Defined.

Definition is_complex (a : num) : Prop :=
  match a with Flt _ => False | Cplx _ _ => True end.

(** The exceptions the engine can raise.  The first three are Python's.
    [RecursionError] is what the model answers when the traversal of
    [backward] runs out of its recursion budget; the budget is enough on
    every store ([topo_of_total]), and the recursion limit of the Python
    interpreter itself is not modelled.  [StaleReference] is the answer
    when a position does not name an object of the store, which no
    reference held by a Python program can do. *)
Inductive exn : Type :=
  | ZeroDivisionError
  | TypeError
  | OverflowError
  | RecursionError
  | StaleReference.

Definition result (A : Type) : Type := (exn + A)%type.

(** The exponent is an integer value: [iw == floor(iw)]. *)
Definition is_integral (p : R) : Prop := frac_part p = 0%R.

Definition is_integral_dec (p : R) : {is_integral p} + {¬ is_integral p} :=
  Req_dec_T (frac_part p) 0.

(** The magnitude from which a result rounds to infinity: halfway between
    the largest float, [2^1024 - 2^971], and [2^1024]. *)
Definition float_huge : R := IZR (2 ^ 1024 - 2 ^ 970).

(** The exact result is out of the range of a float.  C's [pow] and [exp]
    then report a range error, which Python turns into [OverflowError]; a
    result too small for a float is rounded to zero, without an error. *)
Definition overflows (x : R) : Prop := (float_huge <= Rabs x)%R.

Definition overflows_dec (x : R) : {overflows x} + {¬ overflows x} :=
  Rle_dec float_huge (Rabs x).

(** The float that [pow] or [exp] hands back, after the range check. *)
Definition range_checked (x : R) : result num :=
  if overflows_dec x then inl OverflowError else inr (Flt x).

(** [atan2(y, x)], the argument of the complex number [x + y j]. *)
Definition atan2 (y x : R) : R :=
  if Rlt_dec 0 x then atan (y / x)
  else if Rlt_dec x 0 then
    (if Rle_dec 0 y then atan (y / x) + PI else atan (y / x) - PI)
  else if Rlt_dec 0 y then PI / 2
  else if Rlt_dec y 0 then - (PI / 2)
  else 0.

(** [complex ** p] for a real exponent: 1 for [p == 0]; a zero base raises
    for a negative exponent and gives 0 otherwise; every other base goes
    through its polar form, and raises [OverflowError] ("complex
    exponentiation") when the modulus of the result is out of range. *)
Definition complex_pow (re im p : R) : result num :=
  if Req_dec_T p 0 then inr (Cplx 1 0)
  else if num_is_zero_dec (Cplx re im) then
    (if Rlt_dec p 0 then inl ZeroDivisionError else inr (Cplx 0 0))
  else
    let len := Rpower (sqrt (re * re + im * im)) p in
    let phase := (atan2 im re * p)%R in
    if overflows_dec len then inl OverflowError
    else inr (Cplx (len * cos phase) (len * sin phase)).

(** [float ** p]: 1 for [p == 0]; a zero base raises for a negative
    exponent; a negative base with a fractional exponent is handed to the
    complex power and the result is a complex number; every other result
    is what C's [pow] gives, and raises [OverflowError] when it is out of
    range. *)
Definition float_pow (x p : R) : result num :=
  if Req_dec_T p 0 then inr (Flt 1)
  else if Req_dec_T x 0 then
    (if Rlt_dec p 0 then inl ZeroDivisionError else inr (Flt 0))
  else if Rlt_dec x 0 then
    (if is_integral_dec p then range_checked (powerRZ x (Int_part p))
     else complex_pow x 0 p)
  else range_checked (Rpower x p).

(** [base ** p] *)
Definition py_pow (base : num) (p : R) : result num :=
  match base with
  | Flt x => float_pow x p
  | Cplx re im => complex_pow re im p
  end.

(** [a / b] on numbers. *)
Definition num_div (a b : num) : result num :=
  if num_is_zero_dec b then inl ZeroDivisionError
  else match a, b with
       | Flt x, Flt y => inr (Flt (x / y))
       | _, _ =>
           let d := (re_part b * re_part b + im_part b * im_part b)%R in
           inr (Cplx ((re_part a * re_part b + im_part a * im_part b) / d)
                     ((im_part a * re_part b - re_part a * im_part b) / d))
       end.

(** [math.exp(a)]: defined on floats only; raises [OverflowError] ("math
    range error") when the result is out of range. *)
Definition math_exp (a : num) : result num :=
  match a with
  | Flt x => range_checked (exp x)
  | Cplx _ _ => inl TypeError
  end.

(** [a > 0]: complex numbers are not ordered. *)
Definition py_gt0 (a : num) : result bool :=
  match a with
  | Flt x => inr (if Rlt_dec 0 x then true else false)
  | Cplx _ _ => inl TypeError
  end.

(** [max(0, a)]: [a] when [a > 0], else the first argument [0]. *)
Definition py_max0 (a : num) : result num :=
  match py_gt0 a with
  | inl e => inl e
  | inr true => inr a
  | inr false => inr (Flt 0)
  end.

(** ** Objects and the store *)

(** The body of a [_backward] closure together with the variables it
    captured: [self], [other] (a node, or the raw exponent for [pow]) and
    [out]. *)
Inductive rule : Type :=
  | RNone                                    (* lambda: None *)
  | RAdd (self other out : nat)
  | RMul (self other out : nat)
  | RPow (self : nat) (other : R) (out : nat)
  | RExp (self out : nat)
  | RTanh (self out : nat)
  | RRelu (self out : nat).

Record Value : Type := mkValue {
  data : num;
  grad : num;
  _prev : gset nat;
  _op : string;
  _backward : rule;
  label : string
}.

Abbreviation Store := (list Value).

Definition with_grad (g : num) (v : Value) : Value :=
  mkValue (data v) g (_prev v) (_op v) (_backward v) (label v).

Definition with_backward (r : rule) (v : Value) : Value :=
  mkValue (data v) (grad v) (_prev v) (_op v) r (label v).

(** ** The monad of methods: state, then exceptions *)

Definition M (A : Type) : Type := Store → Store * result A.

Definition ret {A} (a : A) : M A := λ s, (s, inr a).

Definition raise {A} (e : exn) : M A := λ s, (s, inl e).

Definition bind {A B} (m : M A) (k : A → M B) : M B :=
  λ s, match m s with
       | (s', inl e) => (s', inl e)
       | (s', inr a) => k a s'
       end.

Notation "'let*' x := m 'in' k" := (bind m (λ x, k))
  (at level 10, x name, m at level 100, k at level 200,
   format "'[v' 'let*'  x  :=  m  'in'  '/' k ']'").
Notation "m ;; k" := (bind m (λ _, k))
  (at level 100, k at level 200, right associativity).

(** A primitive that may raise but does not touch the store. *)
Definition lift {A} (r : result A) : M A := λ s, (s, r).

(** Follow a reference. *)
Definition deref (v : nat) : M Value :=
  λ s, match s !! v with
       | Some n => (s, inr n)
       | None => (s, inl StaleReference)
       end.

Definition get_data (v : nat) : M num := let* n := deref v in ret (data n).
Definition get_grad (v : nat) : M num := let* n := deref v in ret (grad n).

(** [v.grad = g] *)
Definition set_grad (v : nat) (g : num) : M unit :=
  λ s, match s !! v with
       | Some n => (<[v := with_grad g n]> s, inr tt)
       | None => (s, inl StaleReference)
       end.

(** [v._backward = r] *)
Definition set_backward (v : nat) (r : rule) : M unit :=
  λ s, match s !! v with
       | Some n => (<[v := with_backward r n]> s, inr tt)
       | None => (s, inl StaleReference)
       end.

(** [Value(data, _children, _op, label)]: [__init__] sets the gradient to
    0.0, turns the children into a set and installs [lambda: None]. *)
Definition __init__ (d : num) (_children : list nat) (op lbl : string)
  : M nat :=
  λ s, (s ++ [mkValue d (Flt 0) (list_to_set _children) op RNone lbl],
        inr (length s)).

(** ** The methods of [Value] *)

(** What stands on one side of an operator: a [Value] object or a raw
    Python number. *)
Inductive operand : Type :=
  | OValue (v : nat)
  | ORaw (x : num).

(** [other if isinstance(other, Value) else Value(other)] *)
Definition promote (other : operand) : M nat :=
  match other with
  | OValue v => ret v
  | ORaw x => __init__ x [] "" ""
  end.

(** [__add__]: promote [other], allocate the sum, install its rule. *)
Definition __add__ (self : nat) (other : operand) : M nat :=
  let* other := promote other in
  let* a := get_data self in
  let* b := get_data other in
  let* out := __init__ (num_add a b) [self; other] "+" "" in
  set_backward out (RAdd self other out) ;;
  ret out.

(** [__mul__] *)
Definition __mul__ (self : nat) (other : operand) : M nat :=
  let* other := promote other in
  let* a := get_data self in
  let* b := get_data other in
  let* out := __init__ (num_mul a b) [self; other] "*" "" in
  set_backward out (RMul self other out) ;;
  ret out.

(** [__neg__]: [self * -1] *)
Definition __neg__ (self : nat) : M nat :=
  __mul__ self (ORaw (Flt (-1))).

(** [-other], for whatever [other] is. *)
Definition py_neg (other : operand) : M operand :=
  match other with
  | OValue v => let* r := __neg__ v in ret (OValue r)
  | ORaw x => ret (ORaw (num_neg x))
  end.

(** [__sub__]: [self + (-other)] *)
Definition __sub__ (self : nat) (other : operand) : M nat :=
  let* m := py_neg other in
  __add__ self m.

(** [__pow__]: the exponent is a raw real number. *)
Definition __pow__ (self : nat) (other : R) : M nat :=
  let* a := get_data self in
  let* d := lift (py_pow a other) in
  let* out := __init__ d [self] "pow" "" in
  set_backward out (RPow self other out) ;;
  ret out.

(** [other ** -1], for whatever [other] is. *)
Definition py_inverse (other : operand) : M operand :=
  match other with
  | OValue v => let* r := __pow__ v (-1) in ret (OValue r)
  | ORaw x => let* r := lift (py_pow x (-1)) in ret (ORaw r)
  end.

(** [__truediv__]: [self * (other ** -1)] *)
Definition __truediv__ (self : nat) (other : operand) : M nat :=
  let* i := py_inverse other in
  __mul__ self i.

(** [__radd__]: [self + other] *)
Definition __radd__ (self : nat) (other : operand) : M nat :=
  __add__ self other.

(** [__rmul__]: [self * other] *)
Definition __rmul__ (self : nat) (other : operand) : M nat :=
  __mul__ self other.

(** ** Operator dispatch

    [l op r] first asks the class of [l]; a raw number on the left does not
    know [Value] and answers [NotImplemented], so Python asks the class of
    [r] for the reflected method.  [Value] defines [__radd__], [__rmul__]
    and [__rtruediv__], and no [__rsub__]. *)

Definition py_add (l r : operand) : M operand :=
  match l, r with
  | OValue a, _ => let* o := __add__ a r in ret (OValue o)
  | ORaw x, OValue b => let* o := __radd__ b l in ret (OValue o)
  | ORaw x, ORaw y => ret (ORaw (num_add x y))
  end.

Definition py_mul (l r : operand) : M operand :=
  match l, r with
  | OValue a, _ => let* o := __mul__ a r in ret (OValue o)
  | ORaw x, OValue b => let* o := __rmul__ b l in ret (OValue o)
  | ORaw x, ORaw y => ret (ORaw (num_mul x y))
  end.

(** [__rtruediv__]: [other * (self ** -1)]; the product is again an
    operator application, dispatched on [other]. *)
Definition __rtruediv__ (self : nat) (other : operand) : M operand :=
  let* i := __pow__ self (-1) in
  py_mul other (OValue i).

Definition py_sub (l r : operand) : M operand :=
  match l, r with
  | OValue a, _ => let* o := __sub__ a r in ret (OValue o)
  | ORaw x, OValue b => raise TypeError       (* no __rsub__ *)
  | ORaw x, ORaw y => ret (ORaw (num_sub x y))
  end.

Definition py_truediv (l r : operand) : M operand :=
  match l, r with
  | OValue a, _ => let* o := __truediv__ a r in ret (OValue o)
  | ORaw x, OValue b => __rtruediv__ b l
  | ORaw x, ORaw y => let* q := lift (num_div x y) in ret (ORaw q)
  end.

(** [exp]; the plain names [exp] and [tanh] are those of the real
    functions, so the two methods carry the name of the class. *)
Definition Value_exp (self : nat) : M nat :=
  let* a := get_data self in
  let* d := lift (math_exp a) in
  let* out := __init__ d [self] "exp" "" in
  set_backward out (RExp self out) ;;
  ret out.

(** [tanh]: [(math.exp(2*x)-1)/(math.exp(2*x)+1)].  It raises
    [OverflowError] when [e^(2x)] is out of range, from the first call of
    [math.exp].  The exact quotient lies strictly between -1 and 1; the
    float that Python stores is its rounding, which is -1.0 or 1.0 once
    the quotient is closer to them than a float can tell. *)
Definition Value_tanh (self : nat) : M nat :=
  let* x := get_data self in
  let* e1 := lift (math_exp (num_mul (Flt 2) x)) in
  let* e2 := lift (math_exp (num_mul (Flt 2) x)) in
  let* d := lift (num_div (num_sub e1 (Flt 1)) (num_add e2 (Flt 1))) in
  let* out := __init__ d [self] "tanh" "" in
  set_backward out (RTanh self out) ;;
  ret out.

(** [relu] *)
Definition relu (self : nat) : M nat :=
  let* a := get_data self in
  let* d := lift (py_max0 a) in
  let* out := __init__ d [self] "relu" "" in
  set_backward out (RRelu self out) ;;
  ret out.

(** ** Gradient rules *)

(** [v.grad += rhs]: the old gradient is read, then [rhs] is evaluated,
    then the sum is stored. *)
Definition iadd_grad (v : nat) (rhs : M num) : M unit :=
  let* g := get_grad v in
  let* x := rhs in
  set_grad v (num_add g x).

(** The bodies of the seven [_backward] closures. *)
Definition run_rule (r : rule) : M unit :=
  match r with
  | RNone => ret tt
  | RAdd self other out =>
      iadd_grad self (let* g := get_grad out in ret (num_mul (Flt 1) g)) ;;
      iadd_grad other (let* g := get_grad out in ret (num_mul (Flt 1) g))
  | RMul self other out =>
      iadd_grad self (let* g := get_grad out in
                      let* d := get_data other in ret (num_mul g d)) ;;
      iadd_grad other (let* g := get_grad out in
                       let* d := get_data self in ret (num_mul g d))
  | RPow self other out =>
      iadd_grad self (let* g := get_grad out in
                      let* d := get_data self in
                      let* p := lift (py_pow d (other - 1)) in
                      ret (num_mul g (num_mul (Flt other) p)))
  | RExp self out =>
      iadd_grad self (let* g := get_grad out in
                      let* d := get_data out in ret (num_mul g d))
  | RTanh self out =>
      iadd_grad self (let* g := get_grad out in
                      let* d := get_data out in
                      let* q := lift (py_pow d 2) in
                      ret (num_mul g (num_sub (Flt 1) q)))
  | RRelu self out =>
      iadd_grad self (let* d := get_data self in
                      let* c := lift (py_gt0 d) in
                      if c : bool then get_grad out else ret (Flt 0))
  end.

(** [node._backward()] *)
Definition call_backward (node : nat) : M unit :=
  let* n := deref node in
  run_rule (_backward n).

(** ** The backward driver *)

(** The state of the traversal: the set [visited] and the list [topo]. *)
Abbreviation dfs_state := (gset nat * list nat)%type.

(** The loop [for child in v._prev: if child not in visited:
    build_topo(child)], over the children in iteration order. *)
Fixpoint for_children (visit : nat → dfs_state → option dfs_state)
    (children : list nat) (st : dfs_state) : option dfs_state :=
  match children with
  | [] => Some st
  | child :: rest =>
      if decide (child ∈ st.1) then for_children visit rest st
      else match visit child st with
           | Some st' => for_children visit rest st'
           | None => None
           end
  end.

(** [build_topo(v)].  [kids v] is the iteration over [v._prev]; [fuel]
    bounds the depth of the recursion, and [None] means it ran out. *)
Fixpoint build_topo (kids : nat → list nat) (fuel : nat) (v : nat)
    (st : dfs_state) : option dfs_state :=
  match fuel with
  | O => None
  | S fuel' =>
      if decide (v ∈ st.1) then Some st
      else
        match for_children (build_topo kids fuel') (kids v)
                           ({[v]} ∪ st.1, st.2) with
        | Some st' => Some (st'.1, st'.2 ++ [v])
        | None => None
        end
  end.

(** One iteration order of [v._prev].  Python's order is another one; the
    traversal lemmas below hold for every enumeration ([kids] is a
    variable of their section). *)
Definition prev_of (s : Store) (v : nat) : list nat :=
  match s !! v with
  | Some n => elements (_prev n)
  | None => []
  end.

(** The list [topo] after [build_topo(self)], from an empty [visited] and
    an empty [topo]. *)
Definition topo_of (s : Store) (self : nat) : option (list nat) :=
  match build_topo (prev_of s) (S (length s)) self (∅, []) with
  | Some st => Some st.2
  | None => None
  end.

(** [for node in l: f(node)] *)
Fixpoint for_each (f : nat → M unit) (l : list nat) : M unit :=
  match l with
  | [] => ret tt
  | node :: rest => f node ;; for_each f rest
  end.

(** [backward]: build [topo], seed the root, run the rules over
    [reversed(topo)]. *)
Definition backward (self : nat) : M unit :=
  λ s, match topo_of s self with
       | None => (s, inl RecursionError)
       | Some topo =>
           (set_grad self (Flt 1) ;;
            for_each call_backward (reverse topo)) s
       end.

(** The nodes in the order in which [backward] invokes their rules. *)
Definition backward_order (s : Store) (self : nat) : option (list nat) :=
  reverse <$> topo_of s self.

(** ** Graph vocabulary *)

(** [c] is an operand of [v]; [v] is then a consumer of [c]. *)
Definition operand_of (s : Store) (c v : nat) : Prop :=
  ∃ n, s !! v = Some n ∧ c ∈ _prev n.

(** [u] is reachable from [r] through the operand relation. *)
Definition reach (s : Store) (r u : nat) : Prop :=
  rtc (λ v c, operand_of s c v) r u.

(** The nodes whose gradient a rule writes. *)
Definition rule_targets (r : rule) : list nat :=
  match r with
  | RNone => []
  | RAdd self other _ | RMul self other _ => [self; other]
  | RPow self _ _ => [self]
  | RExp self _ | RTanh self _ | RRelu self _ => [self]
  end.

(** The node a rule reads the gradient of. *)
Definition rule_out (r : rule) : option nat :=
  match r with
  | RNone => None
  | RAdd _ _ out | RMul _ _ out | RPow _ _ out => Some out
  | RExp _ out | RTanh _ out | RRelu _ out => Some out
  end.

(** What the constructors of the class establish for the node at position
    [i]: its operands were allocated before it, and its rule writes to its
    operands and reads its own gradient. *)
Definition node_wf (i : nat) (n : Value) : Prop :=
  (∀ c, c ∈ _prev n → c < i) ∧
  (∀ t, t ∈ rule_targets (_backward n) → t ∈ _prev n) ∧
  (∀ o, rule_out (_backward n) = Some o → o = i).

(** A store built forward by the operations of the class. *)
Definition wf (s : Store) : Prop :=
  ∀ i n, s !! i = Some n → node_wf i n.

(** Two stores that differ in gradients only. *)
Definition same_graph (s s' : Store) : Prop :=
  length s = length s' ∧
  ∀ i n n', s !! i = Some n → s' !! i = Some n' →
    data n' = data n ∧ _prev n' = _prev n ∧ _op n' = _op n ∧
    _backward n' = _backward n ∧ label n' = label n.

(** The gradient of the node at [i], when there is one. *)
Definition grad_at (s : Store) (i : nat) : option num :=
  grad <$> s !! i.

Definition data_at (s : Store) (i : nat) : option num :=
  data <$> s !! i.

Definition prev_at (s : Store) (i : nat) : option (gset nat) :=
  _prev <$> s !! i.

(** ** Orders on a list of nodes *)

(** Every node of [l] stands strictly after all of its operands. *)
Definition after_operands (s : Store) (l : list nat) : Prop :=
  ∀ i u c, l !! i = Some u → operand_of s c u →
    ∃ j, j < i ∧ l !! j = Some c.

(** Every node of [l] stands strictly before all of its operands. *)
Definition before_operands (s : Store) (l : list nat) : Prop :=
  ∀ i u c, l !! i = Some u → operand_of s c u →
    ∃ j, i < j ∧ l !! j = Some c.

(** Every node of [l] stands strictly after all of its consumers in [l]. *)
Definition after_consumers (s : Store) (l : list nat) : Prop :=
  ∀ i u c, l !! i = Some u → operand_of s u c → c ∈ l →
    ∃ j, j < i ∧ l !! j = Some c.

(** Every node of [l] stands strictly before all of its consumers in [l]. *)
Definition before_consumers (s : Store) (l : list nat) : Prop :=
  ∀ i u c, l !! i = Some u → operand_of s u c → c ∈ l →
    ∃ j, i < j ∧ l !! j = Some c.

(** The same, for an arbitrary enumeration [kids] of the operands. *)
Definition operands_first (kids : nat → list nat) (l : list nat) : Prop :=
  ∀ i u c, l !! i = Some u → c ∈ kids u →
    ∃ j, j < i ∧ l !! j = Some c.

Definition kreach (kids : nat → list nat) : nat → nat → Prop :=
  rtc (λ v c, c ∈ kids v).

(** What a run of the traversal over the nodes [from] guarantees, started
    in a state in which every node that is visited but not yet in [topo]
    (the nodes whose call is still open) is at or above [bound]: the nodes
    [new] appended to [topo] are exactly the newly visited ones, they are
    below [bound] and reachable from [from], and [topo] still has every
    node after its operands. *)
Definition visit_post (kids : nat → list nat) (bound : nat)
    (from : list nat) (vis : gset nat) (tp : list nat)
    (r : option dfs_state) : Prop :=
  ∃ vis' new,
    r = Some (vis', tp ++ new) ∧
    (∀ u, u ∈ vis' ↔ u ∈ vis ∨ u ∈ new) ∧
    (∀ u, u ∈ new →
       (u ∉ vis) ∧ u < bound ∧ (∃ f, f ∈ from ∧ kreach kids f u)) ∧
    NoDup new ∧
    operands_first kids (tp ++ new) ∧
    (∀ f, f ∈ from → f ∈ tp ++ new).

(** A computation that never writes the store. *)
Definition readonly {A} (m : M A) : Prop := ∀ s, (m s).1 = s.

(** ** Programs used as examples *)

(** [x = Value(d); y = x * x] *)
Definition square (d : num) : M (nat * nat) :=
  let* x := __init__ d [] "" "" in
  let* y := __mul__ x (OValue x) in
  ret (x, y).

(** [a = Value(d); r = a.relu()] *)
Definition relu_of_leaf (d : num) : M (nat * nat) :=
  let* a := __init__ d [] "" "" in
  let* r := relu a in
  ret (a, r).

(** [x = Value(2.0); y = x*x + 3.0], the end-to-end scenario of the
    specification: the nodes are [x], [x*x], the promoted [3.0] and [y],
    at positions 0 to 3. *)
Definition scenario : M nat :=
  let* x := __init__ (Flt 2) [] "" "" in
  let* xx := __mul__ x (OValue x) in
  __add__ xx (ORaw (Flt 3)).

Definition scenario_store : Store := (scenario []).1.

(** [x = Value(3.0); a = x * 2.0; y = a * 3.0]: the nodes are [x], the
    promoted [2.0], [a], the promoted [3.0] and [y], at positions 0 to 4. *)
Definition chain : M nat :=
  let* x := __init__ (Flt 3) [] "" "" in
  let* a := __mul__ x (ORaw (Flt 2)) in
  __mul__ a (ORaw (Flt 3)).

Definition chain_store : Store := (chain []).1.

(** [one = Value(1.0); zero = Value(0.0)], at positions 0 and 1. *)
Definition one_and_zero : Store :=
  [mkValue (Flt 1) (Flt 0) ∅ "" RNone "";
   mkValue (Flt 0) (Flt 0) ∅ "" RNone ""].

(** [m = Value(-1.0)], at position 0. *)
Definition minus_one : Store := [mkValue (Flt (-1)) (Flt 0) ∅ "" RNone ""].

(** A read-only computation whose outcome depends on the graph and on the
    gradient of the node [o] only. *)
Definition stable (o : nat) {A} (m : M A) : Prop :=
  readonly m ∧
  ∀ a a', same_graph a a' → grad_at a o = grad_at a' o → (m a).2 = (m a').2.

(** Between the stores [a] and [b] of one run, and between [a'] and [b']
    of another, the gradient of [n] received the same contributions. *)
Definition shifted (n : nat) (a a' b b' : Store) : Prop :=
  ∃ ds : list num, ∀ g g',
    grad_at a n = Some g → grad_at a' n = Some g' →
    grad_at b n = Some (foldl num_add g ds) ∧
    grad_at b' n = Some (foldl num_add g' ds).

(** The store after [y.backward()] on [chain_store], and after a second
    [y.backward()] with no reset in between. *)
Definition chain_once : Store := (backward 4 chain_store).1.
Definition chain_twice : Store := (backward 4 chain_once).1.

(** An operand that is a node names an object of the store. *)
Definition operand_ids (o : operand) : list nat :=
  match o with OValue v => [v] | ORaw _ => [] end.

(** [m] keeps a store well formed, whether it returns or raises, when the
    nodes [V] it is given exist; the store only grows, and the nodes
    [ids a] of a result [a] exist afterwards. *)
Definition safe (V : list nat) {A} (m : M A) (ids : A → list nat) : Prop :=
  ∀ s, wf s → (∀ i, i ∈ V → i < length s) →
    wf (m s).1 ∧ length s ≤ length (m s).1 ∧
    ∀ a, (m s).2 = inr a → ∀ i, i ∈ ids a → i < length (m s).1.

(** The number of nodes of the store that the traversal has not visited. *)
Definition unvisited (s : Store) (vis : gset nat) : nat :=
  size (set_seq 0 (length s) ∖ vis).

(** ** The statements of a rule *)

(** The body of each [_backward] closure as a list of statements
    [target.grad += rhs], in program order ([run_rule_updates] shows that
    running them is running the rule). *)
Definition rule_updates (ρ : rule) : list (nat * M num) :=
  match ρ with
  | RNone => []
  | RAdd self other out =>
      [(self, let* g := get_grad out in ret (num_mul (Flt 1) g));
       (other, let* g := get_grad out in ret (num_mul (Flt 1) g))]
  | RMul self other out =>
      [(self, let* g := get_grad out in
              let* d := get_data other in ret (num_mul g d));
       (other, let* g := get_grad out in
               let* d := get_data self in ret (num_mul g d))]
  | RPow self other out =>
      [(self, let* g := get_grad out in
              let* d := get_data self in
              let* p := lift (py_pow d (other - 1)) in
              ret (num_mul g (num_mul (Flt other) p)))]
  | RExp self out =>
      [(self, let* g := get_grad out in
              let* d := get_data out in ret (num_mul g d))]
  | RTanh self out =>
      [(self, let* g := get_grad out in
              let* d := get_data out in
              let* q := lift (py_pow d 2) in
              ret (num_mul g (num_sub (Flt 1) q)))]
  | RRelu self out =>
      [(self, let* d := get_data self in
              let* c := lift (py_gt0 d) in
              if c : bool then get_grad out else ret (Flt 0))]
  end.

Fixpoint run_updates (us : list (nat * M num)) : M unit :=
  match us with
  | [] => ret tt
  | u :: rest => iadd_grad u.1 u.2 ;; run_updates rest
  end.

(** What the statements [us] add to the gradient of [n], each right-hand
    side evaluated in the store [s]; a right-hand side that raises adds
    nothing. *)
Definition contributions_of (s : Store) (us : list (nat * M num))
    (n : nat) : list num :=
  flat_map (λ u, if decide (u.1 = n)
                 then match (u.2 s).2 with inr δ => [δ] | inl _ => [] end
                 else []) us.

(** The rule of the node at [c]. *)
Definition rule_at (s : Store) (c : nat) : rule :=
  from_option _backward RNone (s !! c).

(** What the rule of the consumer [c] adds to the gradient of [n]. *)
Definition contributions (s : Store) (c n : nat) : list num :=
  contributions_of s (rule_updates (rule_at s c)) n.

(** ** The traversal on an arbitrary graph *)

(** What a run of the traversal over the nodes [from] guarantees on any
    store, cyclic or not: the appended nodes [new] are exactly the newly
    visited ones, each once, each reachable from [from], and every operand
    of an appended node is visited. *)
Definition visit_any (kids : nat → list nat) (from : list nat)
    (vis : gset nat) (tp : list nat) (r : option dfs_state) : Prop :=
  ∃ vis' new,
    r = Some (vis', tp ++ new) ∧
    (∀ u, u ∈ vis' ↔ u ∈ vis ∨ u ∈ new) ∧
    (∀ u, u ∈ new → (u ∉ vis) ∧ (∃ f, f ∈ from ∧ kreach kids f u)) ∧
    NoDup new ∧
    (∀ u c, u ∈ new → c ∈ kids u → c ∈ vis') ∧
    (∀ f, f ∈ from → f ∈ vis').

(** ** Operations as allocations *)

(** [m] only appends nodes to the store: the nodes that were there keep
    their position and every field, whether [m] returns or raises. *)
Definition allocates {A} (m : M A) : Prop :=
  ∀ s, ∃ new, (m s).1 = s ++ new.

(** Equality of real numbers is decidable (classically). *)
#[global] Instance R_eq_dec : EqDecision R := Req_dec_T.

(** ** The test section of [engine.py] *)



(** [(e^(2z) - 1) / (e^(2z) + 1)] *)
Definition tanh_formula (z : R) : R :=
  ((exp (2 * z) - 1) / (exp (2 * z) + 1))%R.

(** * The network classes of [nn.py]

    The classes are callers of the engine: they only build nodes with its
    operators.  [random.uniform(-1, 1)] is represented by the sequence of
    numbers it is going to return, passed in and handed back by the
    constructors ([Rng]). *)

(** The future draws of the random generator, in order. *)
Abbreviation Rng := (nat → R).

(** A Python value that flows through the network: a list of numbers and
    nodes, or a single node. *)
Inductive pyval : Type :=
  | PList (xs : list operand)
  | PValue (v : nat).

(** [[f(a) for a in l]] *)
Fixpoint map_M {A B} (f : A → M B) (l : list A) : M (list B) :=
  match l with
  | [] => ret []
  | a :: rest =>
      let* b := f a in
      let* bs := map_M f rest in
      ret (b :: bs)
  end.

(** [[Value(random.uniform(-1, 1)) for _ in range(k)]] *)
Fixpoint random_values (k : nat) (g : Rng) : M (list nat * Rng) :=
  match k with
  | O => ret ([], g)
  | S k' =>
      let* v := __init__ (Flt (g 0)) [] "" "" in
      let* r := random_values k' (λ i, g (S i)) in
      ret (v :: r.1, r.2)
  end.

(** [sum(...)] over the generator [wi*xi for wi, xi in zip(self.w, x)]:
    each product is built when the sum asks for it, then added to the
    accumulator, which starts as the raw number 0. *)
Fixpoint sum_products (acc : operand) (pairs : list (nat * operand))
  : M operand :=
  match pairs with
  | [] => ret acc
  | (wi, xi) :: rest =>
      let* item := __mul__ wi xi in
      let* acc' := py_add acc (OValue item) in
      sum_products acc' rest
  end.

(** [acc + self.b], where the right operand is a node: the dispatch of
    [py_add], whose result is then a node. *)
Definition add_node (acc : operand) (b : nat) : M nat :=
  match acc with
  | OValue a => __add__ a (OValue b)
  | ORaw x => __radd__ b (ORaw x)
  end.

Module Neuron.

Record t : Type := mk { w : list nat; b : nat }.

Definition __init__ (nin : nat) (g : Rng) : M (t * Rng) :=
  let* ws := random_values nin g in
  let* bv := __init__ (Flt (ws.2 0)) [] "" "" in
  ret (mk ws.1 bv, λ i, ws.2 (S i)).

(** [zip] raises [TypeError] when [x] is not iterable, before anything
    is built; it stops at the shorter of its two arguments. *)
Definition __call__ (self : t) (x : pyval) : M nat :=
  match x with
  | PValue _ => raise TypeError
  | PList xs =>
      let* acc := sum_products (ORaw (Flt 0)) (zip (w self) xs) in
      let* out := add_node acc (b self) in
      Value_tanh out
  end.

Definition parameters (self : t) : list nat := w self ++ [b self].

End Neuron.

Module Layer.

Record t : Type := mk { neurons : list Neuron.t }.

(** [[Neuron(nin) for _ in range(nout)]] *)
Fixpoint random_neurons (nin nout : nat) (g : Rng)
  : M (list Neuron.t * Rng) :=
  match nout with
  | O => ret ([], g)
  | S k =>
      let* n := Neuron.__init__ nin g in
      let* r := random_neurons nin k n.2 in
      ret (n.1 :: r.1, r.2)
  end.

Definition __init__ (nin nout : nat) (g : Rng) : M (t * Rng) :=
  let* ns := random_neurons nin nout g in
  ret (mk ns.1, ns.2).

(** [outs[0] if len(outs) == 1 else outs] *)
Definition __call__ (self : t) (x : pyval) : M pyval :=
  let* outs := map_M (λ n, Neuron.__call__ n x) (neurons self) in
  ret (match outs with
       | [o] => PValue o
       | _ => PList (OValue <$> outs)
       end).

Definition parameters (self : t) : list nat :=
  flat_map Neuron.parameters (neurons self).

End Layer.

Module MLP.

Record t : Type := mk { layers : list Layer.t }.

(** [[Layer(sin[i], sin[i+1]) for i in range(len(nouts))]] with
    [sin = [nin] + nouts] *)
Fixpoint random_layers (nin : nat) (nouts : list nat) (g : Rng)
  : M (list Layer.t * Rng) :=
  match nouts with
  | [] => ret ([], g)
  | nout :: rest =>
      let* l := Layer.__init__ nin nout g in
      let* r := random_layers nout rest l.2 in
      ret (l.1 :: r.1, r.2)
  end.

Definition __init__ (nin : nat) (nouts : list nat) (g : Rng)
  : M (t * Rng) :=
  let* ls := random_layers nin nouts g in
  ret (mk ls.1, ls.2).

(** [for l in self.layers: x = l(x)] *)
Fixpoint through (ls : list Layer.t) (x : pyval) : M pyval :=
  match ls with
  | [] => ret x
  | l :: rest =>
      let* y := Layer.__call__ l x in
      through rest y
  end.

Definition __call__ (self : t) (x : pyval) : M pyval :=
  through (layers self) x.

Definition parameters (self : t) : list nat :=
  flat_map Layer.parameters (layers self).

End MLP.


(** The number of parameters of a network with [nin] inputs and layers of
    [nouts] neurons: a neuron has one weight per input and a bias. *)
Fixpoint parameter_count (nin : nat) (nouts : list nat) : nat :=
  match nouts with
  | [] => 0
  | nout :: rest => nout * (nin + 1) + parameter_count nout rest
  end.


(** A leaf as [Value(x)] builds it. *)
Definition leaf (x : R) : Value := mkValue (Flt x) (Flt 0) ∅ "" RNone "".

(** The leaves that hold the first [k] draws of [g], in order. *)
Definition leaves (g : Rng) (k : nat) : Store := (λ i, leaf (g i)) <$> seq 0 k.

(** ** Small programs over two fresh leaves *)

(** [a = Value(x); b = Value(y); d = a - b; d.backward()] *)
Definition difference (x y : R) : M nat :=
  let* a := __init__ (Flt x) [] "" "" in
  let* b := __init__ (Flt y) [] "" "" in
  let* d := __sub__ a (OValue b) in
  backward d ;;
  ret d.

(** [a = Value(x); b = Value(y); q = a / b; q.backward()] *)
Definition quotient (x y : R) : M nat :=
  let* a := __init__ (Flt x) [] "" "" in
  let* b := __init__ (Flt y) [] "" "" in
  let* q := __truediv__ a (OValue b) in
  backward q ;;
  ret q.

(** [v = Value(x); y = v.exp(); y.backward()] *)
Definition exponential (x : R) : M nat :=
  let* v := __init__ (Flt x) [] "" "" in
  let* y := Value_exp v in
  backward y ;;
  ret y.

(** [v = Value(x); y = v ** p; y.backward()] *)
Definition power (x p : R) : M nat :=
  let* v := __init__ (Flt x) [] "" "" in
  let* y := __pow__ v p in
  backward y ;;
  ret y.

(** ** The function a network computes *)

(** The parameters of a neuron as numbers: its weights and its bias. *)
Abbreviation neuron_params := (list R * R)%type.










(** ** The training loop of [nn.py] *)






Definition with_data (d : num) (v : Value) : Value :=
  mkValue d (grad v) (_prev v) (_op v) (_backward v) (label v).

(** [v.data = d] *)
Definition set_data (v : nat) (d : num) : M unit :=
  λ s, match s !! v with
       | Some n => (<[v := with_data d n]> s, inr tt)
       | None => (s, inl StaleReference)
       end.

(** [for p in ps: p.data += -0.1 * p.grad] *)
Definition update (ps : list nat) : M unit :=
  for_each (λ p, let* d := get_data p in
                 let* g := get_grad p in
                 set_data p (num_add d (num_mul (Flt (-1 / 10)) g))) ps.



(** A node is in scope of a computation that started when the store had
    [n0] nodes and was handed the nodes [P]: it exists, and it is one of
    [P] or was allocated since. *)
Definition in_scope (P : list nat) (n0 : nat) (s : Store) (i : nat) : Prop :=
  i < length s ∧ (i ∈ P ∨ n0 ≤ i).

(** The nodes allocated since have gradient 0.0 and operands that are
    older than themselves and in scope. *)
Definition fresh_since (P : list nat) (n0 : nat) (s : Store) : Prop :=
  ∀ i n, s !! i = Some n → n0 ≤ i →
    grad n = Flt 0 ∧ ∀ c, c ∈ _prev n → c < i ∧ (c ∈ P ∨ n0 ≤ c).

(** [m], given nodes [V] in scope on a store of at least [n0] nodes,
    keeps the store fresh, whether it returns or raises, and the nodes
    [ids a] of its result are in scope. *)
Definition scoped (P : list nat) (n0 : nat) (V : list nat) {A} (m : M A)
    (ids : A → list nat) : Prop :=
  ∀ s, n0 ≤ length s → fresh_since P n0 s →
    (∀ i, i ∈ V → in_scope P n0 s i) →
    fresh_since P n0 (m s).1 ∧ length s ≤ length (m s).1 ∧
    ∀ a, (m s).2 = inr a → ∀ i, i ∈ ids a → in_scope P n0 (m s).1 i.

(** ** Rules that can run *)

(** What the body of a rule needs of the store to run to its end: the
    nodes it mentions exist; the power rule has a float base [x] on which
    [x ** (p - 1)] evaluates, which fails for the base 0.0 with [p < 1]
    and for a result out of range; the [tanh] rule squares a float whose
    square is in range; the [relu] rule compares a float with 0. *)
Definition can_run (s : Store) (r : rule) : Prop :=
  match r with
  | RNone => True
  | RAdd self other out | RMul self other out =>
      self < length s ∧ other < length s ∧ out < length s
  | RPow self p out =>
      out < length s ∧
      ∃ x q, data_at s self = Some (Flt x) ∧ float_pow x (p - 1) = inr q
  | RExp self out => self < length s ∧ out < length s
  | RTanh self out =>
      self < length s ∧
      ∃ t, data_at s out = Some (Flt t) ∧ ¬ overflows (t * t)
  | RRelu self out =>
      out < length s ∧ ∃ x, data_at s self = Some (Flt x)
  end.

(** [v = Value(2.0); y = v ** 3; o = y.tanh()], at positions 0 to 2. *)
Definition pow_tanh_store : Store :=
  [ leaf 2;
    mkValue (Flt 8) (Flt 0) {[0]} "pow" (RPow 0 3 1) "";
    mkValue (Flt (tanh_formula 8)) (Flt 0) {[1]} "tanh" (RTanh 1 2) "" ].

(** * Properties *)

(** ** Python numbers *)

Lemma num_add_0_l d : num_add (Flt 0) d = d.
Proof. destruct d; simpl; f_equal; lra. Qed.

Lemma num_add_assoc a b c : num_add (num_add a b) c = num_add a (num_add b c).
Proof. destruct a, b, c; simpl; f_equal; lra. Qed.

Lemma num_add_diag d : num_add d d = num_mul (Flt 2) d.
Proof. destruct d; simpl; f_equal; lra. Qed.

Lemma num_double d :
  num_add (num_add (Flt 0) (num_mul (Flt 1) d)) (num_mul (Flt 1) d)
  = num_mul (Flt 2) d.
Proof. destruct d; simpl; f_equal; lra. Qed.

Lemma num_sub_as_add a c : num_add a (num_neg c) = num_sub a c.
Proof. destruct a, c; simpl; f_equal; lra. Qed.

Lemma foldl_num_add g ds :
  foldl num_add g ds = num_add g (foldl num_add (Flt 0) ds).
Proof.
  revert g. induction ds as [|d ds IH]; intros g; cbn [foldl].
  - destruct g; simpl; f_equal; lra.
  - rewrite (IH (num_add g d)), (IH (num_add (Flt 0) d)).
    by rewrite num_add_0_l, num_add_assoc.
Qed.

(** Magnitudes that are in the range of a float. *)
Lemma not_overflows_le x (z : Z) :
  (Rabs x <= IZR z)%R → (z < 2 ^ 1024 - 2 ^ 970)%Z → ¬ overflows x.
Proof.
  intros Hx Hz Ho. unfold overflows, float_huge in Ho.
  apply IZR_lt in Hz. lra.
Qed.

Lemma not_overflows_unit x : (-1 <= x <= 1)%R → ¬ overflows x.
Proof.
  intros Hx. apply (not_overflows_le x 1); [|done].
  apply Rabs_le. lra.
Qed.

Lemma overflows_large x : overflows x → (1 < Rabs x)%R.
Proof.
  intros Ho. destruct (Rle_dec (Rabs x) 1) as [Hle|Hgt]; [|lra].
  destruct (not_overflows_le x 1 Hle); done.
Qed.

Lemma range_checked_ok x : ¬ overflows x → range_checked x = inr (Flt x).
Proof. intros H. unfold range_checked. by destruct (overflows_dec x). Qed.

Lemma range_checked_raise x :
  overflows x → range_checked x = inl OverflowError.
Proof. intros H. unfold range_checked. by destruct (overflows_dec x). Qed.

Lemma overflows_mono a b :
  (Rabs a <= Rabs b)%R → overflows a → overflows b.
Proof. unfold overflows. lra. Qed.



Lemma Rpower_base_1 p : Rpower 1 p = 1%R.
Proof. unfold Rpower. by rewrite ln_1, Rmult_0_r, exp_0. Qed.

Lemma py_pow_zero_inverse d :
  num_is_zero d → py_pow d (-1) = inl ZeroDivisionError.
Proof.
  intros Hz. destruct d as [x|re im]; simpl.
  - destruct Hz as [Hx _]. simpl in Hx. unfold float_pow.
    destruct (Req_dec_T (-1) 0); [lra|].
    destruct (Req_dec_T x 0); [|done].
    destruct (Rlt_dec (-1) 0); [done|lra].
  - unfold complex_pow.
    destruct (Req_dec_T (-1) 0); [lra|].
    destruct (num_is_zero_dec (Cplx re im)); [|done].
    destruct (Rlt_dec (-1) 0); [done|lra].
Qed.

Lemma half_not_integral : ¬ is_integral (1 / 2).
Proof.
  unfold is_integral.
  destruct (Int_part_frac_part_spec (1 / 2) 0 (1 / 2)) as [_ <-]; lra.
Qed.

Lemma not_integral_nonzero p : ¬ is_integral p → p ≠ 0%R.
Proof. intros H ->. apply H. apply fp_R0. Qed.

Lemma modulus_negative x : (x < 0)%R → sqrt (x * x + 0 * 0) = (- x)%R.
Proof.
  intros Hx. replace (x * x + 0 * 0)%R with ((- x) * (- x))%R by lra.
  apply sqrt_square. lra.
Qed.

Lemma atan2_negative x : (x < 0)%R → atan2 0 x = PI.
Proof.
  intros Hx. unfold atan2.
  destruct (Rlt_dec 0 x); [lra|]. destruct (Rlt_dec x 0); [|lra].
  destruct (Rle_dec 0 0); [|lra].
  replace (0 / x)%R with 0%R by (field; lra). rewrite atan_0. lra.
Qed.

(** A negative base with a fractional exponent: the complex number of
    modulus [|x|^p] and argument [π p], unless the modulus is out of
    range. *)
Lemma float_pow_negative_fractional x p :
  (x < 0)%R → ¬ is_integral p →
  float_pow x p =
    if overflows_dec (Rpower (- x) p) then inl OverflowError
    else inr (Cplx (Rpower (- x) p * cos (PI * p))
                   (Rpower (- x) p * sin (PI * p))).
Proof.
  intros Hx Hp. pose proof (not_integral_nonzero p Hp). unfold float_pow.
  destruct (Req_dec_T p 0); [done|].
  destruct (Req_dec_T x 0); [lra|].
  destruct (Rlt_dec x 0); [|lra].
  destruct (is_integral_dec p); [done|].
  unfold complex_pow.
  destruct (Req_dec_T p 0); [done|].
  destruct (num_is_zero_dec (Cplx x 0)) as [[Hz _]|]; [simpl in Hz; lra|].
  by rewrite (modulus_negative x Hx), (atan2_negative x Hx).
Qed.

(** ** The traversal, for an arbitrary enumeration of the operands *)

Section Traversal.
Variable kids : nat → list nat.
Hypothesis kids_lt : ∀ v c, c ∈ kids v → c < v.

Lemma operands_first_snoc l v :
  operands_first kids l → (∀ c, c ∈ kids v → c ∈ l) →
  operands_first kids (l ++ [v]).
Proof.
  intros Hl Hv i u c Hi Hc.
  destruct (decide (i < length l)) as [Hlt|Hge].
  - rewrite lookup_app_l in Hi by done.
    destruct (Hl i u c Hi Hc) as (j & Hj & Hjc).
    exists j. split; [done|]. rewrite lookup_app_l; [done|lia].
  - rewrite lookup_app_r in Hi by lia.
    destruct (i - length l) as [|k] eqn:Hk; simpl in Hi; [|done].
    injection Hi as <-.
    destruct (proj1 (list_elem_of_lookup l c) (Hv c Hc)) as (j & Hj).
    pose proof (lookup_lt_Some _ _ _ Hj).
    exists j. split; [lia|]. by rewrite lookup_app_l.
Qed.

Lemma for_children_spec visit bound children :
  (∀ c vis tp, c ∈ children →
     c ∉ vis →
     (∀ u, u ∈ vis → u ≤ c → u ∈ tp) →
     (∀ u, u ∈ tp → u ∈ vis) →
     NoDup tp → operands_first kids tp →
     visit_post kids (S c) [c] vis tp (visit c (vis, tp))) →
  (∀ c, c ∈ children → c < bound) →
  ∀ vis tp,
    (∀ u, u ∈ vis → u < bound → u ∈ tp) →
    (∀ u, u ∈ tp → u ∈ vis) →
    NoDup tp → operands_first kids tp →
    visit_post kids bound children vis tp
      (for_children visit children (vis, tp)).
Proof.
  induction children as [|c rest IH]; intros Hvisit Hb vis tp Hpend Hsub Hnd Hord.
  - exists vis, []. rewrite app_nil_r. simpl.
    split_and!; try done; [set_solver|set_solver|constructor|set_solver].
  - simpl. 
    assert (Hrest : visit_post kids bound rest vis tp (for_children visit rest (vis, tp)) →
              c ∈ vis →
              visit_post kids bound (c :: rest) vis tp (for_children visit rest (vis, tp))).
    { intros (vis' & new & Heq & Hvis' & Hnew & Hndn & Hordn & Hin) Hc.
      exists vis', new. split_and!; try done.
      - intros u Hu. destruct (Hnew u Hu) as (? & ? & f & Hf & Hr).
        split_and!; try done. exists f. split; [set_solver|done].
      - intros f Hf. apply elem_of_cons in Hf as [->|Hf]; [|by apply Hin].
        apply elem_of_app. left. apply Hpend; [done|]. apply Hb. set_solver. }
    case_decide as Hc.
    + apply Hrest; [|done]. apply IH; try done.
      * intros. apply Hvisit; try done. set_solver.
      * intros. apply Hb. set_solver.
    + destruct (Hvisit c vis tp) as (vis1 & new1 & Heq1 & Hvis1 & Hnew1 & Hnd1 & Hord1 & Hin1);
        try done; [set_solver| |].
      { intros u Hu Hle. apply Hpend; [done|]. 
        assert (c < bound) by (apply Hb; set_solver). lia. }
      rewrite Heq1.
      destruct (IH (λ c' vis tp Hc', Hvisit c' vis tp ltac:(set_solver))
                   (λ c' Hc', Hb c' ltac:(set_solver)) vis1 (tp ++ new1))
        as (vis2 & new2 & Heq2 & Hvis2 & Hnew2 & Hnd2 & Hord2 & Hin2);
        try done.
      { intros u Hu Hle. apply Hvis1 in Hu as [Hu|Hu]; apply elem_of_app; auto. }
      { intros u Hu. apply Hvis1. apply elem_of_app in Hu as [Hu|Hu]; auto. }
      { apply NoDup_app. split_and!; try done.
        intros u Hu Hu'. apply Hnew1 in Hu'. destruct Hu' as [Hu' _]. auto. }
      exists vis2, (new1 ++ new2). rewrite app_assoc. split_and!; try done.
      * intros u. rewrite Hvis2, Hvis1, elem_of_app. tauto.
      * intros u Hu. apply elem_of_app in Hu as [Hu|Hu].
        -- destruct (Hnew1 u Hu) as (? & ? & f & Hf & Hr).
           apply list_elem_of_singleton in Hf as ->.
           split_and!; try done.
           ++ assert (c < bound) by (apply Hb; set_solver). lia.
           ++ exists c. split; [set_solver|done].
        -- destruct (Hnew2 u Hu) as (Hn & ? & f & Hf & Hr).
           split_and!; try done.
           ++ intros Hv. apply Hn. apply Hvis1. auto.
           ++ exists f. split; [set_solver|done].
      * apply NoDup_app. split_and!; try done.
        intros u Hu Hu'. destruct (Hnew2 u Hu') as (Hn & _).
        apply Hn, Hvis1. auto.
      * intros f Hf.
        apply elem_of_cons in Hf as [->|Hf]; [|by apply Hin2].
        apply elem_of_app. left. apply Hin1. set_solver.
Qed.

Lemma build_topo_spec fuel :
  ∀ v vis tp,
    v < fuel → v ∉ vis →
    (∀ u, u ∈ vis → u ≤ v → u ∈ tp) →
    (∀ u, u ∈ tp → u ∈ vis) →
    NoDup tp → operands_first kids tp →
    visit_post kids (S v) [v] vis tp (build_topo kids fuel v (vis, tp)) ∧
    ∃ st, build_topo kids fuel v (vis, tp) = Some st ∧ last st.2 = Some v.
Proof.
  induction fuel as [|fuel IH]; intros v vis tp Hfuel Hv Hpend Hsub Hnd Hord;
    [lia|].
  simpl. rewrite decide_False by done.
  destruct (for_children_spec (build_topo kids fuel) v (kids v))
    with (vis := {[v]} ∪ vis) (tp := tp)
    as (vis' & new & Heq & Hvis' & Hnew & Hndn & Hordn & Hin); try done.
  - intros c vis0 tp0 Hc Hc0 H1 H2 H3 H4.
    apply IH; try done. apply kids_lt in Hc. lia.
  - apply kids_lt.
  - intros u Hu Hlt. apply elem_of_union in Hu as [Hu|Hu].
    + apply elem_of_singleton in Hu. lia.
    + apply Hpend; [done|lia].
  - set_solver.
  - rewrite Heq. simpl. split.
    + exists vis', (new ++ [v]). rewrite app_assoc. split_and!; try done.
      * intros u. rewrite Hvis', elem_of_app, list_elem_of_singleton.
        set_solver.
      * intros u Hu. apply elem_of_app in Hu as [Hu|Hu].
        -- destruct (Hnew u Hu) as (Hn & Hlt & f & Hf & Hr).
           split_and!; [set_solver|lia|].
           exists v. split; [set_solver|].
           eapply rtc_l; [exact Hf|exact Hr].
        -- apply list_elem_of_singleton in Hu as ->.
           split_and!; [done|lia|]. exists v. split; [set_solver|].
           apply rtc_refl.
      * apply NoDup_app. split_and!; [done| |apply NoDup_singleton].
        intros u Hu Hu'. apply list_elem_of_singleton in Hu' as ->.
        destruct (Hnew v Hu) as (Hn & _). set_solver.
      * apply operands_first_snoc; [done|]. intros c Hc. by apply Hin.
      * intros f Hf. apply list_elem_of_singleton in Hf as ->.
        set_solver.
    + eexists. split; [done|]. simpl. apply last_snoc.
Qed.

End Traversal.

Lemma for_children_ext visit visit' children :
  (∀ c st, visit c st = visit' c st) →
  ∀ st, for_children visit children st = for_children visit' children st.
Proof.
  intros Hv. induction children as [|c rest IH]; intros st; simpl; [done|].
  case_decide; [apply IH|]. rewrite Hv.
  destruct (visit' c st); [apply IH|done].
Qed.

Lemma build_topo_ext kids kids' :
  (∀ v, kids v = kids' v) →
  ∀ fuel v st, build_topo kids fuel v st = build_topo kids' fuel v st.
Proof.
  intros Hk. induction fuel as [|fuel IH]; intros v st; simpl; [done|].
  case_decide; [done|]. rewrite Hk.
  by rewrite (for_children_ext _ _ _ IH).
Qed.

Lemma operands_first_closed kids tp r u :
  operands_first kids tp → r ∈ tp → kreach kids r u → u ∈ tp.
Proof.
  intros Hord Hr H. induction H as [|v c u Hc _ IH]; [done|].
  apply IH. apply list_elem_of_lookup in Hr as [i Hi].
  destruct (Hord i v c Hi Hc) as (j & _ & Hj).
  apply list_elem_of_lookup. by exists j.
Qed.

(** ** Computations in [M] *)

Lemma bind_inv {A B} (m : M A) (k : A → M B) s s' r :
  bind m k s = (s', r) →
  (∃ e, m s = (s', inl e) ∧ r = inl e) ∨
  (∃ s1 a, m s = (s1, inr a) ∧ k a s1 = (s', r)).
Proof.
  unfold bind. destruct (m s) as [s1 [e|a]]; intros H.
  - left. exists e. by injection H as <- <-.
  - right. by exists s1, a.
Qed.

Lemma bind_inv_ok {A B} (m : M A) (k : A → M B) s s' b :
  bind m k s = (s', inr b) →
  ∃ s1 a, m s = (s1, inr a) ∧ k a s1 = (s', inr b).
Proof. intros [(e & _ & [=])|H]%bind_inv. done. Qed.

Lemma bind_ok {A B} (m : M A) (k : A → M B) s s1 a :
  m s = (s1, inr a) → bind m k s = k a s1.
Proof. unfold bind. by intros ->. Qed.

Lemma bind_raise {A B} (m : M A) (k : A → M B) s s1 e :
  m s = (s1, inl e) → bind m k s = (s1, inl e).
Proof. unfold bind. by intros ->. Qed.

Lemma readonly_ret {A} (a : A) : readonly (ret a).
Proof. done. Qed.

Lemma readonly_lift {A} (r : result A) : readonly (lift r).
Proof. done. Qed.

Lemma readonly_deref v : readonly (deref v).
Proof. intros s. unfold deref. by destruct (s !! v). Qed.

Lemma readonly_bind {A B} (m : M A) (k : A → M B) :
  readonly m → (∀ a, readonly (k a)) → readonly (bind m k).
Proof.
  intros Hm Hk s. unfold bind. specialize (Hm s).
  destruct (m s) as [s1 [e|a]]; simpl in *; [done|].
  subst s1. apply Hk.
Qed.

Lemma readonly_get_data v : readonly (get_data v).
Proof. apply readonly_bind; [apply readonly_deref|intros; apply readonly_ret]. Qed.

Lemma readonly_get_grad v : readonly (get_grad v).
Proof. apply readonly_bind; [apply readonly_deref|intros; apply readonly_ret]. Qed.

Create HintDb ro discriminated.
#[global] Hint Resolve readonly_ret readonly_lift readonly_deref
  readonly_get_data readonly_get_grad : ro.
#[global] Hint Extern 2 (readonly (bind _ _)) =>
  apply readonly_bind; [|intros] : ro.
#[global] Hint Extern 3 (readonly (match ?c with _ => _ end)) =>
  destruct c : ro.

(** ** Stores that differ in gradients only *)

Lemma same_graph_refl s : same_graph s s.
Proof.
  split; [done|]. intros i n n' H1 H2. rewrite H1 in H2. by injection H2 as <-.
Qed.

Lemma same_graph_trans s1 s2 s3 :
  same_graph s1 s2 → same_graph s2 s3 → same_graph s1 s3.
Proof.
  intros [Hl1 H1] [Hl2 H2]. split; [congruence|].
  intros i n n3 Hn Hn3.
  destruct (lookup_lt_is_Some_2 s2 i) as [n2 Hn2].
  { rewrite <- Hl1. eapply lookup_lt_Some, Hn. }
  destruct (H1 i n n2 Hn Hn2) as (? & ? & ? & ? & ?).
  destruct (H2 i n2 n3 Hn2 Hn3) as (? & ? & ? & ? & ?).
  split_and!; congruence.
Qed.

Lemma same_graph_sym s1 s2 : same_graph s1 s2 → same_graph s2 s1.
Proof.
  intros [Hl H]. split; [done|]. intros i n n' Hn Hn'.
  destruct (H i n' n Hn' Hn) as (? & ? & ? & ? & ?). split_and!; congruence.
Qed.

Lemma same_graph_lookup s s' i n :
  same_graph s s' → s !! i = Some n →
  ∃ n', s' !! i = Some n' ∧ data n' = data n ∧ _prev n' = _prev n ∧
        _op n' = _op n ∧ _backward n' = _backward n ∧ label n' = label n.
Proof.
  intros [Hl H] Hn.
  destruct (lookup_lt_is_Some_2 s' i) as [n' Hn'].
  { rewrite <- Hl. eapply lookup_lt_Some, Hn. }
  exists n'. split; [done|]. by apply (H i n n').
Qed.

Lemma same_graph_data s s' v : same_graph s s' → data_at s' v = data_at s v.
Proof.
  intros Hg. unfold data_at. destruct (s !! v) as [n|] eqn:Hn.
  - destruct (same_graph_lookup _ _ _ _ Hg Hn) as (n' & -> & Hd & _).
    simpl. by rewrite Hd.
  - apply lookup_ge_None in Hn. destruct Hg as [Hl _]. rewrite Hl in Hn.
    apply lookup_ge_None in Hn. by rewrite Hn.
Qed.

Lemma same_graph_grad_Some s s' n :
  same_graph s s' → is_Some (grad_at s n) → is_Some (grad_at s' n).
Proof.
  intros Hg [g Hn]. unfold grad_at in *.
  destruct (s !! n) as [v|] eqn:Hv; [|done].
  destruct (same_graph_lookup _ _ _ _ Hg Hv) as (v' & -> & _). by eexists.
Qed.

Lemma same_graph_wf s s' : same_graph s s' → wf s → wf s'.
Proof.
  intros Hg Hwf i n' Hn'.
  destruct (same_graph_lookup s' s i n' (same_graph_sym _ _ Hg) Hn')
    as (n & Hn & _ & Hp & _ & Hb & _).
  specialize (Hwf i n Hn). unfold node_wf in *. by rewrite <- Hp, <- Hb.
Qed.

Lemma same_graph_operand s s' c v :
  same_graph s s' → operand_of s' c v → operand_of s c v.
Proof.
  intros Hg (n' & Hn' & Hc).
  destruct (same_graph_lookup s' s v n' (same_graph_sym _ _ Hg) Hn')
    as (n & Hn & _ & Hp & _).
  exists n. split; [done|]. by rewrite Hp.
Qed.

Lemma same_graph_reach s s' r u : same_graph s s' → reach s' r u → reach s r u.
Proof.
  intros Hg H. induction H as [|v c u Hc _ IH]; [apply rtc_refl|].
  eapply rtc_l; [|exact IH]. by eapply same_graph_operand.
Qed.

Lemma same_graph_prev_of s s' v : same_graph s s' → prev_of s' v = prev_of s v.
Proof.
  intros Hg. unfold prev_of. destruct (s !! v) as [n|] eqn:Hn.
  - destruct (same_graph_lookup _ _ _ _ Hg Hn) as (n' & -> & _ & -> & _).
    done.
  - apply lookup_ge_None in Hn. destruct Hg as [Hl _]. rewrite Hl in Hn.
    apply lookup_ge_None in Hn. by rewrite Hn.
Qed.

Lemma same_graph_topo s s' root :
  same_graph s s' → topo_of s' root = topo_of s root.
Proof.
  intros Hg. unfold topo_of. destruct Hg as [Hl Hn]. rewrite <- Hl.
  by rewrite (build_topo_ext (prev_of s') (prev_of s)
                (λ v, same_graph_prev_of s s' v (conj Hl Hn))).
Qed.

(** ** What the rules write *)

Lemma set_grad_spec v g s s' r :
  set_grad v g s = (s', r) →
  same_graph s s' ∧ (∀ i, i ≠ v → s' !! i = s !! i) ∧
  (r = inr tt → grad_at s' v = Some g) ∧
  (is_Some (s !! v) → r = inr tt).
Proof.
  unfold set_grad. destruct (s !! v) as [n|] eqn:Hn; intros H;
    injection H as <- <-.
  - split_and!.
    + split; [by rewrite length_insert|]. intros i m m' Hm Hm'.
      destruct (decide (i = v)) as [->|Hne].
      * rewrite list_lookup_insert_eq in Hm' by (eapply lookup_lt_Some, Hn).
        injection Hm' as <-. rewrite Hn in Hm. by injection Hm as <-.
      * rewrite list_lookup_insert_ne in Hm' by done.
        rewrite Hm in Hm'. by injection Hm' as <-.
    + intros i Hi. by rewrite list_lookup_insert_ne.
    + intros _. unfold grad_at.
      by rewrite list_lookup_insert_eq by (eapply lookup_lt_Some, Hn).
    + done.
  - split_and!; [apply same_graph_refl|done|done|by intros [? ?]].
Qed.

Lemma iadd_grad_frame v rhs s s' r :
  readonly rhs →
  iadd_grad v rhs s = (s', r) →
  same_graph s s' ∧ ∀ i, i ≠ v → s' !! i = s !! i.
Proof.
  intros Hro H. unfold iadd_grad in H.
  apply bind_inv in H as [(e & H & _)|(s1 & g & Hg & H)].
  { pose proof (readonly_get_grad v s) as Hs. rewrite H in Hs. simpl in Hs.
    subst s'. split; [apply same_graph_refl|done]. }
  pose proof (readonly_get_grad v s) as Hs. rewrite Hg in Hs. simpl in Hs.
  subst s1.
  apply bind_inv in H as [(e & H & _)|(s1 & x & Hx & H)].
  { pose proof (Hro s) as Hs. rewrite H in Hs. simpl in Hs.
    subst s'. split; [apply same_graph_refl|done]. }
  pose proof (Hro s) as Hs. rewrite Hx in Hs. simpl in Hs. subst s1.
  apply set_grad_spec in H. tauto.
Qed.

Lemma run_rule_frame ρ s s' r :
  run_rule ρ s = (s', r) →
  same_graph s s' ∧ ∀ i, i ∉ rule_targets ρ → s' !! i = s !! i.
Proof.
  destruct ρ; simpl; intros H.
  1: { injection H as <- <-. split; [apply same_graph_refl|done]. }
  1,2: apply bind_inv in H as [(e & H & _)|(s1 & [] & H1 & H)];
       [apply iadd_grad_frame in H; [|auto 10 with ro];
        destruct H as [Hg Hf]; split; [done|];
        intros i Hi; apply Hf; set_solver
       |apply iadd_grad_frame in H1; [|auto 10 with ro];
        apply iadd_grad_frame in H; [|auto 10 with ro];
        destruct H1 as [Hg1 Hf1], H as [Hg Hf];
        split; [by eapply same_graph_trans|];
        intros i Hi; rewrite Hf, Hf1; [done|set_solver|set_solver]].
  all: apply iadd_grad_frame in H; [|auto 10 with ro];
       destruct H as [Hg Hf]; split; [done|];
       intros i Hi; apply Hf; set_solver.
Qed.

Lemma call_backward_frame node s s' r :
  call_backward node s = (s', r) →
  same_graph s s' ∧
  ∀ i, (∀ v, s !! node = Some v → i ∉ rule_targets (_backward v)) →
       s' !! i = s !! i.
Proof.
  unfold call_backward, bind, deref.
  destruct (s !! node) as [v|] eqn:Hv; intros H.
  - apply run_rule_frame in H as [Hg Hf]. split; [done|].
    intros i Hi. apply Hf. by apply Hi.
  - injection H as <- <-. split; [apply same_graph_refl|done].
Qed.

Lemma for_each_frame l :
  ∀ s s' r,
    for_each call_backward l s = (s', r) →
    same_graph s s' ∧
    ∀ i, (∀ node v, node ∈ l → s !! node = Some v →
                    i ∉ rule_targets (_backward v)) →
         s' !! i = s !! i.
Proof.
  induction l as [|node rest IH]; intros s s' r H; simpl in H.
  - injection H as <- <-. split; [apply same_graph_refl|done].
  - apply bind_inv in H as [(e & H & _)|(s1 & [] & H1 & H)].
    + apply call_backward_frame in H as [Hg Hf]. split; [done|].
      intros i Hi. apply Hf. intros v Hv. eapply Hi; [|done]. set_solver.
    + apply call_backward_frame in H1 as [Hg1 Hf1].
      apply IH in H as [Hg Hf]. split; [by eapply same_graph_trans|].
      intros i Hi. rewrite Hf, Hf1; [done| |].
      * intros v Hv. eapply Hi; [|done]. set_solver.
      * intros m v1 Hm Hv1.
        destruct (same_graph_lookup s1 s m v1 (same_graph_sym _ _ Hg1) Hv1)
          as (v & Hv & _ & _ & _ & Hb & _).
        rewrite <- Hb. eapply Hi; [|done]. set_solver.
Qed.

Lemma for_each_app f l1 l2 s :
  for_each f (l1 ++ l2) s = (for_each f l1 ;; for_each f l2) s.
Proof.
  revert s. induction l1 as [|x l1 IH]; intros s; simpl.
  - done.
  - unfold bind in *. destruct (f x s) as [s1 [e|[]]]; [done|].
    by rewrite IH.
Qed.

(** A rule only writes to operands of its node. *)
Lemma wf_target_operand s node v t :
  wf s → s !! node = Some v → t ∈ rule_targets (_backward v) →
  operand_of s t node.
Proof.
  intros Hwf Hv Ht. exists v. split; [done|].
  by apply (Hwf node v Hv).
Qed.

Lemma backward_unfold s root order :
  backward_order s root = Some order →
  backward root s
  = (set_grad root (Flt 1) ;; for_each call_backward order) s.
Proof.
  unfold backward_order, backward. destruct (topo_of s root); [|done].
  by intros [= <-].
Qed.

Lemma backward_same_graph s root s' r :
  backward root s = (s', r) → same_graph s s'.
Proof.
  unfold backward. destruct (topo_of s root) as [tp|].
  2: { intros [= <- <-]. apply same_graph_refl. }
  intros [(e & Hseed & _)|(s0 & [] & Hseed & Hrun)]%bind_inv.
  - by apply set_grad_spec in Hseed as (Hg & _).
  - apply set_grad_spec in Hseed as (Hg0 & _).
    apply for_each_frame in Hrun as (Hg1 & _).
    by eapply same_graph_trans.
Qed.

(** ** The traversal on a store *)

Lemma prev_of_operand s c v : c ∈ prev_of s v ↔ operand_of s c v.
Proof.
  unfold prev_of, operand_of. destruct (s !! v) as [n|].
  - rewrite elem_of_elements. split; [by exists n|].
    intros (n' & Hn' & Hc). by injection Hn' as ->.
  - split; [by intros ?%elem_of_nil|]. by intros (n & ? & _).
Qed.

Lemma wf_prev_lt s : wf s → ∀ v c, c ∈ prev_of s v → c < v.
Proof.
  intros Hwf v c Hc. apply prev_of_operand in Hc as (n & Hn & Hc).
  by apply (Hwf v n Hn).
Qed.

Lemma reach_kreach s r u : reach s r u ↔ kreach (prev_of s) r u.
Proof.
  unfold reach, kreach. split; intros H; induction H; try apply rtc_refl.
  - eapply rtc_l; [|done]. by apply prev_of_operand.
  - eapply rtc_l; [|done]. simpl. by apply prev_of_operand.
Qed.

Lemma reach_le s r u : wf s → reach s r u → u ≤ r.
Proof.
  intros Hwf H. induction H as [|v c u (n & Hn & Hc) _ IH]; [done|].
  pose proof (proj1 (Hwf v n Hn) c Hc). lia.
Qed.

Lemma reach_operand s r v c : reach s r v → operand_of s c v → reach s r c.
Proof. intros Hr Hc. eapply rtc_r; [exact Hr|exact Hc]. Qed.

Lemma topo_of_spec s root :
  wf s → root < length s →
  ∃ tp, topo_of s root = Some tp ∧ NoDup tp ∧
        operands_first (prev_of s) tp ∧
        (∀ u, u ∈ tp ↔ reach s root u) ∧
        last tp = Some root.
Proof.
  intros Hwf Hroot.
  destruct (build_topo_spec (prev_of s) (wf_prev_lt s Hwf) (S (length s))
              root ∅ [])
    as [(vis' & new & Heq & Hvis' & Hnew & Hnd & Hord & Hin)
        (st & Hst & Hlast)];
    [lia|set_solver|set_solver|set_solver|constructor| |].
  { intros i u c Hi. by rewrite lookup_nil in Hi. }
  unfold topo_of. rewrite Hst. rewrite Heq in Hst. injection Hst as <-.
  simpl in *. exists new. split_and!; try done.
  intros u. split.
  - intros Hu. destruct (Hnew u Hu) as (_ & _ & f & Hf & Hr).
    apply list_elem_of_singleton in Hf as ->. by apply reach_kreach.
  - intros Hr. eapply operands_first_closed; [done| |by apply reach_kreach].
    apply Hin. set_solver.
Qed.

(** ** The traversal always returns *)

Lemma unvisited_mono s (vis vis' : gset nat) :
  vis ⊆ vis' → unvisited s vis' ≤ unvisited s vis.
Proof. intros H. apply subseteq_size. set_solver. Qed.

Lemma unvisited_visit s (vis : gset nat) v :
  v < length s → v ∉ vis → unvisited s ({[v]} ∪ vis) < unvisited s vis.
Proof.
  intros Hv Hn. apply subset_size. split; [set_solver|].
  intros H. assert (v ∈ (set_seq 0 (length s) : gset nat) ∖ vis) as Hin.
  { apply elem_of_difference. split; [|done]. apply elem_of_set_seq. lia. }
  apply H in Hin. set_solver.
Qed.

Lemma for_children_total s visit fuel children :
  (∀ c vis tp, c ∉ vis → unvisited s vis < fuel →
     ∃ vis' tp', visit c (vis, tp) = Some (vis', tp') ∧ vis ⊆ vis') →
  ∀ vis tp, unvisited s vis < fuel →
    ∃ vis' tp', for_children visit children (vis, tp) = Some (vis', tp') ∧
                vis ⊆ vis'.
Proof.
  intros Hvisit. induction children as [|c rest IH]; intros vis tp Hfuel.
  - by exists vis, tp.
  - simpl. case_decide as Hc; [by apply IH|].
    destruct (Hvisit c vis tp Hc Hfuel) as (vis1 & tp1 & -> & Hsub).
    destruct (IH vis1 tp1) as (vis2 & tp2 & -> & Hsub2).
    { pose proof (unvisited_mono s _ _ Hsub). lia. }
    exists vis2, tp2. split; [done|set_solver].
Qed.

Lemma build_topo_total s fuel :
  ∀ v vis tp, v ∉ vis → unvisited s vis < fuel →
    ∃ vis' tp', build_topo (prev_of s) fuel v (vis, tp) = Some (vis', tp') ∧
                vis ⊆ vis'.
Proof.
  induction fuel as [|fuel IH]; intros v vis tp Hv Hfuel; [lia|].
  simpl. rewrite decide_False by done.
  destruct (decide (v < length s)) as [Hvalid|Hstale].
  - destruct (for_children_total s (build_topo (prev_of s) fuel) fuel
                (prev_of s v) IH ({[v]} ∪ vis) tp)
      as (vis' & tp' & -> & Hsub).
    { pose proof (unvisited_visit s vis v Hvalid Hv). lia. }
    eexists _, _. split; [done|]. simpl. set_solver.
  - unfold prev_of. rewrite (proj2 (lookup_ge_None s v)) by lia. simpl.
    eexists _, _. split; [done|]. set_solver.
Qed.

(** The recursion budget of the model is enough on every store: the open
    calls are on distinct nodes of the store. *)
Lemma topo_of_total s root : is_Some (topo_of s root).
Proof.
  unfold topo_of.
  destruct (build_topo_total s (S (length s)) root ∅ []) as (vis & tp & -> & _).
  - set_solver.
  - unfold unvisited. rewrite difference_empty_L, size_set_seq. lia.
  - by eexists.
Qed.

(** ** Orders *)

Lemma operands_first_after s l :
  operands_first (prev_of s) l ↔ after_operands s l.
Proof.
  unfold operands_first, after_operands.
  split; intros H i u c Hi Hc; apply (H i u c Hi); by apply prev_of_operand.
Qed.

Lemma after_operands_before_consumers s l :
  NoDup l → after_operands s l → before_consumers s l.
Proof.
  intros Hnd H i u c Hi Hop Hc.
  apply list_elem_of_lookup in Hc as [p Hp].
  destruct (H p c u Hp Hop) as (q & Hq & Hqu).
  rewrite (NoDup_lookup l i q u Hnd Hi Hqu). by exists p.
Qed.

Lemma reverse_lookup_Some {A} (l : list A) i x :
  reverse l !! i = Some x ↔ i < length l ∧ l !! (length l - S i) = Some x.
Proof.
  split.
  - intros H. assert (i < length l).
    { rewrite <- length_reverse. eapply lookup_lt_Some, H. }
    split; [done|]. by rewrite <- reverse_lookup.
  - intros [Hi H]. by rewrite reverse_lookup.
Qed.

Lemma after_operands_reverse s l :
  after_operands s l → before_operands s (reverse l).
Proof.
  intros H i u c Hi Hop. apply reverse_lookup_Some in Hi as [Hi Hu].
  destruct (H _ u c Hu Hop) as (j & Hj & Hjc).
  exists (length l - S j). split; [lia|].
  apply reverse_lookup_Some. split; [lia|].
  by replace (length l - S (length l - S j)) with j by lia.
Qed.

Lemma before_consumers_reverse s l :
  before_consumers s l → after_consumers s (reverse l).
Proof.
  intros H i u c Hi Hop Hc. apply reverse_lookup_Some in Hi as [Hi Hu].
  rewrite elem_of_reverse in Hc.
  destruct (H _ u c Hu Hop Hc) as (j & Hj & Hjc).
  pose proof (lookup_lt_Some _ _ _ Hjc).
  exists (length l - S j). split; [lia|].
  apply reverse_lookup_Some. split; [lia|].
  by replace (length l - S (length l - S j)) with j by lia.
Qed.

(** The order of [backward] on a well-formed store: each reachable node
    once, the root first, consumers before operands. *)
Lemma backward_order_spec s root :
  wf s → root < length s →
  ∃ order, backward_order s root = Some order ∧ NoDup order ∧
           (∀ u, u ∈ order ↔ reach s root u) ∧
           after_consumers s order ∧ before_operands s order ∧
           head order = Some root.
Proof.
  intros Hwf Hroot.
  destruct (topo_of_spec s root Hwf Hroot)
    as (tp & Htp & Hnd & Hord & Hreach & Hlast).
  apply operands_first_after in Hord.
  exists (reverse tp). unfold backward_order. rewrite Htp. split_and!.
  - done.
  - by rewrite reverse_Permutation.
  - intros u. by rewrite elem_of_reverse.
  - by apply before_consumers_reverse, after_operands_before_consumers.
  - by apply after_operands_reverse.
  - by rewrite head_reverse.
Qed.

(** Once the rules of [pre] have run, the rules of [n :: post] leave the
    gradient of [n] alone. *)
Lemma gradient_final s order pre n post s1 s2 r :
  wf s → NoDup order → after_consumers s order →
  order = pre ++ n :: post →
  same_graph s s1 →
  for_each call_backward (n :: post) s1 = (s2, r) →
  s2 !! n = s1 !! n.
Proof.
  intros Hwf Hnd Hord -> Hg Hrun.
  apply for_each_frame in Hrun as [_ Hf]. apply Hf.
  intros node v Hnode Hv Ht.
  pose proof (same_graph_wf _ _ Hg Hwf) as Hwf1.
  pose proof (same_graph_operand _ _ _ _ Hg
                (wf_target_operand _ _ _ _ Hwf1 Hv Ht)) as Hop.
  apply list_elem_of_lookup in Hnode as [k Hk].
  assert (Hnk : (pre ++ n :: post) !! (length pre + k) = Some node).
  { rewrite lookup_app_r by lia.
    by replace (length pre + k - length pre) with k by lia. }
  destruct (Hord (length pre) n node) as (j & Hj & Hjn); try done.
  - by apply list_lookup_middle.
  - apply list_elem_of_lookup. eauto.
  - pose proof (NoDup_lookup _ _ _ _ Hnd Hjn Hnk). lia.
Qed.

(** ** Two runs of a rule, side by side *)

Lemma stable_ret o {A} (x : A) : stable o (ret x).
Proof. done. Qed.

Lemma stable_lift o {A} (r : result A) : stable o (lift r).
Proof. done. Qed.

Lemma stable_get_grad o : stable o (get_grad o).
Proof.
  split; [apply readonly_get_grad|]. intros a a' _ Hg.
  unfold grad_at in Hg. unfold get_grad, bind, deref, ret.
  destruct (a !! o), (a' !! o); simpl in *; congruence.
Qed.

Lemma stable_get_data o v : stable o (get_data v).
Proof.
  split; [apply readonly_get_data|]. intros a a' Hg _.
  pose proof (same_graph_data _ _ v Hg) as Hd. unfold data_at in Hd.
  unfold get_data, bind, deref, ret.
  destruct (a !! v), (a' !! v); simpl in *; congruence.
Qed.

Lemma stable_bind o {A B} (m : M A) (k : A → M B) :
  stable o m → (∀ x, stable o (k x)) → stable o (bind m k).
Proof.
  intros [Hro Hm] Hk. split.
  - apply readonly_bind; [done|]. intros x. apply Hk.
  - intros a a' Hg Ho. specialize (Hm a a' Hg Ho).
    pose proof (Hro a) as Ha. pose proof (Hro a') as Ha'.
    unfold bind. destruct (m a) as [s1 [e|x]], (m a') as [s1' [e'|x']];
      simpl in *; try congruence.
    subst s1 s1'. injection Hm as <-. by apply Hk.
Qed.

Create HintDb stb discriminated.
#[global] Hint Resolve stable_ret stable_lift stable_get_grad
  stable_get_data : stb.
#[global] Hint Extern 2 (stable _ (bind _ _)) =>
  apply stable_bind; [|intros] : stb.
#[global] Hint Extern 3 (stable _ (match ?c with _ => _ end)) =>
  destruct c : stb.

Lemma shifted_refl n a a' : shifted n a a' a a'.
Proof. exists []. by intros g g' -> ->. Qed.

Lemma shifted_trans n a a' b b' c c' :
  (is_Some (grad_at a n) → is_Some (grad_at a' n)) →
  shifted n a a' b b' → shifted n b b' c c' → shifted n a a' c c'.
Proof.
  intros Hsome [ds1 H1] [ds2 H2]. exists (ds1 ++ ds2). intros g g' Hg Hg'.
  destruct (H1 g g' Hg Hg') as [Hb Hb'].
  destruct (H2 _ _ Hb Hb') as [Hc Hc'].
  by rewrite !foldl_app.
Qed.

(** [v.grad += rhs] in two stores that agree on the graph and on the
    gradient of [o]: same graph and same gradient of [o] afterwards, and
    the same contribution to every node. *)
Lemma iadd_grad_lockstep o v rhs a a' b b' :
  iadd_grad v rhs a = (b, inr tt) → iadd_grad v rhs a' = (b', inr tt) →
  stable o rhs → v ≠ o →
  same_graph a a' → grad_at a o = grad_at a' o →
  same_graph b b' ∧ grad_at b o = grad_at b' o ∧
  ∀ n, shifted n a a' b b'.
Proof.
  intros Ha Ha' [Hro Hst] Hvo Hg Ho. unfold iadd_grad in *.
  apply bind_inv_ok in Ha as (s1 & g & Hg1 & Ha).
  apply bind_inv_ok in Ha' as (s1' & g' & Hg1' & Ha').
  pose proof (readonly_get_grad v a) as E. rewrite Hg1 in E. simpl in E.
  subst s1.
  pose proof (readonly_get_grad v a') as E. rewrite Hg1' in E. simpl in E.
  subst s1'.
  apply bind_inv_ok in Ha as (s1 & x & Hx & Ha).
  apply bind_inv_ok in Ha' as (s1' & x' & Hx' & Ha').
  pose proof (Hro a) as E. rewrite Hx in E. simpl in E. subst s1.
  pose proof (Hro a') as E. rewrite Hx' in E. simpl in E. subst s1'.
  pose proof (Hst a a' Hg Ho) as E. rewrite Hx, Hx' in E. simpl in E.
  injection E as <-.
  apply set_grad_spec in Ha as (Hb & Hfb & Hvb & _).
  apply set_grad_spec in Ha' as (Hb' & Hfb' & Hvb' & _).
  specialize (Hvb eq_refl). specialize (Hvb' eq_refl).
  split_and!.
  - eapply same_graph_trans; [|exact Hb'].
    eapply same_graph_trans; [|exact Hg]. by apply same_graph_sym.
  - unfold grad_at. rewrite Hfb, Hfb' by done. exact Ho.
  - intros n. destruct (decide (n = v)) as [->|Hn].
    + exists [x]. intros h h' Hh Hh'. simpl.
      assert (h = g) as ->.
      { unfold get_grad, bind, deref, ret in Hg1. unfold grad_at in Hh.
        destruct (a !! v); simpl in *; congruence. }
      assert (h' = g') as ->.
      { unfold get_grad, bind, deref, ret in Hg1'. unfold grad_at in Hh'.
        destruct (a' !! v); simpl in *; congruence. }
      done.
    + exists []. intros h h' Hh Hh'. simpl. unfold grad_at in *.
      by rewrite Hfb, Hfb'.
Qed.

(** The same rule, run in two stores that agree on the graph and on the
    gradient of the node the rule reads. *)
Lemma run_rule_lockstep ρ a a' b b' :
  (∀ o, rule_out ρ = Some o →
        (o ∉ rule_targets ρ) ∧ grad_at a o = grad_at a' o) →
  same_graph a a' →
  run_rule ρ a = (b, inr tt) → run_rule ρ a' = (b', inr tt) →
  ∀ n, shifted n a a' b b'.
Proof.
  intros Hout Hg Ha Ha' n.
  destruct ρ; cbn [run_rule rule_out rule_targets] in *.
  1: { injection Ha as <-. injection Ha' as <-. apply shifted_refl. }
  1,2: destruct (Hout out eq_refl) as [Hno Ho];
       apply bind_inv_ok in Ha as (a1 & [] & Ha1 & Ha);
       apply bind_inv_ok in Ha' as (a1' & [] & Ha1' & Ha');
       destruct (iadd_grad_lockstep out _ _ _ _ _ _ Ha1 Ha1')
         as (Hg1 & Ho1 & Hs1);
         [auto 10 with stb|set_solver|done|done|];
       destruct (iadd_grad_lockstep out _ _ _ _ _ _ Ha Ha')
         as (_ & _ & Hs2);
         [auto 10 with stb|set_solver|done|done|];
       eapply shifted_trans;
         [by apply same_graph_grad_Some|apply Hs1|apply Hs2].
  all: destruct (Hout out eq_refl) as [Hno Ho];
       destruct (iadd_grad_lockstep out _ _ _ _ _ _ Ha Ha')
         as (_ & _ & Hs);
         [auto 10 with stb|set_solver|done|done|];
       apply Hs.
Qed.

(** The shape of one pass that returns: the seed, the rule of the root,
    then the rules of the other reachable nodes, which write neither to
    the root nor to a node that only the root consumes. *)
Lemma backward_pass t root t' :
  wf t → backward root t = (t', inr tt) →
  ∃ ta tb nroot,
    ta !! root = Some nroot ∧
    run_rule (_backward nroot) ta = (tb, inr tt) ∧
    same_graph t ta ∧ same_graph t t' ∧
    grad_at ta root = Some (Flt 1) ∧ grad_at t' root = Some (Flt 1) ∧
    (∀ n, n ≠ root → ta !! n = t !! n) ∧
    (∀ n, n ≠ root →
       (∀ c, reach t root c → operand_of t n c → c = root) →
       t' !! n = tb !! n).
Proof.
  intros Hwf Hrun.
  assert (Hroot : root < length t).
  { unfold backward in Hrun. destruct (topo_of t root); [|done].
    apply bind_inv_ok in Hrun as (? & [] & Hseed & _).
    unfold set_grad in Hseed. destruct (t !! root) eqn:Hr; [|done].
    eapply lookup_lt_Some, Hr. }
  destruct (backward_order_spec t root Hwf Hroot)
    as (order & Horder & Hnd & Hreach & _ & _ & Hhead).
  rewrite (backward_unfold _ _ _ Horder) in Hrun.
  destruct order as [|r rest]; [done|]. injection Hhead as ->.
  apply NoDup_cons in Hnd as [Hnotin _].
  apply bind_inv_ok in Hrun as (ta & [] & Hseed & Hrun).
  cbn [for_each] in Hrun.
  apply bind_inv_ok in Hrun as (tb & [] & Hcall & Hrest).
  apply set_grad_spec in Hseed as (Hga & Hfa & Hva & _).
  specialize (Hva eq_refl).
  pose proof (same_graph_wf _ _ Hga Hwf) as Hwfa.
  unfold call_backward in Hcall.
  apply bind_inv_ok in Hcall as (ta' & nroot & Hderef & Hrule).
  unfold deref in Hderef. destruct (ta !! root) as [nr|] eqn:Hnr; [|done].
  injection Hderef as <- <-.
  pose proof (run_rule_frame _ _ _ _ Hrule) as (Hgb & Hfb).
  pose proof (for_each_frame _ _ _ _ Hrest) as (Hgr & Hfr).
  assert (Hgab : same_graph t tb) by (by eapply same_graph_trans).
  pose proof (same_graph_wf _ _ Hgab Hwf) as Hwfb.
  (* a rule of the pass writes to an operand of a reachable node *)
  assert (Htarget : ∀ node v i, node ∈ rest → tb !! node = Some v →
            i ∈ rule_targets (_backward v) →
            operand_of t i node ∧ reach t root node).
  { intros node v i Hnode Hv Hi. split.
    - eapply same_graph_operand; [exact Hgab|].
      by eapply wf_target_operand.
    - apply Hreach. set_solver. }
  exists ta, tb, nr. split_and!; try done.
  - by eapply same_graph_trans.
  - unfold grad_at in *. rewrite Hfr, Hfb; [done| |].
    + intros Hin. pose proof (proj1 (Hwfa root nr Hnr)) as Hlt.
      pose proof (proj1 (proj2 (Hwfa root nr Hnr)) root Hin) as Hp.
      specialize (Hlt root Hp). lia.
    + intros node v Hnode Hv Hi.
      destruct (Htarget node v root Hnode Hv Hi) as [(n & Hn & Hc) Hr].
      pose proof (proj1 (Hwf node n Hn) root Hc).
      pose proof (reach_le _ _ _ Hwf Hr). lia.
  - intros n Hn Honly. apply Hfr. intros node v Hnode Hv Hi.
    destruct (Htarget node v n Hnode Hv Hi) as [Hop Hr].
    rewrite (Honly node Hr Hop) in Hnode. done.
Qed.

(** ** Evaluating the methods *)

Lemma lookup_app_0 {A} (s l : list A) : (s ++ l) !! length s = l !! 0.
Proof. rewrite lookup_app_r by done. by rewrite Nat.sub_diag. Qed.

Lemma lookup_app_1 {A} (s l : list A) : (s ++ l) !! S (length s) = l !! 1.
Proof.
  rewrite lookup_app_r by lia. by replace (S (length s) - length s) with 1 by lia.
Qed.

Lemma insert_app_0 {A} (s l : list A) x :
  <[length s := x]> (s ++ l) = s ++ <[0 := x]> l.
Proof. rewrite insert_app_r_alt by done. by rewrite Nat.sub_diag. Qed.

Lemma insert_app_1 {A} (s l : list A) x :
  <[S (length s) := x]> (s ++ l) = s ++ <[1 := x]> l.
Proof.
  rewrite insert_app_r_alt by lia.
  by replace (S (length s) - length s) with 1 by lia.
Qed.

(** The allocation pattern shared by all operations: construct [out], then
    install its rule. *)
Lemma new_node_spec d cs op (r : nat → rule) s :
  (let* out := __init__ d cs op "" in
   set_backward out (r out) ;; ret out) s
  = (s ++ [mkValue d (Flt 0) (list_to_set cs) op (r (length s)) ""],
     inr (length s)).
Proof.
  unfold bind, __init__, set_backward, ret.
  rewrite lookup_app_0. simpl. by rewrite insert_app_0.
Qed.

Lemma get_data_spec s v n : s !! v = Some n → get_data v s = (s, inr (data n)).
Proof. intros H. unfold get_data, bind, deref. by rewrite H. Qed.

Lemma get_grad_spec s v n : s !! v = Some n → get_grad v s = (s, inr (grad n)).
Proof. intros H. unfold get_grad, bind, deref. by rewrite H. Qed.

Lemma mul_node_spec s self other n m :
  s !! self = Some n → s !! other = Some m →
  __mul__ self (OValue other) s
  = (s ++ [mkValue (num_mul (data n) (data m)) (Flt 0)
                   (list_to_set [self; other]) "*"
                   (RMul self other (length s)) ""],
     inr (length s)).
Proof.
  intros Hn Hm. unfold __mul__, promote.
  rewrite (bind_ok _ _ s s other) by done.
  rewrite (bind_ok _ _ _ _ _ (get_data_spec _ _ _ Hn)).
  rewrite (bind_ok _ _ _ _ _ (get_data_spec _ _ _ Hm)).
  apply (new_node_spec _ _ _ (RMul self other)).
Qed.

Lemma add_node_spec s self other n m :
  s !! self = Some n → s !! other = Some m →
  __add__ self (OValue other) s
  = (s ++ [mkValue (num_add (data n) (data m)) (Flt 0)
                   (list_to_set [self; other]) "+"
                   (RAdd self other (length s)) ""],
     inr (length s)).
Proof.
  intros Hn Hm. unfold __add__, promote.
  rewrite (bind_ok _ _ s s other) by done.
  rewrite (bind_ok _ _ _ _ _ (get_data_spec _ _ _ Hn)).
  rewrite (bind_ok _ _ _ _ _ (get_data_spec _ _ _ Hm)).
  apply (new_node_spec _ _ _ (RAdd self other)).
Qed.

Lemma pow_raises s self n p e :
  s !! self = Some n → py_pow (data n) p = inl e →
  __pow__ self p s = (s, inl e).
Proof.
  intros Hn Hp. unfold __pow__.
  rewrite (bind_ok _ _ _ _ _ (get_data_spec _ _ _ Hn)).
  unfold bind, lift. by rewrite Hp.
Qed.

(** The other half of C7 holds: [a - c] promotes [-c] to a leaf and adds. *)
Lemma node_minus_raw (s : Store) (a : nat) (na : Value) (c : num) :
  s !! a = Some na →
  py_sub (OValue a) (ORaw c) s
  = (s ++ [mkValue (num_neg c) (Flt 0) ∅ "" RNone "";
           mkValue (num_sub (data na) c) (Flt 0)
                   (list_to_set [a; length s]) "+"
                   (RAdd a (length s) (S (length s))) ""],
     inr (OValue (S (length s)))).
Proof.
  intros Ha. unfold py_sub, __sub__, py_neg, __add__, promote.
  unfold bind at 1 2 3. unfold ret at 1. unfold __init__ at 1.
  assert ((s ++ [mkValue (num_neg c) (Flt 0) (list_to_set []) "" RNone ""])
            !! a = Some na) as Ha'.
  { rewrite lookup_app_l; [done|]. eapply lookup_lt_Some, Ha. }
  rewrite (bind_ok _ _ _ _ _ (get_data_spec _ _ _ Ha')).
  erewrite bind_ok; [|apply get_data_spec; by rewrite lookup_app_0].
  cbn [data].
  rewrite (new_node_spec _ _ _ (RAdd a (length s))).
  rewrite length_app, Nat.add_1_r, <- app_assoc, num_sub_as_add. done.
Qed.

(** The traversal of a node with a single operand that is a leaf. *)
Lemma topo_of_unary s x y nx ny :
  x ≠ y → s !! x = Some nx → s !! y = Some ny →
  _prev nx = ∅ → _prev ny = {[x]} →
  topo_of s y = Some [x; y].
Proof.
  intros Hxy Hx Hy Hpx Hpy. unfold topo_of.
  assert (prev_of s x = []) as Hkx.
  { unfold prev_of. rewrite Hx, Hpx. apply elements_empty. }
  assert (prev_of s y = [x]) as Hky.
  { unfold prev_of. rewrite Hy, Hpy. apply elements_singleton. }
  destruct (length s) as [|[|k]] eqn:Hlen.
  { apply lookup_lt_Some in Hx. lia. }
  { apply lookup_lt_Some in Hx, Hy. lia. }
  cbn [build_topo fst snd]. rewrite decide_False by set_solver.
  rewrite Hky. cbn [for_children fst snd].
  rewrite decide_False by set_solver.
  cbn [build_topo fst snd]. rewrite decide_False by set_solver.
  rewrite Hkx. cbn [for_children fst snd]. done.
Qed.

Ltac step_store :=
  repeat first
    [ rewrite lookup_app_0 | rewrite lookup_app_1
    | rewrite insert_app_0 | rewrite insert_app_1
    | progress cbn [lookup list_lookup insert list_insert
                    data grad _prev _op _backward label run_rule for_each
                    with_grad with_backward fst snd] ].

Ltac run_M :=
  repeat first
    [ progress step_store
    | progress unfold call_backward, iadd_grad, get_grad, get_data,
        set_grad, deref, bind, ret, lift ].

(** ** Every operation of the class keeps the store well formed *)

Lemma wf_nil : wf [].
Proof. intros i n Hi. by rewrite lookup_nil in Hi. Qed.

Lemma wf_snoc s n : wf s → node_wf (length s) n → wf (s ++ [n]).
Proof.
  intros Hwf Hn i m Hi. destruct (decide (i < length s)) as [Hlt|Hge].
  - rewrite lookup_app_l in Hi by done. by apply Hwf.
  - rewrite lookup_app_r in Hi by lia.
    destruct (i - length s) as [|k] eqn:Hk; simpl in Hi; [|done].
    injection Hi as <-. by replace i with (length s) by lia.
Qed.

Lemma safe_ret V {A} (a : A) ids :
  (∀ i, i ∈ ids a → i ∈ V) → safe V (ret a) ids.
Proof.
  intros Hsub s Hwf HV. simpl. split_and!; [done|done|].
  intros a' [= <-] i Hi. by apply HV, Hsub.
Qed.

Lemma safe_readonly V {A} (m : M A) :
  readonly m → safe V m (λ _, []).
Proof.
  intros Hro s Hwf HV. rewrite (Hro s). split_and!; [done|done|].
  intros a _ i Hi. by apply elem_of_nil in Hi.
Qed.

Lemma safe_raise V {A} e (ids : A → list nat) : safe V (raise e) ids.
Proof. intros s Hwf HV. simpl. split_and!; done. Qed.

Lemma safe_bind V {A B} (m : M A) (k : A → M B) ids ids' :
  safe V m ids → (∀ a, safe (ids a ++ V) (k a) ids') →
  safe V (bind m k) ids'.
Proof.
  intros Hm Hk s Hwf HV. destruct (Hm s Hwf HV) as (Hwf1 & Hlen & Hids).
  unfold bind. destruct (m s) as [s1 [e|a]]; simpl in *.
  - split_and!; done.
  - destruct (Hk a s1 Hwf1) as (Hwf2 & Hlen2 & Hids2).
    { intros i [Hi|Hi]%elem_of_app; [by apply (Hids a)|].
      specialize (HV i Hi). lia. }
    split_and!; [done|lia|done].
Qed.

Lemma safe_weaken V V' {A} (m : M A) ids :
  (∀ i, i ∈ V → i ∈ V') → safe V m ids → safe V' m ids.
Proof. intros Hsub Hm s Hwf HV. apply Hm; [done|]. intros i Hi. auto. Qed.

(** A leaf. *)
Lemma safe_leaf V d op lbl : safe V (__init__ d [] op lbl) (λ out, [out]).
Proof.
  intros s Hwf HV. unfold __init__. cbn [fst snd]. split_and!.
  - apply wf_snoc; [done|]. repeat split; simpl; intros; set_solver.
  - rewrite length_app. lia.
  - intros a [= <-] i ->%list_elem_of_singleton. rewrite length_app. simpl. lia.
Qed.

(** A node with operands [cs] and a rule that writes to some of them and
    reads the node itself. *)
Lemma safe_new_node V d cs op (ρ : nat → rule) :
  (∀ c, c ∈ cs → c ∈ V) →
  (∀ out t, t ∈ rule_targets (ρ out) → t ∈ cs) →
  (∀ out o, rule_out (ρ out) = Some o → o = out) →
  safe V (let* out := __init__ d cs op "" in
          set_backward out (ρ out) ;; ret out) (λ out, [out]).
Proof.
  intros Hcs Ht Ho s Hwf HV. rewrite new_node_spec. cbn [fst snd].
  split_and!.
  - apply wf_snoc; [done|]. repeat split; cbn [_prev _backward].
    + intros c Hc%elem_of_list_to_set. auto.
    + intros t Htt. apply elem_of_list_to_set. eauto.
    + eauto.
  - rewrite length_app. lia.
  - intros a [= <-] i ->%list_elem_of_singleton. rewrite length_app. simpl. lia.
Qed.

Lemma safe_promote V other :
  (∀ i, i ∈ operand_ids other → i ∈ V) →
  safe V (promote other) (λ v, [v]).
Proof.
  intros Hv. destruct other as [v|x]; simpl.
  - apply safe_ret. intros i ->%list_elem_of_singleton. apply Hv. set_solver.
  - apply safe_leaf.
Qed.

Ltac safe_get :=
  eapply safe_bind; [apply safe_readonly; auto with ro|intros ?].

Lemma safe_add V self other :
  self ∈ V → (∀ i, i ∈ operand_ids other → i ∈ V) →
  safe V (__add__ self other) (λ out, [out]).
Proof.
  intros Hs Ho. unfold __add__.
  eapply safe_bind; [by apply safe_promote|intros o]. do 2 safe_get.
  apply safe_new_node; simpl; [set_solver|set_solver|congruence].
Qed.

Lemma safe_mul V self other :
  self ∈ V → (∀ i, i ∈ operand_ids other → i ∈ V) →
  safe V (__mul__ self other) (λ out, [out]).
Proof.
  intros Hs Ho. unfold __mul__.
  eapply safe_bind; [by apply safe_promote|intros o]. do 2 safe_get.
  apply safe_new_node; simpl; [set_solver|set_solver|congruence].
Qed.

Lemma safe_pow V self p :
  self ∈ V → safe V (__pow__ self p) (λ out, [out]).
Proof.
  intros Hs. unfold __pow__. do 2 safe_get.
  apply safe_new_node; simpl; [set_solver|set_solver|congruence].
Qed.

Lemma safe_exp V self :
  self ∈ V → safe V (Value_exp self) (λ out, [out]).
Proof.
  intros Hs. unfold Value_exp. do 2 safe_get.
  apply safe_new_node; simpl; [set_solver|set_solver|congruence].
Qed.

Lemma safe_tanh V self :
  self ∈ V → safe V (Value_tanh self) (λ out, [out]).
Proof.
  intros Hs. unfold Value_tanh. do 4 safe_get.
  apply safe_new_node; simpl; [set_solver|set_solver|congruence].
Qed.

Lemma safe_relu V self :
  self ∈ V → safe V (relu self) (λ out, [out]).
Proof.
  intros Hs. unfold relu. do 2 safe_get.
  apply safe_new_node; simpl; [set_solver|set_solver|congruence].
Qed.

Lemma safe_neg V self :
  self ∈ V → safe V (__neg__ self) (λ out, [out]).
Proof. intros Hs. apply safe_mul; [done|]. simpl. set_solver. Qed.

Lemma safe_py_neg V other :
  (∀ i, i ∈ operand_ids other → i ∈ V) →
  safe V (py_neg other) operand_ids.
Proof.
  intros Ho. destruct other as [v|x]; simpl.
  - eapply safe_bind; [apply safe_neg, Ho; set_solver|intros r].
    apply safe_ret. simpl. set_solver.
  - apply safe_ret. simpl. set_solver.
Qed.

Lemma safe_sub V self other :
  self ∈ V → (∀ i, i ∈ operand_ids other → i ∈ V) →
  safe V (__sub__ self other) (λ out, [out]).
Proof.
  intros Hs Ho. unfold __sub__.
  eapply safe_bind; [by apply safe_py_neg|intros m].
  apply safe_add; set_solver.
Qed.

Lemma safe_py_inverse V other :
  (∀ i, i ∈ operand_ids other → i ∈ V) →
  safe V (py_inverse other) operand_ids.
Proof.
  intros Ho. destruct other as [v|x]; simpl.
  - eapply safe_bind; [apply safe_pow, Ho; set_solver|intros r].
    apply safe_ret. simpl. set_solver.
  - safe_get. apply safe_ret. simpl. set_solver.
Qed.

Lemma safe_truediv V self other :
  self ∈ V → (∀ i, i ∈ operand_ids other → i ∈ V) →
  safe V (__truediv__ self other) (λ out, [out]).
Proof.
  intros Hs Ho. unfold __truediv__.
  eapply safe_bind; [by apply safe_py_inverse|intros m].
  apply safe_mul; set_solver.
Qed.

Lemma safe_py_mul V l r :
  (∀ i, i ∈ operand_ids l → i ∈ V) → (∀ i, i ∈ operand_ids r → i ∈ V) →
  safe V (py_mul l r) operand_ids.
Proof.
  intros Hl Hr. destruct l as [a|x], r as [b|y]; simpl in *.
  1,2: eapply safe_bind;
       [apply safe_mul; [set_solver|simpl; set_solver]|intros o];
       apply safe_ret; simpl; set_solver.
  - eapply safe_bind;
      [apply safe_mul; [set_solver|simpl; set_solver]|intros o].
    apply safe_ret; simpl; set_solver.
  - apply safe_ret. simpl. set_solver.
Qed.

Lemma safe_py_add V l r :
  (∀ i, i ∈ operand_ids l → i ∈ V) → (∀ i, i ∈ operand_ids r → i ∈ V) →
  safe V (py_add l r) operand_ids.
Proof.
  intros Hl Hr. destruct l as [a|x], r as [b|y]; simpl in *.
  1,2: eapply safe_bind;
       [apply safe_add; [set_solver|simpl; set_solver]|intros o];
       apply safe_ret; simpl; set_solver.
  - eapply safe_bind;
      [apply safe_add; [set_solver|simpl; set_solver]|intros o].
    apply safe_ret; simpl; set_solver.
  - apply safe_ret. simpl. set_solver.
Qed.

Lemma safe_rtruediv V self other :
  self ∈ V → (∀ i, i ∈ operand_ids other → i ∈ V) →
  safe V (__rtruediv__ self other) operand_ids.
Proof.
  intros Hs Ho. unfold __rtruediv__.
  eapply safe_bind; [by apply safe_pow|intros i].
  apply safe_py_mul; simpl; set_solver.
Qed.

Lemma safe_py_sub V l r :
  (∀ i, i ∈ operand_ids l → i ∈ V) → (∀ i, i ∈ operand_ids r → i ∈ V) →
  safe V (py_sub l r) operand_ids.
Proof.
  intros Hl Hr. destruct l as [a|x], r as [b|y]; simpl in *.
  1,2: eapply safe_bind;
       [apply safe_sub; [set_solver|simpl; set_solver]|intros o];
       apply safe_ret; simpl; set_solver.
  - apply safe_raise.
  - apply safe_ret. simpl. set_solver.
Qed.

Lemma safe_py_truediv V l r :
  (∀ i, i ∈ operand_ids l → i ∈ V) → (∀ i, i ∈ operand_ids r → i ∈ V) →
  safe V (py_truediv l r) operand_ids.
Proof.
  intros Hl Hr. destruct l as [a|x], r as [b|y]; simpl in *.
  1,2: eapply safe_bind;
       [apply safe_truediv; [set_solver|simpl; set_solver]|intros o];
       apply safe_ret; simpl; set_solver.
  - apply safe_rtruediv; [set_solver|simpl; set_solver].
  - safe_get. apply safe_ret. simpl. set_solver.
Qed.

(** [backward] keeps the store well formed too: it writes gradients only. *)
Lemma safe_backward V root : safe V (backward root) (λ _, []).
Proof.
  intros s Hwf HV. destruct (backward root s) as [s' r] eqn:Hrun.
  pose proof (backward_same_graph _ _ _ _ Hrun) as Hg. cbn [fst snd].
  split_and!.
  - by eapply same_graph_wf.
  - destruct Hg as [-> _]. done.
  - intros a _ i Hi. by apply elem_of_nil in Hi.
Qed.

(** ** The example stores *)

Lemma scenario_store_eq :
  scenario_store =
    [ mkValue (Flt 2) (Flt 0) ∅ "" RNone "";
      mkValue (Flt (2 * 2)) (Flt 0) (list_to_set [0; 0]) "*" (RMul 0 0 1) "";
      mkValue (Flt 3) (Flt 0) ∅ "" RNone "";
      mkValue (Flt (2 * 2 + 3)) (Flt 0) (list_to_set [1; 2]) "+"
              (RAdd 1 2 3) "" ].
Proof. reflexivity. Qed.

Ltac wf_concrete :=
  let i := fresh "i" in let n := fresh "n" in let Hi := fresh "Hi" in
  intros i n Hi;
  repeat (destruct i as [|i];
          [injection Hi as <-; repeat split; simpl; intros; set_solver by lia|];
          simpl in Hi);
  done.

Lemma wf_scenario : wf scenario_store.
Proof. rewrite scenario_store_eq. wf_concrete. Qed.

Lemma topo_scenario : topo_of scenario_store 3 = Some [2; 0; 1; 3].
Proof. vm_compute. reflexivity. Qed.

Lemma chain_store_eq :
  chain_store =
    [ mkValue (Flt 3) (Flt 0) ∅ "" RNone "";
      mkValue (Flt 2) (Flt 0) ∅ "" RNone "";
      mkValue (Flt (3 * 2)) (Flt 0) (list_to_set [0; 1]) "*" (RMul 0 1 2) "";
      mkValue (Flt 3) (Flt 0) ∅ "" RNone "";
      mkValue (Flt (3 * 2 * 3)) (Flt 0) (list_to_set [2; 3]) "*"
              (RMul 2 3 4) "" ].
Proof. reflexivity. Qed.

Lemma wf_chain : wf chain_store.
Proof. rewrite chain_store_eq. wf_concrete. Qed.

Lemma topo_chain : topo_of chain_store 4 = Some [1; 0; 2; 3; 4].
Proof. vm_compute. reflexivity. Qed.

Lemma chain_runs :
  ∃ s1 s2,
    backward 4 chain_store = (s1, inr tt) ∧
    backward 4 s1 = (s2, inr tt) ∧
    grad_at s1 4 = Some (Flt 1) ∧ grad_at s2 4 = Some (Flt 1) ∧
    grad_at s1 2 = Some (Flt 3) ∧ grad_at s2 2 = Some (Flt 6) ∧
    grad_at s1 0 = Some (Flt 6) ∧ grad_at s2 0 = Some (Flt 18).
Proof.
  eexists _, _.
  split.
  { unfold backward. rewrite topo_chain, chain_store_eq.
    cbn [reverse rev_append]. run_M. reflexivity. }
  split.
  { unfold backward.
    match goal with |- context [topo_of ?s 4] =>
      assert (topo_of s 4 = Some [1; 0; 2; 3; 4]) as ->
        by (vm_compute; reflexivity)
    end.
    cbn [reverse rev_append]. run_M. reflexivity. }
  cbn. split_and!; do 2 f_equal; lra.
Qed.

Lemma chain_once_run : backward 4 chain_store = (chain_once, inr tt).
Proof.
  destruct chain_runs as (s1 & s2 & H1 & _).
  unfold chain_once. by rewrite H1.
Qed.

Lemma chain_once_grad : grad_at chain_once 2 = Some (Flt 3).
Proof.
  destruct chain_runs as (s1 & s2 & H1 & _ & _ & _ & H & _).
  unfold chain_once. by rewrite H1.
Qed.

Lemma chain_twice_run : backward 4 chain_once = (chain_twice, inr tt).
Proof.
  destruct chain_runs as (s1 & s2 & H1 & H2 & _).
  unfold chain_twice, chain_once. rewrite H1. cbn [fst]. by rewrite H2.
Qed.

(** * The claims of the specification *)

(** ** The order of the backward pass *)

(** C1. On a store built by the operations of the class, [backward(root)]
    invokes the rule of every reachable node exactly once, and the rule of
    a node only after the rules of all the reachable nodes that consume
    it; the gradient a rule reads is therefore final: no later rule of
    the pass changes it. *)
Theorem backward_consumers_first (s : Store) (root : nat) :
  wf s → root < length s →
  ∃ order,
    backward_order s root = Some order ∧
    backward root s
    = (set_grad root (Flt 1) ;; for_each call_backward order) s ∧
    NoDup order ∧
    (∀ u, u ∈ order ↔ reach s root u) ∧
    after_consumers s order ∧
    (∀ pre n post s1 s2 r,
       order = pre ++ n :: post →
       (set_grad root (Flt 1) ;; for_each call_backward pre) s
         = (s1, inr tt) →
       for_each call_backward (n :: post) s1 = (s2, r) →
       grad_at s2 n = grad_at s1 n).
Proof.
  intros Hwf Hroot.
  destruct (backward_order_spec s root Hwf Hroot)
    as (order & Horder & Hnd & Hreach & Hcons & _ & _).
  exists order. split_and!; try done.
  - by apply backward_unfold.
  - intros pre n post s1 s2 r Hsplit Hpre Hrest.
    apply bind_inv in Hpre as [(e & _ & [=])|(s0 & [] & Hseed & Hpre)].
    apply set_grad_spec in Hseed as (Hg0 & _).
    apply for_each_frame in Hpre as (Hg1 & _).
    unfold grad_at. f_equal.
    eapply gradient_final; try done.
    by eapply same_graph_trans.
Qed.

Lemma backward_consumers_first_witness :
  ∃ order,
    backward_order scenario_store 3 = Some order ∧
    backward 3 scenario_store
    = (set_grad 3 (Flt 1) ;; for_each call_backward order) scenario_store ∧
    NoDup order ∧
    (∀ u, u ∈ order ↔ reach scenario_store 3 u) ∧
    after_consumers scenario_store order ∧
    (∀ pre n post s1 s2 r,
       order = pre ++ n :: post →
       (set_grad 3 (Flt 1) ;; for_each call_backward pre) scenario_store
         = (s1, inr tt) →
       for_each call_backward (n :: post) s1 = (s2, r) →
       grad_at s2 n = grad_at s1 n).
Proof.
  apply (backward_consumers_first scenario_store 3); [apply wf_scenario|].
  vm_compute. lia.
Defined.

(** C4, as the code has it. The list [topo] built by the traversal, before
    it is reversed, holds every node reachable from the root exactly once,
    each one strictly after all of its operands and strictly before all of
    its consumers. *)
Theorem topo_operands_first (s : Store) (root : nat) :
  wf s → root < length s →
  ∃ topo, topo_of s root = Some topo ∧ NoDup topo ∧
          (∀ u, u ∈ topo ↔ reach s root u) ∧
          after_operands s topo ∧ before_consumers s topo.
Proof.
  intros Hwf Hroot.
  destruct (topo_of_spec s root Hwf Hroot)
    as (tp & Htp & Hnd & Hord & Hreach & _).
  apply operands_first_after in Hord.
  exists tp. split_and!; try done.
  by apply after_operands_before_consumers.
Qed.

Lemma topo_operands_first_witness :
  ∃ topo, topo_of scenario_store 3 = Some topo ∧ NoDup topo ∧
          (∀ u, u ∈ topo ↔ reach scenario_store 3 u) ∧
          after_operands scenario_store topo ∧
          before_consumers scenario_store topo.
Proof.
  apply (topo_operands_first scenario_store 3); [apply wf_scenario|].
  vm_compute. lia.
Defined.

(** C4, as the specification has it, fails: in [topo] for
    [y = x*x + 3.0] the node [x] stands before its consumer [x*x], and
    [x*x] stands after its operand [x]. *)
Lemma topo_is_not_consumers_first :
  ∃ topo, topo_of scenario_store 3 = Some topo ∧
          ¬ after_consumers scenario_store topo ∧
          ¬ before_operands scenario_store topo.
Proof.
  exists [2; 0; 1; 3]. split; [apply topo_scenario|].
  assert (Hop : operand_of scenario_store 0 1).
  { eexists. split; [reflexivity|]. simpl. set_solver. }
  split; intros H.
  - destruct (H 1 0 1 eq_refl Hop ltac:(set_solver)) as (j & Hj & Hl).
    destruct j as [|j]; [done|lia].
  - destruct (H 2 1 0 eq_refl Hop) as (j & Hj & Hl).
    do 4 (destruct j as [|j]; [done || lia|]). done.
Qed.

(** ** Accumulation *)

(** C2. For a fresh leaf [x], after [y = x*x] and [backward(y)] the
    gradient of [x] is [2 * x.data]: the two contributions are summed. *)
Theorem square_gradient (s : Store) (d : num) :
  ∃ s1 s2 x y,
    square d s = (s1, inr (x, y)) ∧
    grad_at s1 x = Some (Flt 0) ∧
    backward y s1 = (s2, inr tt) ∧
    data_at s2 x = Some d ∧
    grad_at s2 x = Some (num_mul (Flt 2) d).
Proof.
  set (X := mkValue d (Flt 0) ∅ "" RNone "").
  set (Y := mkValue (num_mul d d) (Flt 0) (list_to_set [length s; length s])
                    "*" (RMul (length s) (length s) (S (length s))) "").
  assert (Hsq : square d s = (s ++ [X; Y], inr (length s, S (length s)))).
  { unfold square. unfold bind at 1. unfold __init__ at 1.
    unfold bind at 1.
    rewrite (mul_node_spec _ _ _ X X) by (by rewrite lookup_app_0).
    rewrite length_app, Nat.add_1_r, <- app_assoc. done. }
  assert (Htopo : topo_of (s ++ [X; Y]) (S (length s))
                  = Some [length s; S (length s)]).
  { apply (topo_of_unary _ _ _ X Y); try done.
    - by rewrite lookup_app_0.
    - by rewrite lookup_app_1.
    - simpl. set_solver. }
  eexists _, _, _, _. split; [exact Hsq|]. split.
  { unfold grad_at. by rewrite lookup_app_0. }
  subst X Y. unfold backward. rewrite Htopo. cbn [reverse rev_append for_each].
  run_M. split; [reflexivity|]. unfold data_at, grad_at. step_store.
  split; [done|]. cbn -[num_add num_mul]. by rewrite num_double.
Qed.

(** C9. For a fresh leaf [a] holding the float [x], after [r = a.relu()]
    and [backward(r)] the gradient of [a] is the seed 1.0 when [x > 0] and
    0 otherwise, so also at [x == 0]. *)
Theorem relu_gradient (s : Store) (x : R) :
  ∃ s1 s2 a r,
    relu_of_leaf (Flt x) s = (s1, inr (a, r)) ∧
    data_at s1 a = Some (Flt x) ∧
    grad_at s1 a = Some (Flt 0) ∧
    backward r s1 = (s2, inr tt) ∧
    grad_at s2 r = Some (Flt 1) ∧
    grad_at s2 a = Some (Flt (if Rlt_dec 0 x then 1 else 0)).
Proof.
  set (d := if Rlt_dec 0 x then Flt x else Flt 0).
  set (A := mkValue (Flt x) (Flt 0) ∅ "" RNone "").
  set (Rn := mkValue d (Flt 0) (list_to_set [length s]) "relu"
                     (RRelu (length s) (S (length s))) "").
  assert (Hprog : relu_of_leaf (Flt x) s
                  = (s ++ [A; Rn], inr (length s, S (length s)))).
  { unfold relu_of_leaf. unfold bind at 1. unfold __init__ at 1.
    unfold bind at 1. unfold relu.
    assert ((s ++ [A]) !! length s = Some A) as HA by (by rewrite lookup_app_0).
    rewrite (bind_ok _ _ _ _ _ (get_data_spec _ _ A HA)).
    unfold bind at 1. unfold lift at 1.
    assert (py_max0 (data A) = inr d) as ->.
    { unfold py_max0, d. simpl. by destruct (Rlt_dec 0 x). }
    rewrite (new_node_spec _ _ _ (RRelu (length s))).
    rewrite length_app, Nat.add_1_r, <- app_assoc. done. }
  assert (Htopo : topo_of (s ++ [A; Rn]) (S (length s))
                  = Some [length s; S (length s)]).
  { apply (topo_of_unary _ _ _ A Rn); try done.
    - by rewrite lookup_app_0.
    - by rewrite lookup_app_1.
    - simpl. set_solver. }
  assert (Hgt : py_gt0 (Flt x) = inr (if Rlt_dec 0 x then true else false))
    by done.
  destruct (Rlt_dec 0 x) as [Hpos|Hneg];
    eexists _, _, _, _; (split; [exact Hprog|]);
    unfold data_at, grad_at; rewrite !lookup_app_0;
    (do 2 (split; [done|]));
    subst A Rn; unfold backward; rewrite Htopo; cbn [reverse rev_append];
    run_M; rewrite Hgt; run_M;
    (split; [reflexivity|]); step_store; (split; [done|]);
    cbn; do 2 f_equal; lra.
Qed.

(** C3, as the code has it. Two calls of [backward] on the same root
    with no reset in between: the root is seeded again, so its gradient is
    1.0 after both calls, and a node that was at 0.0 and that only the
    root consumes ends at exactly twice its gradient after the first call.
    Nothing is promised for deeper nodes: their consumers pass on
    gradients that are already accumulated. *)
Theorem backward_twice (s s1 s2 : Store) (root : nat) :
  wf s →
  backward root s = (s1, inr tt) → backward root s1 = (s2, inr tt) →
  grad_at s1 root = Some (Flt 1) ∧ grad_at s2 root = Some (Flt 1) ∧
  ∀ n g1,
    n ≠ root → grad_at s n = Some (Flt 0) →
    (∀ c, reach s root c → operand_of s n c → c = root) →
    grad_at s1 n = Some g1 →
    grad_at s2 n = Some (num_mul (Flt 2) g1).
Proof.
  intros Hwf Hrun1 Hrun2.
  pose proof (backward_same_graph _ _ _ _ Hrun1) as Hg.
  pose proof (same_graph_wf _ _ Hg Hwf) as Hwf1.
  destruct (backward_pass s root s1 Hwf Hrun1)
    as (sa & sb & nr & Hnr & Hrule & Hga & _ & Hra & Hr1 & Hfa & Hfb).
  destruct (backward_pass s1 root s2 Hwf1 Hrun2)
    as (sa' & sb' & nr' & Hnr' & Hrule' & Hga' & _ & Hra' & Hr2 & Hfa' & Hfb').
  split; [done|]. split; [done|].
  intros n g1 Hn Hzero Honly Hg1.
  assert (Hgaa : same_graph sa sa').
  { eapply same_graph_trans; [apply same_graph_sym, Hga|].
    exact (same_graph_trans _ _ _ Hg Hga'). }
  destruct (same_graph_lookup _ _ _ _ Hgaa Hnr)
    as (nr2 & Hnr2 & _ & _ & _ & Hb & _).
  rewrite Hnr' in Hnr2. injection Hnr2 as <-. rewrite Hb in Hrule'.
  pose proof (same_graph_wf _ _ Hga Hwf root nr Hnr) as (Hlt & Htg & Hout).
  destruct (run_rule_lockstep (_backward nr) sa sa' sb sb') with (n := n)
    as [ds Hds]; try done.
  { intros o Ho. apply Hout in Ho as ->. split; [|congruence].
    intros Hin. specialize (Hlt root (Htg root Hin)). lia. }
  destruct (Hds (Flt 0) g1) as [Hsb Hsb'].
  { unfold grad_at in *. by rewrite Hfa. }
  { unfold grad_at in *. by rewrite Hfa'. }
  assert (g1 = foldl num_add (Flt 0) ds) as Hsum.
  { unfold grad_at in *. rewrite (Hfb n Hn Honly), Hsb in Hg1. congruence. }
  unfold grad_at in *. rewrite Hfb'; [|done|].
  - rewrite Hsb'. f_equal.
    by rewrite foldl_num_add, <- Hsum, num_add_diag.
  - intros c Hc Hop. apply Honly.
    + exact (same_graph_reach _ _ _ _ Hg Hc).
    + exact (same_graph_operand _ _ _ _ Hg Hop).
Qed.

Lemma backward_twice_witness :
  grad_at chain_once 4 = Some (Flt 1) ∧
  grad_at chain_twice 4 = Some (Flt 1) ∧
  grad_at chain_twice 2 = Some (num_mul (Flt 2) (Flt 3)).
Proof.
  destruct (backward_twice chain_store chain_once chain_twice 4
              wf_chain chain_once_run chain_twice_run) as (H1 & H2 & H3).
  split; [exact H1|]. split; [exact H2|]. apply H3.
  - lia.
  - reflexivity.
  - intros c _ (n & Hn & Hc). rewrite chain_store_eq in Hn.
    do 5 (destruct c as [|c]; [injection Hn as <-; simpl in Hc; set_solver|]).
    done.
  - apply chain_once_grad.
Defined.

(** C3, as the specification has it, fails: for
    [x = Value(3.0); a = x * 2.0; y = a * 3.0] the gradient of [x] is 6
    after one [y.backward()] and 18, not 12, after a second one, and the
    gradient of the root [y] is 1 after both. *)
Lemma backward_twice_not_double :
  ∃ s1 s2,
    backward 4 chain_store = (s1, inr tt) ∧
    backward 4 s1 = (s2, inr tt) ∧
    grad_at s1 0 = Some (Flt 6) ∧ grad_at s2 0 = Some (Flt 18) ∧
    Flt 18 ≠ num_mul (Flt 2) (Flt 6) ∧
    grad_at s1 4 = Some (Flt 1) ∧ grad_at s2 4 = Some (Flt 1) ∧
    Flt 1 ≠ num_mul (Flt 2) (Flt 1).
Proof.
  destruct chain_runs as (s1 & s2 & H1 & H2 & Hr1 & Hr2 & _ & _ & Hx1 & Hx2).
  exists s1, s2. split_and!; try done; simpl; intros [=]; lra.
Qed.

(** ** Errors *)

(** C5. Dividing a node [a], or a raw number [c] through the reflected
    method, by a node [b] whose value is zero raises at the operation
    (Python's [ZeroDivisionError]) and leaves the store as it was: no node
    is created. *)
Theorem division_by_zero_raises (s : Store) (a : nat) (c : num)
    (b : nat) (nb : Value) :
  s !! b = Some nb → num_is_zero (data nb) →
  py_truediv (OValue a) (OValue b) s = (s, inl ZeroDivisionError) ∧
  py_truediv (ORaw c) (OValue b) s = (s, inl ZeroDivisionError).
Proof.
  intros Hb Hz.
  pose proof (pow_raises s b nb (-1) _ Hb (py_pow_zero_inverse _ Hz))
    as Hpow.
  split.
  - unfold py_truediv, __truediv__, py_inverse.
    unfold bind. by rewrite Hpow.
  - unfold py_truediv, __rtruediv__. by rewrite (bind_raise _ _ _ _ _ Hpow).
Qed.

Lemma division_by_zero_raises_witness :
  py_truediv (OValue 0) (OValue 1) one_and_zero
    = (one_and_zero, inl ZeroDivisionError) ∧
  py_truediv (ORaw (Flt 2)) (OValue 1) one_and_zero
    = (one_and_zero, inl ZeroDivisionError).
Proof.
  apply (division_by_zero_raises one_and_zero 0 (Flt 2) 1 _ eq_refl).
  split; reflexivity.
Defined.

(** C6, as the code has it. [self ** p] for a node holding a negative
    float [x] and a non-integer exponent [p] raises no domain error:
    Python's [**] goes over to the complex numbers.  When the modulus
    [|x|^p] of the result is in the range of a float, a new node holding
    the complex number of that modulus and of argument [π p] is created;
    when it is not, Python raises [OverflowError] and no node is
    created. *)
Theorem pow_negative_fractional_is_complex (s : Store) (self : nat)
    (n : Value) (x p : R) :
  s !! self = Some n → data n = Flt x → (x < 0)%R → ¬ is_integral p →
  __pow__ self p s
  = if overflows_dec (Rpower (- x) p) then (s, inl OverflowError)
    else (s ++ [mkValue (Cplx (Rpower (- x) p * cos (PI * p))
                              (Rpower (- x) p * sin (PI * p)))
                        (Flt 0) {[self]} "pow"
                        (RPow self p (length s)) ""],
          inr (length s)).
Proof.
  intros Hn Hd Hx Hp. unfold __pow__.
  rewrite (bind_ok _ _ _ _ _ (get_data_spec _ _ _ Hn)).
  rewrite Hd. simpl py_pow. rewrite (float_pow_negative_fractional x p Hx Hp).
  destruct (overflows_dec (Rpower (- x) p)); [done|].
  unfold bind at 1. unfold lift at 1.
  rewrite (new_node_spec _ _ _ (RPow self p)).
  by rewrite list_to_set_singleton_L.
Qed.

Lemma pow_negative_fractional_is_complex_witness :
  __pow__ 0 (1 / 2) minus_one
  = if overflows_dec (Rpower (- -1) (1 / 2))
    then (minus_one, inl OverflowError)
    else (minus_one ++
            [mkValue (Cplx (Rpower (- -1) (1 / 2) * cos (PI * (1 / 2)))
                           (Rpower (- -1) (1 / 2) * sin (PI * (1 / 2))))
                     (Flt 0) {[0]} "pow"
                     (RPow 0 (1 / 2) (length minus_one)) ""],
          inr (length minus_one)).
Proof.
  apply (pow_negative_fractional_is_complex minus_one 0 _ (-1) (1 / 2)
           eq_refl eq_refl); [lra|apply half_not_integral].
Defined.

Lemma square_root_of_minus_one_in_range :
  ¬ overflows (Rpower (- -1) (1 / 2)).
Proof.
  replace (- -1)%R with 1%R by lra. rewrite Rpower_base_1.
  apply not_overflows_unit. lra.
Qed.

(** C6, as the specification has it, fails: [Value(-1.0) ** 0.5] raises
    nothing and returns a new node. *)
Lemma pow_negative_fractional_does_not_raise :
  (-1 < 0)%R ∧ ¬ is_integral (1 / 2) ∧
  data_at minus_one 0 = Some (Flt (-1)) ∧
  (∀ e s', __pow__ 0 (1 / 2) minus_one ≠ (s', inl e)) ∧
  ∃ s' out d, __pow__ 0 (1 / 2) minus_one = (s', inr out) ∧
              data_at s' out = Some d ∧ is_complex d.
Proof.
  assert (Hx : (-1 < 0)%R) by lra.
  pose proof (float_pow_negative_fractional (-1) (1 / 2) Hx half_not_integral)
    as Hpow.
  destruct (overflows_dec (Rpower (- -1) (1 / 2))) as [Ho|_];
    [by destruct square_root_of_minus_one_in_range|].
  assert (Heq : ∃ d, is_complex d ∧
            __pow__ 0 (1 / 2) minus_one
            = (minus_one ++ [mkValue d (Flt 0) (list_to_set [0]) "pow"
                                     (RPow 0 (1 / 2) 1) ""], inr 1)).
  { eexists. split; [|unfold __pow__;
      erewrite bind_ok by (by apply get_data_spec);
      cbn [data minus_one py_pow]; rewrite Hpow; unfold bind at 1, lift at 1;
      apply (new_node_spec _ _ _ (RPow 0 (1 / 2)))]. done. }
  destruct Heq as (d & Hd & Heq).
  split_and!; [lra|apply half_not_integral|done| |].
  - intros e s'. by rewrite Heq.
  - eexists _, _, d. split; [exact Heq|]. split; [reflexivity|done].
Qed.

(** C7, the failing half. A raw number minus a node, [c - a], raises
    [TypeError]: the class has no [__rsub__]. *)
Theorem raw_minus_node_raises (s : Store) (c : num) (a : nat) :
  py_sub (ORaw c) (OValue a) s = (s, inl TypeError).
Proof. reflexivity. Qed.

(** ** The operands of a node *)

Lemma readonly_run {A} (m : M A) s s1 r :
  readonly m → m s = (s1, r) → s1 = s.
Proof. intros Hro Hrun. specialize (Hro s). by rewrite Hrun in Hro. Qed.

Lemma new_node_prev d cs op (ρ : nat → rule) s s' out :
  (let* out := __init__ d cs op "" in
   set_backward out (ρ out) ;; ret out) s = (s', inr out) →
  s' = s ++ [mkValue d (Flt 0) (list_to_set cs) op (ρ (length s)) ""] ∧
  out = length s ∧ prev_at s' out = Some (list_to_set cs).
Proof.
  rewrite new_node_spec. intros [= <- <-]. split_and!; [done..|].
  unfold prev_at. by rewrite lookup_app_0.
Qed.

Ltac read_step H :=
  let H1 := fresh "Hread" in
  apply bind_inv_ok in H as (? & ? & H1 & H);
  apply readonly_run in H1 as ->; [|auto with ro].

Lemma size_pair (a b : nat) :
  size ({[a; b]} : gset nat) = if decide (a = b) then 1 else 2.
Proof.
  case_decide as Hab.
  - subst b. replace ({[a; a]} : gset nat) with ({[a]} : gset nat)
      by set_solver.
    apply size_singleton.
  - rewrite size_union by set_solver. by rewrite !size_singleton.
Qed.

(** C8, as the code has it. The operands field of the node that an
    operation builds is the set of the distinct nodes the operation
    consumed, with no order and no multiplicity.  It is empty for a leaf.
    A binary operation on the nodes [a] and [b] records [{a, b}], two
    entries for two different operands and a single entry when both
    positions hold the same node; with a raw number on the right, the
    number is made a leaf first and that leaf is the second operand.  A
    unary operation on [a], when it returns a node, records [{a}].  Every
    other operator of the class is a composition of these. *)
Theorem operands_are_a_set (s : Store) (a b : nat) (na nb : Value)
    (x : num) (p : R) :
  s !! a = Some na → s !! b = Some nb →
  prev_at (__init__ x [] "" "" s).1 (length s) = Some ∅ ∧
  (∃ s', __add__ a (OValue b) s = (s', inr (length s)) ∧
         prev_at s' (length s) = Some {[a; b]}) ∧
  (∃ s', __mul__ a (OValue b) s = (s', inr (length s)) ∧
         prev_at s' (length s) = Some {[a; b]}) ∧
  size ({[a; b]} : gset nat) = (if decide (a = b) then 1 else 2) ∧
  (∃ s', __add__ a (ORaw x) s = (s', inr (S (length s))) ∧
         prev_at s' (length s) = Some ∅ ∧
         prev_at s' (S (length s)) = Some {[a; length s]}) ∧
  (∃ s', __mul__ a (ORaw x) s = (s', inr (S (length s))) ∧
         prev_at s' (length s) = Some ∅ ∧
         prev_at s' (S (length s)) = Some {[a; length s]}) ∧
  (∀ s' out, __pow__ a p s = (s', inr out) → prev_at s' out = Some {[a]}) ∧
  (∀ s' out, Value_exp a s = (s', inr out) → prev_at s' out = Some {[a]}) ∧
  (∀ s' out, Value_tanh a s = (s', inr out) → prev_at s' out = Some {[a]}) ∧
  (∀ s' out, relu a s = (s', inr out) → prev_at s' out = Some {[a]}).
Proof.
  intros Ha Hb.
  assert (Hraw : ∀ (l : Value),
            (s ++ [l]) !! a = Some na ∧ (s ++ [l]) !! length s = Some l).
  { intros l. split; [|by rewrite lookup_app_0].
    apply lookup_app_l_Some, Ha. }
  split_and!.
  - unfold __init__, prev_at. cbn [fst]. by rewrite lookup_app_0.
  - eexists. rewrite (add_node_spec _ _ _ _ _ Ha Hb). split; [done|].
    unfold prev_at. rewrite lookup_app_0. cbn. f_equal. set_solver.
  - eexists. rewrite (mul_node_spec _ _ _ _ _ Ha Hb). split; [done|].
    unfold prev_at. rewrite lookup_app_0. cbn. f_equal. set_solver.
  - apply size_pair.
  - eexists. unfold __add__, promote. unfold bind at 1, __init__ at 1.
    destruct (Hraw (mkValue x (Flt 0) (list_to_set []) "" RNone ""))
      as [Ha' Hl].
    rewrite (bind_ok _ _ _ _ _ (get_data_spec _ _ _ Ha')).
    rewrite (bind_ok _ _ _ _ _ (get_data_spec _ _ _ Hl)).
    rewrite (new_node_spec _ _ _ (RAdd a (length s))).
    rewrite length_app, Nat.add_1_r. split; [done|]. unfold prev_at.
    rewrite <- app_assoc, lookup_app_0, lookup_app_1.
    cbn. split; f_equal; set_solver.
  - eexists. unfold __mul__, promote. unfold bind at 1, __init__ at 1.
    destruct (Hraw (mkValue x (Flt 0) (list_to_set []) "" RNone ""))
      as [Ha' Hl].
    rewrite (bind_ok _ _ _ _ _ (get_data_spec _ _ _ Ha')).
    rewrite (bind_ok _ _ _ _ _ (get_data_spec _ _ _ Hl)).
    rewrite (new_node_spec _ _ _ (RMul a (length s))).
    rewrite length_app, Nat.add_1_r. split; [done|]. unfold prev_at.
    rewrite <- app_assoc, lookup_app_0, lookup_app_1.
    cbn. split; f_equal; set_solver.
  - intros s' out Hrun. unfold __pow__ in Hrun. do 2 read_step Hrun.
    apply new_node_prev in Hrun as (_ & _ & ->). f_equal. set_solver.
  - intros s' out Hrun. unfold Value_exp in Hrun. do 2 read_step Hrun.
    apply new_node_prev in Hrun as (_ & _ & ->). f_equal. set_solver.
  - intros s' out Hrun. unfold Value_tanh in Hrun. do 4 read_step Hrun.
    apply new_node_prev in Hrun as (_ & _ & ->). f_equal. set_solver.
  - intros s' out Hrun. unfold relu in Hrun. do 2 read_step Hrun.
    apply new_node_prev in Hrun as (_ & _ & ->). f_equal. set_solver.
Qed.

Lemma operands_are_a_set_witness :
  prev_at (__init__ (Flt 5) [] "" "" scenario_store).1
          (length scenario_store) = Some ∅ ∧
  (∃ s', __add__ 0 (OValue 1) scenario_store
           = (s', inr (length scenario_store)) ∧
         prev_at s' (length scenario_store) = Some {[0; 1]}) ∧
  (∃ s', __mul__ 0 (OValue 1) scenario_store
           = (s', inr (length scenario_store)) ∧
         prev_at s' (length scenario_store) = Some {[0; 1]}) ∧
  size ({[0; 1]} : gset nat) = (if decide (0 = 1) then 1 else 2) ∧
  (∃ s', __add__ 0 (ORaw (Flt 5)) scenario_store
           = (s', inr (S (length scenario_store))) ∧
         prev_at s' (length scenario_store) = Some ∅ ∧
         prev_at s' (S (length scenario_store))
           = Some {[0; length scenario_store]}) ∧
  (∃ s', __mul__ 0 (ORaw (Flt 5)) scenario_store
           = (s', inr (S (length scenario_store))) ∧
         prev_at s' (length scenario_store) = Some ∅ ∧
         prev_at s' (S (length scenario_store))
           = Some {[0; length scenario_store]}) ∧
  (∀ s' out, __pow__ 0 2 scenario_store = (s', inr out) →
             prev_at s' out = Some {[0]}) ∧
  (∀ s' out, Value_exp 0 scenario_store = (s', inr out) →
             prev_at s' out = Some {[0]}) ∧
  (∀ s' out, Value_tanh 0 scenario_store = (s', inr out) →
             prev_at s' out = Some {[0]}) ∧
  (∀ s' out, relu 0 scenario_store = (s', inr out) →
             prev_at s' out = Some {[0]}).
Proof.
  apply (operands_are_a_set scenario_store 0 1 _ _ (Flt 5) 2
           eq_refl eq_refl).
Defined.

(** C8, as the specification has it, fails: the node [x*x] records one
    operand entry, not one per operand position. *)
Lemma square_records_one_operand :
  ∃ s x y n,
    square (Flt 3) [] = (s, inr (x, y)) ∧ s !! y = Some n ∧
    _op n = "*" ∧ _backward n = RMul x x y ∧
    _prev n = {[x]} ∧ size (_prev n) = 1 ∧ size (_prev n) ≠ 2.
Proof.
  exists [mkValue (Flt 3) (Flt 0) ∅ "" RNone "";
          mkValue (Flt (3 * 3)) (Flt 0) {[0]} "*" (RMul 0 0 1) ""], 0, 1.
  eexists. split.
  - unfold square. unfold bind at 1. unfold __init__ at 1.
    unfold bind at 1. erewrite mul_node_spec by reflexivity. simpl.
    replace (list_to_set [0; 0] : gset nat) with ({[0]} : gset nat)
      by set_solver.
    done.
  - split; [reflexivity|]. cbn [_op _backward _prev].
    rewrite size_singleton. done.
Qed.

(** ** What the backward pass writes *)

(** C10. Whether it returns or raises, [backward(root)] changes gradient
    fields only: every node keeps its data, operands, operation tag, rule
    and label, and a node that is not reachable from the root keeps its
    gradient as well. *)
Theorem backward_writes_gradients_only (s : Store) (root : nat)
    (s' : Store) (r : result unit) :
  wf s → backward root s = (s', r) →
  same_graph s s' ∧ ∀ i, ¬ reach s root i → grad_at s' i = grad_at s i.
Proof.
  intros Hwf Hrun. unfold backward in Hrun.
  destruct (topo_of s root) as [tp|] eqn:Htp.
  2: { injection Hrun as <- <-. split; [apply same_graph_refl|done]. }
  apply bind_inv in Hrun as [(e & Hseed & _)|(s0 & [] & Hseed & Hrun)].
  { apply set_grad_spec in Hseed as (Hg & Hf & _). split; [done|].
    intros i Hi. unfold grad_at. rewrite Hf; [done|].
    intros ->. apply Hi. apply rtc_refl. }
  assert (Hroot : root < length s).
  { unfold set_grad in Hseed. destruct (s !! root) eqn:Hr; [|done].
    eapply lookup_lt_Some, Hr. }
  apply set_grad_spec in Hseed as (Hg0 & Hf0 & _).
  apply for_each_frame in Hrun as (Hg1 & Hf1).
  split; [by eapply same_graph_trans|].
  intros i Hi. unfold grad_at. rewrite Hf1, Hf0; [done| |].
  - intros ->. apply Hi. apply rtc_refl.
  - intros node v Hnode Hv Ht. apply Hi.
    destruct (topo_of_spec s root Hwf Hroot) as (tp' & Htp' & _ & _ & Hreach & _).
    rewrite Htp in Htp'. injection Htp' as <-.
    rewrite elem_of_reverse in Hnode. apply Hreach in Hnode.
    eapply reach_operand; [exact Hnode|].
    eapply same_graph_operand; [exact Hg0|].
    eapply wf_target_operand; [|exact Hv|exact Ht].
    by eapply same_graph_wf.
Qed.

Lemma backward_writes_gradients_only_witness :
  same_graph scenario_store (backward 1 scenario_store).1 ∧
  ∀ i, ¬ reach scenario_store 1 i →
       grad_at (backward 1 scenario_store).1 i = grad_at scenario_store i.
Proof.
  apply (backward_writes_gradients_only scenario_store 1 _
           (backward 1 scenario_store).2); [apply wf_scenario|].
  by destruct (backward 1 scenario_store).
Defined.

(** * Further properties of the engine *)

(** ** What a backward pass computes *)

Lemma run_rule_updates ρ s : run_rule ρ s = run_updates (rule_updates ρ) s.
Proof.
  destruct ρ; cbn [run_rule rule_updates run_updates fst snd]; try done.
  all: unfold bind, ret;
       repeat match goal with
              | |- context [iadd_grad ?t ?r ?x] =>
                  destruct (iadd_grad t r x) as [? [?|[]]]
              end; done.
Qed.

Lemma rule_updates_stable ρ o u :
  rule_out ρ = Some o → u ∈ rule_updates ρ → stable o u.2.
Proof.
  intros Ho Hu. destruct ρ; cbn [rule_out rule_updates] in *;
    try done; injection Ho as ->;
    repeat (apply elem_of_cons in Hu as [->|Hu]); try (by apply elem_of_nil in Hu);
    cbn [snd]; auto 10 with stb.
Qed.

Lemma rule_updates_targets ρ u :
  u ∈ rule_updates ρ → u.1 ∈ rule_targets ρ.
Proof.
  intros Hu. destruct ρ; cbn [rule_targets rule_updates] in *;
    repeat (apply elem_of_cons in Hu as [->|Hu]); try (by apply elem_of_nil in Hu);
    cbn [fst]; set_solver.
Qed.

Lemma contributions_of_cons s u us n :
  contributions_of s (u :: us) n
  = (if decide (u.1 = n)
     then match (u.2 s).2 with inr δ => [δ] | inl _ => [] end
     else []) ++ contributions_of s us n.
Proof. done. Qed.

Lemma contributions_of_stable o us a a' n :
  (∀ u, u ∈ us → stable o u.2) →
  same_graph a a' → grad_at a o = grad_at a' o →
  contributions_of a us n = contributions_of a' us n.
Proof.
  intros Hst Hg Ho. unfold contributions_of.
  induction us as [|[t rhs] us IH]; [done|]. cbn [flat_map fst snd].
  rewrite IH by (intros; apply Hst; set_solver).
  case_decide; [|done].
  destruct (Hst (t, rhs) ltac:(set_solver)) as [_ Hu]. cbn [snd] in Hu.
  pose proof (Hu a a' Hg Ho) as E. cbv [M result] in *. by rewrite E.
Qed.

(** Running statements whose right-hand sides read the gradient of [o]
    only, and none of which writes it: the gradient of every node grows by
    the contributions computed in the store before the run. *)
Lemma run_updates_spec o us :
  (∀ u, u ∈ us → stable o u.2 ∧ u.1 ≠ o) →
  ∀ a b, run_updates us a = (b, inr tt) →
    same_graph a b ∧ grad_at b o = grad_at a o ∧
    ∀ n g, grad_at a n = Some g →
           grad_at b n = Some (foldl num_add g (contributions_of a us n)).
Proof.
  induction us as [|u us IH]; intros Hus a b Hrun.
  - injection Hrun as <-. split_and!; [apply same_graph_refl|done|done].
  - cbn [run_updates] in Hrun.
    apply bind_inv_ok in Hrun as (a1 & [] & Hu & Hrest).
    destruct (Hus u ltac:(set_solver)) as [[Hro Hst] Hne].
    destruct (IH (λ u' Hu', Hus u' ltac:(set_solver)) a1 b Hrest)
      as (Hg1 & Ho1 & Hn1).
    (* the first statement *)
    unfold iadd_grad in Hu.
    apply bind_inv_ok in Hu as (a0 & g0 & Hg0 & Hu).
    pose proof (readonly_get_grad u.1 a) as E. rewrite Hg0 in E.
    simpl in E. subst a0.
    apply bind_inv_ok in Hu as (a0 & δ & Hδ & Hu).
    pose proof (Hro a) as E. rewrite Hδ in E. simpl in E. subst a0.
    apply set_grad_spec in Hu as (Hga & Hfa & Hva & _).
    specialize (Hva eq_refl).
    assert (Hoa : grad_at a1 o = grad_at a o).
    { unfold grad_at. by rewrite Hfa. }
    split_and!.
    + by eapply same_graph_trans.
    + congruence.
    + intros n g Hn. rewrite contributions_of_cons, foldl_app.
      rewrite (contributions_of_stable o us a a1 n) by
        (try done; intros u' Hu'; apply Hus; set_solver).
      apply Hn1.
      case_decide as Hd.
      * subst n. cbv [M result] in *. rewrite Hδ. cbn [snd foldl].
        assert (g0 = g) as ->.
        { unfold get_grad, bind, deref, ret in Hg0. unfold grad_at in Hn.
          destruct (a !! u.1); simpl in *; congruence. }
        done.
      * cbn [foldl]. unfold grad_at in *. by rewrite Hfa.
Qed.

Lemma rule_at_same_graph s s' c : same_graph s s' → rule_at s' c = rule_at s c.
Proof.
  intros Hg. unfold rule_at. destruct (s !! c) as [n|] eqn:Hn.
  - destruct (same_graph_lookup _ _ _ _ Hg Hn) as (n' & -> & _ & _ & _ & Hb & _).
    done.
  - apply lookup_ge_None in Hn. destruct Hg as [Hl _]. rewrite Hl in Hn.
    apply lookup_ge_None in Hn. by rewrite Hn.
Qed.

(** The rules of a suffix [post] of the order, run from the store [a]
    reached after the prefix [pre]: every gradient grows by the
    contributions of the nodes of [post], which can be read in the final
    store because a gradient is final once its rule has run. *)
Lemma for_each_contributions s order :
  wf s → NoDup order → after_consumers s order →
  ∀ post pre a s',
    order = pre ++ post → same_graph s a →
    for_each call_backward post a = (s', inr tt) →
    ∀ n g, grad_at a n = Some g →
      grad_at s' n
      = Some (foldl num_add g (flat_map (λ c, contributions s' c n) post)).
Proof.
  intros Hwf Hnd Hord. induction post as [|c rest IH];
    intros pre a s' Hsplit Hg Hrun n g Hn.
  - injection Hrun as <-. done.
  - pose proof Hrun as Hall. cbn [for_each] in Hrun.
    apply bind_inv_ok in Hrun as (a1 & [] & Hc & Hrest).
    pose proof (call_backward_frame _ _ _ _ Hc) as [Hg1 _].
    assert (Hga1 : same_graph s a1) by (by eapply same_graph_trans).
    pose proof (for_each_frame _ _ _ _ Hrest) as [Hg2 _].
    cbn [flat_map]. rewrite foldl_app.
    eapply (IH (pre ++ [c])); [by rewrite <- app_assoc|done|done|].
    (* the rule of [c] *)
    unfold call_backward in Hc.
    apply bind_inv_ok in Hc as (a0 & v0 & Hd & Hrule).
    unfold deref in Hd. destruct (a !! c) as [v|] eqn:Hnc; [|done].
    injection Hd as <- <-. rewrite run_rule_updates in Hrule.
    pose proof (same_graph_wf _ _ Hg Hwf c v Hnc) as (Hlt & Htg & Hout).
    assert (Hrc : rule_at s' c = _backward v).
    { rewrite (rule_at_same_graph a s') by (by eapply same_graph_trans).
      unfold rule_at. by rewrite Hnc. }
    unfold contributions. rewrite Hrc.
    destruct (rule_out (_backward v)) as [o|] eqn:Ho.
    + pose proof (Hout o eq_refl) as ->.
      destruct (run_updates_spec c (rule_updates (_backward v))) with (a := a) (b := a1)
        as (_ & _ & Hsum); [|done|].
      { intros u Hu. split; [by eapply rule_updates_stable|].
        intros Heq. apply rule_updates_targets in Hu. rewrite Heq in Hu.
        specialize (Hlt c (Htg c Hu)). lia. }
      rewrite (contributions_of_stable c _ s' a n).
      * by apply Hsum.
      * intros u Hu. by eapply rule_updates_stable.
      * apply same_graph_sym. by eapply same_graph_trans.
      * unfold grad_at. f_equal.
        eapply (gradient_final s (pre ++ c :: rest) pre c rest a s');
          try done; by rewrite <- Hsplit.
    + destruct (_backward v); try done.
      cbn [rule_updates run_updates contributions_of flat_map foldl] in *.
      injection Hrule as <-. done.
Qed.

Lemma contributions_of_target s us n :
  contributions_of s us n ≠ [] → ∃ u, u ∈ us ∧ u.1 = n.
Proof.
  induction us as [|u us IH]; [done|]. rewrite contributions_of_cons.
  case_decide as Hd.
  - intros _. exists u. split; [set_solver|done].
  - intros Hne. destruct (IH Hne) as (u' & Hu' & Hn).
    exists u'. split; [set_solver|done].
Qed.

Lemma contributions_operand s c n :
  wf s → contributions s c n ≠ [] → operand_of s n c.
Proof.
  intros Hwf Hne. unfold contributions, rule_at in Hne.
  destruct (s !! c) as [v|] eqn:Hv; [|done]. cbn [from_option] in Hne.
  exists v. split; [done|]. apply (Hwf c v Hv).
  apply contributions_of_target in Hne as (u & Hu & <-).
  by apply rule_updates_targets.
Qed.

(** X1. A backward pass that returns adds to the gradient of every node
    other than the root, in the order in which the rules ran, one
    contribution per operand position of each reachable consumer, each
    computed from the consumer's final gradient and the stored data; only
    consumers of the node contribute. *)
Theorem backward_accumulates (s s' : Store) (root : nat) :
  wf s → backward root s = (s', inr tt) →
  ∃ order,
    backward_order s root = Some order ∧
    (∀ c, c ∈ order ↔ reach s root c) ∧
    ∀ n g, n ≠ root → grad_at s n = Some g →
      grad_at s' n
      = Some (foldl num_add g (flat_map (λ c, contributions s' c n) order)) ∧
      ∀ c, contributions s' c n ≠ [] → operand_of s n c.
Proof.
  intros Hwf Hrun.
  assert (Hroot : root < length s).
  { unfold backward in Hrun. destruct (topo_of s root); [|done].
    apply bind_inv_ok in Hrun as (? & [] & Hseed & _).
    unfold set_grad in Hseed. destruct (s !! root) eqn:Hr; [|done].
    eapply lookup_lt_Some, Hr. }
  destruct (backward_order_spec s root Hwf Hroot)
    as (order & Horder & Hnd & Hreach & Hcons & _ & _).
  exists order. split; [done|]. split; [done|]. intros n g Hn Hg.
  pose proof (backward_same_graph _ _ _ _ Hrun) as Hsame.
  rewrite (backward_unfold _ _ _ Horder) in Hrun.
  apply bind_inv_ok in Hrun as (sa & [] & Hseed & Hrun).
  apply set_grad_spec in Hseed as (Hga & Hfa & _).
  split.
  - eapply (for_each_contributions s order Hwf Hnd Hcons order [] sa s');
      try done.
    unfold grad_at in *. by rewrite Hfa.
  - intros c Hc. eapply same_graph_operand; [exact Hsame|].
    apply contributions_operand; [|done]. by eapply same_graph_wf.
Qed.

Lemma backward_accumulates_witness :
  ∃ order,
    backward_order chain_store 4 = Some order ∧
    (∀ c, c ∈ order ↔ reach chain_store 4 c) ∧
    ∀ n g, n ≠ 4 → grad_at chain_store n = Some g →
      grad_at chain_once n
      = Some (foldl num_add g
                (flat_map (λ c, contributions chain_once c n) order)) ∧
      ∀ c, contributions chain_once c n ≠ [] → operand_of chain_store n c.
Proof.
  apply (backward_accumulates chain_store chain_once 4 wf_chain
           chain_once_run).
Defined.

(** ** The traversal on a graph that may have cycles *)

Lemma for_children_any s visit fuel children :
  (∀ c vis tp, c ∉ vis → unvisited s vis < fuel →
     visit_any (prev_of s) [c] vis tp (visit c (vis, tp))) →
  ∀ vis tp, unvisited s vis < fuel →
    visit_any (prev_of s) children vis tp
      (for_children visit children (vis, tp)).
Proof.
  intros Hvisit. induction children as [|c rest IH]; intros vis tp Hfuel.
  - exists vis, []. rewrite app_nil_r.
    split; [done|]. split; [set_solver|]. split; [set_solver|].
    split; [constructor|]. split; set_solver.
  - simpl. case_decide as Hc.
    + destruct (IH vis tp Hfuel) as (vis' & new & -> & Hv & Hn & Hnd & Hcl & Hin).
      exists vis', new. split_and!; try done.
      * intros u Hu. destruct (Hn u Hu) as (? & f & Hf & Hr).
        split; [done|]. exists f. split; [set_solver|done].
      * intros f [-> |Hf]%elem_of_cons; [apply Hv; auto|by apply Hin].
    + destruct (Hvisit c vis tp Hc Hfuel)
        as (vis1 & new1 & -> & Hv1 & Hn1 & Hnd1 & Hcl1 & Hin1).
      assert (Hsub : vis ⊆ vis1) by (intros u Hu; apply Hv1; auto).
      destruct (IH vis1 (tp ++ new1))
        as (vis2 & new2 & -> & Hv2 & Hn2 & Hnd2 & Hcl2 & Hin2).
      { pose proof (unvisited_mono s _ _ Hsub). lia. }
      exists vis2, (new1 ++ new2). rewrite app_assoc. split_and!; try done.
      * intros u. rewrite Hv2, Hv1, elem_of_app. tauto.
      * intros u [Hu|Hu]%elem_of_app.
        -- destruct (Hn1 u Hu) as (? & f & ->%list_elem_of_singleton & Hr).
           split; [done|]. exists c. split; [set_solver|done].
        -- destruct (Hn2 u Hu) as (Hnv & f & Hf & Hr). split.
           ++ intros Hu'. apply Hnv, Hv1. auto.
           ++ exists f. split; [set_solver|done].
      * apply NoDup_app. split_and!; try done.
        intros u Hu Hu'. destruct (Hn2 u Hu') as (Hnv & _).
        apply Hnv, Hv1. auto.
      * intros u k [Hu|Hu]%elem_of_app Hk.
        -- apply Hv2. left. by eapply Hcl1.
        -- by eapply Hcl2.
      * intros f [-> |Hf]%elem_of_cons; [|by apply Hin2].
        apply Hv2. left. apply Hin1. set_solver.
Qed.

Lemma build_topo_any s fuel :
  ∀ v vis tp, v ∉ vis → unvisited s vis < fuel →
    visit_any (prev_of s) [v] vis tp
      (build_topo (prev_of s) fuel v (vis, tp)).
Proof.
  induction fuel as [|fuel IH]; intros v vis tp Hv Hfuel; [lia|].
  simpl. rewrite decide_False by done.
  assert (Hkids : prev_of s v = [] ∨ unvisited s ({[v]} ∪ vis) < fuel).
  { destruct (decide (v < length s)) as [Hvalid|Hstale].
    - right. pose proof (unvisited_visit s vis v Hvalid Hv). lia.
    - left. unfold prev_of. by rewrite (proj2 (lookup_ge_None s v)) by lia. }
  assert (visit_any (prev_of s) (prev_of s v) ({[v]} ∪ vis) tp
            (for_children (build_topo (prev_of s) fuel) (prev_of s v)
               ({[v]} ∪ vis, tp)))
    as (vis' & new & -> & Hv' & Hn & Hnd & Hcl & Hin).
  { destruct Hkids as [->|Hlt].
    - exists ({[v]} ∪ vis), []. rewrite app_nil_r.
      split; [done|]. split; [set_solver|]. split; [set_solver|].
    split; [constructor|]. split; set_solver.
    - by apply (for_children_any s _ fuel). }
  exists vis', (new ++ [v]). cbn [fst snd]. rewrite app_assoc.
  split_and!; try done.
  - intros u. rewrite Hv', elem_of_app, list_elem_of_singleton. set_solver.
  - intros u [Hu| ->%list_elem_of_singleton]%elem_of_app.
    + destruct (Hn u Hu) as (Hnv & f & Hf & Hr). split; [set_solver|].
      exists v. split; [set_solver|]. eapply rtc_l; [exact Hf|exact Hr].
    + split; [done|]. exists v. split; [set_solver|apply rtc_refl].
  - apply NoDup_app. split_and!; [done| |apply NoDup_singleton].
    intros u Hu ->%list_elem_of_singleton.
    destruct (Hn v Hu) as (Hnv & _). set_solver.
  - intros u c [Hu| ->%list_elem_of_singleton]%elem_of_app Hc.
    + by eapply Hcl.
    + by apply Hin.
  - intros f ->%list_elem_of_singleton. apply Hv'. set_solver.
Qed.

(** X2. On every store, also one whose operand relation has cycles or
    dangling references, the traversal of [backward] returns, and [topo]
    holds exactly the nodes reachable from the root, each once, the root
    last. *)
Theorem traversal_on_any_graph (s : Store) (root : nat) :
  ∃ topo,
    topo_of s root = Some topo ∧ NoDup topo ∧
    (∀ u, u ∈ topo ↔ reach s root u) ∧
    last topo = Some root.
Proof.
  destruct (build_topo_any s (S (length s)) root ∅ [])
    as (vis & new & Heq & Hv & Hn & Hnd & Hcl & Hin).
  { set_solver. }
  { unfold unvisited. rewrite difference_empty_L, size_set_seq. lia. }
  exists new. unfold topo_of. rewrite Heq. cbn [snd app].
  split; [done|]. split; [done|]. split.
  - intros u. split.
    + intros Hu. destruct (Hn u Hu) as (_ & f & ->%list_elem_of_singleton & Hr).
      by apply reach_kreach.
    + intros Hr. apply reach_kreach in Hr.
      assert (Hroot : root ∈ new).
      { assert (root ∈ vis) as [Hr0|Hr0]%Hv by (apply Hin; set_solver);
          [by apply elem_of_empty in Hr0|done]. }
      assert (Hclosed : ∀ a b, kreach (prev_of s) a b → a ∈ new → b ∈ new).
      { clear -Hv Hcl. intros a b H. induction H as [|x y z Hxy _ IH];
          [done|]. intros Hx. apply IH.
        destruct (proj1 (Hv y) (Hcl x y Hx Hxy)) as [Hy|Hy];
          [by apply elem_of_empty in Hy|done]. }
      by apply (Hclosed root u).
  - pose proof Heq as Heq'. 
    destruct (length s) eqn:Hl; simpl in Heq';
      rewrite decide_False in Heq' by set_solver;
      destruct (for_children _ _ _) as [[vis0 tp0]|]; try done;
      injection Heq' as _ <-; apply last_snoc.
Qed.

(** ** Operations only allocate *)

Lemma allocates_readonly {A} (m : M A) : readonly m → allocates m.
Proof. intros Hro s. exists []. by rewrite Hro, app_nil_r. Qed.

Lemma allocates_raise {A} e : allocates (raise e : M A).
Proof. intros s. exists []. by rewrite app_nil_r. Qed.

Lemma allocates_bind {A B} (m : M A) (k : A → M B) :
  allocates m → (∀ a, allocates (k a)) → allocates (bind m k).
Proof.
  intros Hm Hk s. destruct (Hm s) as [new1 H1]. unfold bind.
  destruct (m s) as [s1 [e|a]]; simpl in *; [by exists new1|].
  destruct (Hk a s1) as [new2 H2]. exists (new1 ++ new2).
  by rewrite H2, H1, app_assoc.
Qed.

Lemma allocates_init d cs op lbl : allocates (__init__ d cs op lbl).
Proof. intros s. by eexists. Qed.

Lemma allocates_new_node d cs op (ρ : nat → rule) :
  allocates (let* out := __init__ d cs op "" in
             set_backward out (ρ out) ;; ret out).
Proof. intros s. rewrite new_node_spec. by eexists. Qed.

Lemma allocates_promote other : allocates (promote other).
Proof.
  destruct other; simpl;
    [apply allocates_readonly, readonly_ret|apply allocates_init].
Qed.

Ltac alloc_get :=
  apply allocates_bind; [apply allocates_readonly; auto with ro|intros ?].

Lemma allocates_add self other : allocates (__add__ self other).
Proof.
  unfold __add__. apply allocates_bind; [apply allocates_promote|intros o].
  do 2 alloc_get. apply (allocates_new_node _ _ _ (RAdd self o)).
Qed.

Lemma allocates_mul self other : allocates (__mul__ self other).
Proof.
  unfold __mul__. apply allocates_bind; [apply allocates_promote|intros o].
  do 2 alloc_get. apply (allocates_new_node _ _ _ (RMul self o)).
Qed.

Lemma allocates_pow self p : allocates (__pow__ self p).
Proof.
  unfold __pow__. do 2 alloc_get. apply (allocates_new_node _ _ _ (RPow self p)).
Qed.

Lemma allocates_exp self : allocates (Value_exp self).
Proof.
  unfold Value_exp. do 2 alloc_get. apply (allocates_new_node _ _ _ (RExp self)).
Qed.

Lemma allocates_tanh self : allocates (Value_tanh self).
Proof.
  unfold Value_tanh. do 4 alloc_get.
  apply (allocates_new_node _ _ _ (RTanh self)).
Qed.

Lemma allocates_relu self : allocates (relu self).
Proof.
  unfold relu. do 2 alloc_get. apply (allocates_new_node _ _ _ (RRelu self)).
Qed.

Lemma allocates_sub self other : allocates (__sub__ self other).
Proof.
  unfold __sub__. apply allocates_bind; [|intros; apply allocates_add].
  destruct other; simpl.
  - apply allocates_bind; [apply allocates_mul|].
    intros. apply allocates_readonly. auto with ro.
  - apply allocates_readonly. auto with ro.
Qed.

Lemma allocates_truediv self other : allocates (__truediv__ self other).
Proof.
  unfold __truediv__. apply allocates_bind; [|intros; apply allocates_mul].
  destruct other; simpl.
  - apply allocates_bind; [apply allocates_pow|].
    intros. apply allocates_readonly. auto with ro.
  - alloc_get. apply allocates_readonly. auto with ro.
Qed.

Lemma allocates_operand {A} (m : M A) (f : A → operand) :
  allocates m → allocates (let* o := m in ret (f o)).
Proof.
  intros Hm. apply allocates_bind; [done|].
  intros. apply allocates_readonly. auto with ro.
Qed.

(** X3. Every operator and method that builds a node only allocates:
    whatever the operands, and whether the operation returns or raises,
    the store afterwards is the store before followed by new nodes, so no
    existing node has its data, gradient, operands or rule changed. *)
Theorem operations_only_allocate (l r : operand) (self : nat) (p : R) :
  allocates (py_add l r) ∧ allocates (py_sub l r) ∧
  allocates (py_mul l r) ∧ allocates (py_truediv l r) ∧
  allocates (py_neg l) ∧ allocates (__pow__ self p) ∧
  allocates (Value_exp self) ∧ allocates (Value_tanh self) ∧
  allocates (relu self).
Proof.
  split_and!.
  - destruct l, r; simpl; try apply allocates_operand;
      try apply allocates_add. apply allocates_readonly. auto with ro.
  - destruct l, r; simpl; try apply allocates_operand;
      try apply allocates_sub; try apply allocates_raise.
    apply allocates_readonly. auto with ro.
  - destruct l, r; simpl; try apply allocates_operand;
      try apply allocates_mul. apply allocates_readonly. auto with ro.
  - destruct l as [a|x], r as [b|y]; simpl; try apply allocates_operand;
      try apply allocates_truediv.
    + unfold __rtruediv__. apply allocates_bind; [apply allocates_pow|].
      intros i. simpl. apply allocates_operand. apply allocates_mul.
    + apply allocates_readonly. auto with ro.
  - destruct l; simpl; [apply allocates_operand, allocates_mul|].
    apply allocates_readonly. auto with ro.
  - apply allocates_pow.
  - apply allocates_exp.
  - apply allocates_tanh.
  - apply allocates_relu.
Qed.

(** X4. Every operator and method keeps the store well formed, whether it
    returns or raises: operands are allocated before their consumers (so
    the graph stays acyclic) and each rule writes to operands of its node
    only.  The backward pass keeps it too. *)
Theorem operations_keep_wf (s : Store) (l r : operand) (self : nat) (p : R) :
  wf s →
  (∀ i, i ∈ operand_ids l ++ operand_ids r → i < length s) →
  self < length s →
  wf (py_add l r s).1 ∧ wf (py_sub l r s).1 ∧
  wf (py_mul l r s).1 ∧ wf (py_truediv l r s).1 ∧
  wf (py_neg l s).1 ∧ wf (__pow__ self p s).1 ∧
  wf (Value_exp self s).1 ∧ wf (Value_tanh self s).1 ∧
  wf (relu self s).1 ∧ wf (backward self s).1.
Proof.
  intros Hwf Hlr Hself.
  set (V := self :: operand_ids l ++ operand_ids r).
  assert (HV : ∀ i, i ∈ V → i < length s).
  { intros i [->|Hi]%elem_of_cons; auto. }
  assert (Hl : ∀ i, i ∈ operand_ids l → i ∈ V) by (subst V; set_solver).
  assert (Hr : ∀ i, i ∈ operand_ids r → i ∈ V) by (subst V; set_solver).
  assert (Hs : self ∈ V) by (subst V; set_solver).
  split_and!.
  - by apply (safe_py_add V l r Hl Hr s).
  - by apply (safe_py_sub V l r Hl Hr s).
  - by apply (safe_py_mul V l r Hl Hr s).
  - by apply (safe_py_truediv V l r Hl Hr s).
  - by apply (safe_py_neg V l Hl s).
  - by apply (safe_pow V self p Hs s).
  - by apply (safe_exp V self Hs s).
  - by apply (safe_tanh V self Hs s).
  - by apply (safe_relu V self Hs s).
  - by apply (safe_backward V self s).
Qed.

Lemma operations_keep_wf_witness :
  wf (py_add (OValue 3) (ORaw (Flt 1)) scenario_store).1 ∧
  wf (py_sub (OValue 3) (ORaw (Flt 1)) scenario_store).1 ∧
  wf (py_mul (OValue 3) (ORaw (Flt 1)) scenario_store).1 ∧
  wf (py_truediv (OValue 3) (ORaw (Flt 1)) scenario_store).1 ∧
  wf (py_neg (OValue 3) scenario_store).1 ∧
  wf (__pow__ 0 2 scenario_store).1 ∧
  wf (Value_exp 0 scenario_store).1 ∧ wf (Value_tanh 0 scenario_store).1 ∧
  wf (relu 0 scenario_store).1 ∧ wf (backward 0 scenario_store).1.
Proof.
  apply (operations_keep_wf scenario_store (OValue 3) (ORaw (Flt 1)) 0 2).
  - apply wf_scenario.
  - intros i Hi. simpl in Hi. apply list_elem_of_singleton in Hi as ->.
    vm_compute. lia.
  - vm_compute. lia.
Defined.

(** ** Forward values *)

Lemma mul_raw_spec s self n x :
  s !! self = Some n →
  __mul__ self (ORaw x) s
  = (s ++ [mkValue x (Flt 0) ∅ "" RNone "";
           mkValue (num_mul (data n) x) (Flt 0)
                   (list_to_set [self; length s]) "*"
                   (RMul self (length s) (S (length s))) ""],
     inr (S (length s))).
Proof.
  intros Hn. unfold __mul__, promote. unfold bind at 1. unfold __init__ at 1.
  assert ((s ++ [mkValue x (Flt 0) (list_to_set []) "" RNone ""]) !! self
          = Some n) as Hn'.
  { rewrite lookup_app_l; [done|]. eapply lookup_lt_Some, Hn. }
  rewrite (bind_ok _ _ _ _ _ (get_data_spec _ _ _ Hn')).
  erewrite bind_ok; [|apply get_data_spec; by rewrite lookup_app_0].
  cbn [data]. rewrite (new_node_spec _ _ _ (RMul self (length s))).
  by rewrite length_app, Nat.add_1_r, <- app_assoc.
Qed.

Lemma num_sub_as_mul a b : num_add a (num_mul b (Flt (-1))) = num_sub a b.
Proof. destruct a, b; simpl; f_equal; lra. Qed.

(** X5. [a - b] on two nodes allocates three nodes, the literal [-1], the
    product [b * -1] and the sum, and returns the sum, which holds
    [a.data - b.data]; [a] and [b] may be the same node. *)
Theorem sub_nodes_value (s : Store) (a b : nat) (na nb : Value) :
  s !! a = Some na → s !! b = Some nb →
  ∃ s' out nout,
    py_sub (OValue a) (OValue b) s = (s', inr (OValue out)) ∧
    length s' = length s + 3 ∧
    s' !! out = Some nout ∧
    data nout = num_sub (data na) (data nb) ∧
    _prev nout = {[a; S (length s)]} ∧
    prev_at s' (S (length s)) = Some {[b; length s]}.
Proof.
  intros Ha Hb. eexists _, _, _.
  unfold py_sub, __sub__, py_neg, __neg__.
  unfold bind at 1 2 3. rewrite (mul_raw_spec s b nb _ Hb). unfold ret at 1.
  set (s1 := s ++ _).
  assert (s1 !! a = Some na) as Ha1.
  { unfold s1. rewrite lookup_app_l; [done|]. eapply lookup_lt_Some, Ha. }
  assert (s1 !! S (length s) = Some
            (mkValue (num_mul (data nb) (Flt (-1))) (Flt 0)
                     (list_to_set [b; length s]) "*"
                     (RMul b (length s) (S (length s))) "")) as Hn1.
  { unfold s1. by rewrite lookup_app_1. }
  rewrite (add_node_spec s1 a (S (length s)) _ _ Ha1 Hn1).
  split; [reflexivity|]. split.
  { unfold s1. rewrite !length_app. simpl. lia. }
  split; [by rewrite lookup_app_0|]. cbn [data _prev]. split_and!.
  - apply num_sub_as_mul.
  - set_solver.
  - unfold prev_at, s1. rewrite <- app_assoc, lookup_app_1.
    cbn. f_equal. set_solver.
Qed.

Lemma sub_nodes_value_witness :
  ∃ s' out nout,
    py_sub (OValue 3) (OValue 0) scenario_store = (s', inr (OValue out)) ∧
    length s' = length scenario_store + 3 ∧
    s' !! out = Some nout ∧
    data nout = num_sub (Flt (2 * 2 + 3)) (Flt 2) ∧
    _prev nout = {[3; S (length scenario_store)]} ∧
    prev_at s' (S (length scenario_store))
      = Some {[0; length scenario_store]}.
Proof.
  apply (sub_nodes_value scenario_store 3 0 _ _ eq_refl eq_refl).
Defined.

Lemma Int_part_IZR z : Int_part (IZR z) = z ∧ frac_part (IZR z) = 0%R.
Proof.
  destruct (Int_part_frac_part_spec (IZR z) z 0) as [<- <-]; [lra|lra|done].
Qed.

Lemma powerRZ_0_pos z : (0 < z)%Z → powerRZ 0 z = 0%R.
Proof.
  destruct z as [|p|p]; try lia. intros _. simpl. apply pow_i.
  apply Pos2Nat.is_pos.
Qed.

(** [x ** k] for an integer [k]: the integer power, except that a zero
    base with a negative exponent raises, and so does a power that is out
    of range. *)
Lemma float_pow_integer x z :
  float_pow x (IZR z)
  = if decide (x = 0%R ∧ (z < 0)%Z) then inl ZeroDivisionError
    else range_checked (powerRZ x z).
Proof.
  unfold float_pow. destruct (Int_part_IZR z) as [Hi Hf].
  destruct (Req_dec_T (IZR z) 0) as [Hz|Hz].
  { apply eq_IZR_R0 in Hz as ->. rewrite decide_False by lia.
    simpl. rewrite range_checked_ok; [done|]. apply not_overflows_unit. lra. }
  assert (z ≠ 0%Z) by (intros ->; done).
  destruct (Req_dec_T x 0) as [->|Hx].
  - destruct (Rlt_dec (IZR z) 0) as [Hlt|Hge].
    + apply lt_IZR in Hlt. by rewrite decide_True.
    + assert (0 < z)%Z.
      { destruct (Z_lt_le_dec z 0) as [Hl|Hl]; [|lia].
        apply IZR_lt in Hl. lra. }
      rewrite decide_False by lia. rewrite powerRZ_0_pos by done.
      rewrite range_checked_ok; [done|]. apply not_overflows_unit. lra.
  - rewrite decide_False by tauto.
    destruct (Rlt_dec x 0) as [Hneg|Hpos].
    + destruct (is_integral_dec (IZR z)) as [_|Hni]; [by rewrite Hi|].
      by destruct Hni.
    + rewrite <- powerRZ_Rpower by lra. done.
Qed.


Lemma float_pow_inverse y :
  y ≠ 0%R → float_pow y (-1) = range_checked (/ y).
Proof.
  intros Hy. change (-1)%R with (IZR (-1)). rewrite float_pow_integer.
  rewrite decide_False by tauto. simpl. by rewrite Rmult_1_r.
Qed.

Lemma pow_inverse_spec s b nb y :
  s !! b = Some nb → data nb = Flt y → y ≠ 0%R → ¬ overflows (/ y) →
  __pow__ b (-1) s
  = (s ++ [mkValue (Flt (/ y)) (Flt 0) {[b]} "pow"
                   (RPow b (-1) (length s)) ""],
     inr (length s)).
Proof.
  intros Hb Hd Hy Hfin. unfold __pow__.
  rewrite (bind_ok _ _ _ _ _ (get_data_spec _ _ _ Hb)), Hd.
  cbn [py_pow]. rewrite (float_pow_inverse y Hy), (range_checked_ok _ Hfin).
  unfold bind at 1. unfold lift at 1.
  rewrite (new_node_spec _ _ _ (RPow b (-1))).
  by rewrite list_to_set_singleton_L.
Qed.

Lemma pow_inverse_overflow s b nb y :
  s !! b = Some nb → data nb = Flt y → y ≠ 0%R → overflows (/ y) →
  __pow__ b (-1) s = (s, inl OverflowError).
Proof.
  intros Hb Hd Hy Hinf. apply (pow_raises s b nb); [done|].
  rewrite Hd. cbn [py_pow].
  by rewrite (float_pow_inverse y Hy), (range_checked_raise _ Hinf).
Qed.

(** X7. Division by a node holding a non-zero float [y].  When the
    inverse [1 / y] is out of the range of a float (a divisor too close to
    zero), [b ** -1] raises [OverflowError], and so do [a / b] and the
    reflected [c / b], with nothing allocated.  Otherwise [a / b] on two
    nodes allocates the inverse and the product and returns a node holding
    [x / y], and [c / b] for a raw float [c] allocates the inverse, the
    promoted [c] and the product and returns a node holding [c / y]. *)
Theorem division_value (s : Store) (a b : nat) (na nb : Value) (x y c : R) :
  s !! a = Some na → s !! b = Some nb →
  data na = Flt x → data nb = Flt y → y ≠ 0%R →
  if overflows_dec (/ y) then
    py_truediv (OValue a) (OValue b) s = (s, inl OverflowError) ∧
    py_truediv (ORaw (Flt c)) (OValue b) s = (s, inl OverflowError)
  else
    (∃ s' out,
       py_truediv (OValue a) (OValue b) s = (s', inr (OValue out)) ∧
       length s' = length s + 2 ∧
       data_at s' out = Some (Flt (x / y))) ∧
    (∃ s' out,
       py_truediv (ORaw (Flt c)) (OValue b) s = (s', inr (OValue out)) ∧
       length s' = length s + 3 ∧
       data_at s' out = Some (Flt (c / y))).
Proof.
  intros Ha Hb Hx Hy Hne. destruct (overflows_dec (/ y)) as [Hinf|Hfin].
  { pose proof (pow_inverse_overflow s b nb y Hb Hy Hne Hinf) as Hpow.
    split.
    - unfold py_truediv, __truediv__, py_inverse.
      unfold bind. by rewrite Hpow.
    - unfold py_truediv, __rtruediv__.
      by rewrite (bind_raise _ _ _ _ _ Hpow). }
  pose proof (pow_inverse_spec s b nb y Hb Hy Hne Hfin) as Hpow.
  set (P := mkValue (Flt (/ y)) (Flt 0) {[b]} "pow"
                    (RPow b (-1) (length s)) "") in *.
  assert ((s ++ [P]) !! length s = Some P) as HP by (by rewrite lookup_app_0).
  split.
  - eexists _, _. unfold py_truediv, __truediv__, py_inverse.
    unfold bind at 1 2 3. rewrite Hpow. unfold ret at 1.
    assert ((s ++ [P]) !! a = Some na) as Ha'.
    { rewrite lookup_app_l; [done|]. eapply lookup_lt_Some, Ha. }
    rewrite (mul_node_spec _ a (length s) _ _ Ha' HP).
    split; [reflexivity|]. split.
    + rewrite !length_app. simpl. lia.
    + unfold data_at. rewrite lookup_app_0. cbn. by rewrite Hx.
  - eexists _, _. unfold py_truediv, __rtruediv__.
    unfold bind at 1. rewrite Hpow. unfold py_mul, __rmul__.
    unfold bind at 1. rewrite (mul_raw_spec _ (length s) P (Flt c) HP).
    split; [reflexivity|]. split.
    + rewrite !length_app. simpl. lia.
    + unfold data_at. rewrite lookup_app_1.
      cbn. do 2 f_equal. unfold Rdiv. apply Rmult_comm.
Qed.

Lemma division_value_witness :
  if overflows_dec (/ 2) then
    py_truediv (OValue 3) (OValue 0) scenario_store
      = (scenario_store, inl OverflowError) ∧
    py_truediv (ORaw (Flt 1)) (OValue 0) scenario_store
      = (scenario_store, inl OverflowError)
  else
    (∃ s' out,
       py_truediv (OValue 3) (OValue 0) scenario_store
         = (s', inr (OValue out)) ∧
       length s' = length scenario_store + 2 ∧
       data_at s' out = Some (Flt ((2 * 2 + 3) / 2))) ∧
    (∃ s' out,
       py_truediv (ORaw (Flt 1)) (OValue 0) scenario_store
         = (s', inr (OValue out)) ∧
       length s' = length scenario_store + 3 ∧
       data_at s' out = Some (Flt (1 / 2))).
Proof.
  apply (division_value scenario_store 3 0 _ _ (2 * 2 + 3) 2 1
           eq_refl eq_refl eq_refl eq_refl).
  lra.
Defined.

Lemma tanh_formula_bounds z : (-1 < tanh_formula z < 1)%R.
Proof.
  unfold tanh_formula. pose proof (exp_pos (2 * z)) as He. split.
  - apply Rmult_lt_reg_r with (exp (2 * z) + 1)%R; [lra|].
    unfold Rdiv. rewrite Rmult_assoc, Rinv_l by lra. lra.
  - apply Rmult_lt_reg_r with (exp (2 * z) + 1)%R; [lra|].
    unfold Rdiv. rewrite Rmult_assoc, Rinv_l by lra. lra.
Qed.





(** X9. The complex node that [**] creates for a negative base and a
    fractional exponent, when the modulus [|x|^p] is in the range of a
    float, cannot go on through [relu], [exp] or [tanh]: each raises
    [TypeError] after the power node has been allocated, and allocates
    nothing itself. *)
Theorem complex_node_raises (s : Store) (self : nat) (n : Value) (x p : R) :
  s !! self = Some n → data n = Flt x → (x < 0)%R → ¬ is_integral p →
  ¬ overflows (Rpower (- x) p) →
  ∃ q,
    (let* r := __pow__ self p in relu r) s = (s ++ [q], inl TypeError) ∧
    (let* r := __pow__ self p in Value_exp r) s = (s ++ [q], inl TypeError) ∧
    (let* r := __pow__ self p in Value_tanh r) s = (s ++ [q], inl TypeError) ∧
    is_complex (data q).
Proof.
  intros Hn Hd Hx Hp Hfin. unfold __pow__.
  assert (∃ re im, py_pow (data n) p = inr (Cplx re im)) as (re & im & Hpow).
  { rewrite Hd. cbn [py_pow]. rewrite (float_pow_negative_fractional x p Hx Hp).
    destruct (overflows_dec (Rpower (- x) p)); [done|]. by eexists _, _. }
  assert (Hrun : ∀ B (k : nat → M B),
            (let* r := (let* a := get_data self in
                        let* d := lift (py_pow a p) in
                        let* out := __init__ d [self] "pow" "" in
                        set_backward out (RPow self p out) ;; ret out) in
             k r) s
            = k (length s)
                (s ++ [mkValue (Cplx re im) (Flt 0) (list_to_set [self]) "pow"
                               (RPow self p (length s)) ""])).
  { intros B k. unfold bind at 1.
    rewrite (bind_ok _ _ _ _ _ (get_data_spec _ _ _ Hn)), Hpow.
    unfold bind at 1. unfold lift at 1.
    by rewrite (new_node_spec _ _ _ (RPow self p)). }
  eexists. rewrite !Hrun. split_and!.
  - unfold relu. erewrite bind_ok;
      [|apply get_data_spec; by rewrite lookup_app_0]. done.
  - unfold Value_exp. erewrite bind_ok;
      [|apply get_data_spec; by rewrite lookup_app_0]. done.
  - unfold Value_tanh. erewrite bind_ok;
      [|apply get_data_spec; by rewrite lookup_app_0]. done.
  - done.
Qed.

Lemma complex_node_raises_witness :
  ∃ q,
    (let* r := __pow__ 0 (1 / 2) in relu r) minus_one
      = (minus_one ++ [q], inl TypeError) ∧
    (let* r := __pow__ 0 (1 / 2) in Value_exp r) minus_one
      = (minus_one ++ [q], inl TypeError) ∧
    (let* r := __pow__ 0 (1 / 2) in Value_tanh r) minus_one
      = (minus_one ++ [q], inl TypeError) ∧
    is_complex (data q).
Proof.
  apply (complex_node_raises minus_one 0 _ (-1) (1 / 2) eq_refl eq_refl);
    [lra|apply half_not_integral|apply square_root_of_minus_one_in_range].
Defined.

(** ** The neuron of the test section *)

Lemma float_pow_square t : float_pow t 2 = range_checked (t * t).
Proof.
  change 2%R with (IZR 2). rewrite float_pow_integer.
  rewrite decide_False by lia. simpl. by rewrite Rmult_1_r.
Qed.




(** * The network classes *)

(** ** Forward values over floats *)


Lemma data_at_Some s i x :
  data_at s i = Some x → ∃ n, s !! i = Some n ∧ data n = x.
Proof.
  unfold data_at. destruct (s !! i) as [n|]; [|done].
  intros [= <-]. by exists n.
Qed.














(** ** The parameters of a fresh network *)

Lemma leaves_ext g h k : (∀ i, g i = h i) → leaves g k = leaves h k.
Proof.
  intros H. unfold leaves. apply list_fmap_ext. intros _ i _. by rewrite H.
Qed.

Lemma leaves_add g a b :
  leaves g (a + b) = leaves g a ++ leaves (λ i, g (a + i)) b.
Proof.
  unfold leaves. rewrite seq_app, fmap_app. f_equal.
  rewrite (Nat.add_comm 0 a), <- fmap_add_seq, <- list_fmap_compose. done.
Qed.

Lemma length_leaves g k : length (leaves g k) = k.
Proof. unfold leaves. by rewrite length_fmap, length_seq. Qed.

Lemma random_values_spec k :
  ∀ g s, ∃ g',
    random_values k g s = (s ++ leaves g k, inr (seq (length s) k, g')) ∧
    ∀ i, g' i = g (k + i).
Proof.
  induction k as [|k IH]; intros g s.
  - exists g. unfold leaves. simpl. by rewrite app_nil_r.
  - cbn [random_values]. unfold bind at 1. unfold __init__ at 1.
    destruct (IH (λ i, g (S i)) (s ++ [leaf (g 0)])) as (g' & Hrun & Hg').
    exists g'. split; [|done].
    change (mkValue (Flt (g 0)) (Flt 0) (list_to_set []) "" RNone "")
      with (leaf (g 0)).
    rewrite (bind_ok _ _ _ _ _ Hrun). unfold ret. cbn [fst snd].
    rewrite length_app, Nat.add_1_r, <- app_assoc.
    change (S k) with (1 + k) at 1. rewrite (leaves_add g 1 k). done.
Qed.

Lemma neuron_init_spec nin g s :
  ∃ n g',
    Neuron.__init__ nin g s = (s ++ leaves g (nin + 1), inr (n, g')) ∧
    Neuron.parameters n = seq (length s) (nin + 1) ∧
    length (Neuron.w n) = nin ∧
    ∀ i, g' i = g (nin + 1 + i).
Proof.
  unfold Neuron.__init__.
  destruct (random_values_spec nin g s) as (g1 & Hrun & Hg1).
  rewrite (bind_ok _ _ _ _ _ Hrun). cbn [fst snd].
  unfold bind at 1. unfold __init__ at 1. unfold ret.
  eexists _, _. split_and!.
  - rewrite Hg1, <- app_assoc, (leaves_add g nin 1). 
    rewrite length_app, length_leaves. reflexivity.
  - unfold Neuron.parameters. cbn [Neuron.w Neuron.b].
    by rewrite seq_app.
  - cbn. by rewrite length_seq.
  - intros i. cbn. rewrite Hg1. f_equal. lia.
Qed.

Lemma random_neurons_spec nin nout :
  ∀ g s, ∃ ns g',
    Layer.random_neurons nin nout g s
    = (s ++ leaves g (nout * (nin + 1)), inr (ns, g')) ∧
    flat_map Neuron.parameters ns = seq (length s) (nout * (nin + 1)) ∧
    length ns = nout ∧
    Forall (λ n, length (Neuron.w n) = nin) ns ∧
    ∀ i, g' i = g (nout * (nin + 1) + i).
Proof.
  induction nout as [|k IH]; intros g s.
  - exists [], g. unfold leaves. simpl. rewrite app_nil_r. done.
  - cbn [Layer.random_neurons].
    destruct (neuron_init_spec nin g s) as (n & g1 & Hn & Hpn & Hwn & Hg1).
    rewrite (bind_ok _ _ _ _ _ Hn). cbn [fst snd].
    destruct (IH g1 (s ++ leaves g (nin + 1)))
      as (ns & g2 & Hns & Hpns & Hlen & Hws & Hg2).
    rewrite (bind_ok _ _ _ _ _ Hns). unfold ret. cbn [fst snd].
    exists (n :: ns), g2. split_and!.
    + rewrite <- app_assoc. do 2 f_equal.
      change (S k * (nin + 1)) with ((nin + 1) + k * (nin + 1)).
      rewrite (leaves_add g (nin + 1)). f_equal. by apply leaves_ext.
    + cbn [flat_map]. rewrite Hpn, Hpns, length_app, length_leaves.
      change (S k * (nin + 1)) with ((nin + 1) + k * (nin + 1)).
      by rewrite (seq_app (nin + 1) (k * (nin + 1))).
    + simpl. by rewrite Hlen.
    + by constructor.
    + intros i. rewrite Hg2, Hg1. f_equal. simpl. lia.
Qed.

Lemma random_layers_spec nouts :
  ∀ nin g s, ∃ ls g',
    MLP.random_layers nin nouts g s
    = (s ++ leaves g (parameter_count nin nouts), inr (ls, g')) ∧
    flat_map Layer.parameters ls
    = seq (length s) (parameter_count nin nouts) ∧
    (λ l, length (Layer.neurons l)) <$> ls = nouts ∧
    ∀ i, g' i = g (parameter_count nin nouts + i).
Proof.
  induction nouts as [|nout rest IH]; intros nin g s.
  - exists [], g. unfold leaves. simpl. rewrite app_nil_r. done.
  - cbn [MLP.random_layers parameter_count]. unfold Layer.__init__.
    destruct (random_neurons_spec nin nout g s)
      as (ns & g1 & Hns & Hpns & Hlen & _ & Hg1).
    unfold bind at 1 2. rewrite Hns. unfold ret at 1. cbn [fst snd].
    destruct (IH nout g1 (s ++ leaves g (nout * (nin + 1))))
      as (ls & g2 & Hls & Hpls & Hw & Hg2).
    rewrite (bind_ok _ _ _ _ _ Hls). unfold ret. cbn [fst snd].
    exists (Layer.mk ns :: ls), g2. split_and!.
    + rewrite <- app_assoc. do 2 f_equal.
      rewrite (leaves_add g (nout * (nin + 1))). f_equal. by apply leaves_ext.
    + cbn [flat_map]. unfold Layer.parameters at 1. cbn [Layer.neurons].
      rewrite Hpns, Hpls, length_app, length_leaves.
      by rewrite (seq_app (nout * (nin + 1)) (parameter_count nout rest)).
    + cbn. by rewrite Hlen, Hw.
    + intros i. rewrite Hg2, Hg1. f_equal. lia.
Qed.

(** X13. A fresh [MLP(nin, nouts)] allocates exactly its parameters: one
    new leaf per draw of the random generator, in drawing order, and
    [parameters()] lists precisely these new nodes, in that order and
    without repetition; their number is the sum over the layers of
    [nout * (nin + 1)], and layer [i] has [nouts[i]] neurons. *)
Theorem mlp_parameters (nin : nat) (nouts : list nat) (g : Rng) (s : Store) :
  ∃ m g',
    MLP.__init__ nin nouts g s
    = (s ++ leaves g (parameter_count nin nouts), inr (m, g')) ∧
    MLP.parameters m = seq (length s) (parameter_count nin nouts) ∧
    (λ l, length (Layer.neurons l)) <$> MLP.layers m = nouts ∧
    ∀ i, g' i = g (parameter_count nin nouts + i).
Proof.
  destruct (random_layers_spec nouts nin g s)
    as (ls & g' & Hls & Hp & Hw & Hg').
  exists (MLP.mk ls), g'. unfold MLP.__init__.
  rewrite (bind_ok _ _ _ _ _ Hls). done.
Qed.

(** ** Gradients of the derived operators *)

(** X14. Subtraction differentiates as expected: after [d = a - b] on two
    fresh leaves and [d.backward()], [d] holds [x - y], the gradient of
    [a] is 1 and the gradient of [b] is -1. *)
Theorem difference_gradients (x y : R) :
  ∃ s d,
    difference x y [] = (s, inr d) ∧
    data_at s d = Some (Flt (x - y)) ∧
    grad_at s 0 = Some (Flt 1) ∧ grad_at s 1 = Some (Flt (-1)).
Proof.
  set (s4 := [ leaf x; leaf y; leaf (-1);
               mkValue (Flt (y * -1)) (Flt 0) (list_to_set [1; 2]) "*"
                       (RMul 1 2 3) "";
               mkValue (Flt (x + y * -1)) (Flt 0) (list_to_set [0; 3]) "+"
                       (RAdd 0 3 4) "" ]).
  assert (Hbuild : difference x y [] = (backward 4 ;; ret 4) s4)
    by reflexivity.
  assert (Htopo : topo_of s4 4 = Some [2; 1; 3; 0; 4]).
  { vm_compute. reflexivity. }
  rewrite Hbuild. eexists _, _. split.
  { unfold bind at 1. unfold backward. rewrite Htopo. subst s4. unfold leaf.
    cbn [reverse rev_append app]. run_M. reflexivity. }
  cbn. split_and!; do 2 f_equal; lra.
Qed.

Lemma inverse_square_overflows y :
  overflows (/ y) → overflows (/ (y * y)).
Proof.
  intros Ho. apply (overflows_mono (/ y)); [|done].
  pose proof (overflows_large _ Ho) as Hbig.
  destruct (Req_dec_T y 0) as [->|Hy].
  { rewrite Rinv_0, Rabs_R0 in Hbig. lra. }
  rewrite Rinv_mult, Rabs_mult. nra.
Qed.

Lemma quotient_build x y :
  y ≠ 0%R → ¬ overflows (/ y) →
  quotient x y []
  = (backward 3 ;; ret 3)
      [ leaf x; leaf y;
        mkValue (Flt (/ y)) (Flt 0) {[1]} "pow" (RPow 1 (-1) 2) "";
        mkValue (Flt (x * / y)) (Flt 0) (list_to_set [0; 2]) "*"
                (RMul 0 2 3) "" ].
Proof.
  intros Hy Hfin. unfold quotient.
  do 2 (unfold bind at 1; unfold __init__ at 1).
  cbn [app length]. unfold __truediv__, py_inverse.
  unfold bind at 1 2 3.
  erewrite (pow_inverse_spec _ 1 _ y);
    [|reflexivity|reflexivity|exact Hy|exact Hfin].
  unfold ret at 1. erewrite mul_node_spec by reflexivity.
  reflexivity.
Qed.

Lemma float_pow_minus_two y :
  y ≠ 0%R → float_pow y (-1 - 1) = range_checked (/ (y * y)).
Proof.
  intros Hy. replace (-1 - 1)%R with (IZR (-2)) by lra.
  rewrite float_pow_integer, decide_False by tauto.
  simpl. by rewrite Rmult_1_r.
Qed.

(** X15. Division differentiates as expected: for a divisor [y ≠ 0]
    whose inverse square [1 / y²], the power that the rule of [b ** -1]
    computes, is in the range of a float (and with it the inverse
    [1 / y]), after [q = a / b] on two fresh leaves and [q.backward()],
    [q] holds [x / y], the gradient of [a] is [1 / y] and the gradient of
    [b] is [- x / y²]. *)
Theorem quotient_gradients (x y : R) :
  y ≠ 0%R → ¬ overflows (/ (y * y)) →
  ∃ s q,
    quotient x y [] = (s, inr q) ∧
    data_at s q = Some (Flt (x / y)) ∧
    grad_at s 0 = Some (Flt (1 / y)) ∧
    grad_at s 1 = Some (Flt (- x / (y * y))).
Proof.
  intros Hy Hfin.
  assert (Hfin1 : ¬ overflows (/ y)).
  { intros Ho. by apply Hfin, inverse_square_overflows. }
  rewrite (quotient_build x y Hy Hfin1).
  match goal with |- context [bind _ _ ?s] => set (s4 := s) end.
  assert (Htopo : topo_of s4 3 = Some [1; 2; 0; 3]).
  { vm_compute. reflexivity. }
  eexists _, _. split.
  { unfold bind at 1. unfold backward. rewrite Htopo. subst s4. unfold leaf.
    cbn [reverse rev_append app]. run_M. cbn [py_pow].
    rewrite (float_pow_minus_two y Hy), (range_checked_ok _ Hfin).
    run_M. reflexivity. }
  cbn. split_and!; do 2 f_equal; field; done.
Qed.

Lemma quotient_gradients_witness :
  ∃ s q,
    quotient 6 3 [] = (s, inr q) ∧
    data_at s q = Some (Flt (6 / 3)) ∧
    grad_at s 0 = Some (Flt (1 / 3)) ∧
    grad_at s 1 = Some (Flt (- 6 / (3 * 3))).
Proof.
  apply (quotient_gradients 6 3); [lra|].
  apply not_overflows_unit. split.
  - apply Rle_trans with 0%R; [lra|]. left. apply Rinv_0_lt_compat. lra.
  - rewrite <- Rinv_1. apply Rinv_le_contravar; lra.
Defined.

Lemma power_build x p d :
  float_pow x p = inr d →
  power x p []
  = (backward 1 ;; ret 1)
      [ leaf x; mkValue d (Flt 0) (list_to_set [0]) "pow" (RPow 0 p 1) "" ].
Proof.
  intros Hd. unfold power. unfold bind at 1. unfold __init__ at 1.
  cbn [app length]. unfold __pow__.
  erewrite bind_ok; [|erewrite bind_ok; [|by apply get_data_spec]].
  2:{ cbn [data py_pow]. rewrite Hd. unfold bind at 1, lift at 1.
      apply (new_node_spec _ _ _ (RPow 0 p)). }
  reflexivity.
Qed.

Lemma topo_power x p d :
  topo_of [ leaf x; mkValue d (Flt 0) (list_to_set [0]) "pow" (RPow 0 p 1) "" ]
          1
  = Some [0; 1].
Proof. vm_compute. reflexivity. Qed.



(** X17. The power rule can raise during the backward pass: for a leaf
    holding [0.0] and an exponent [0 ≤ p < 1] the forward operation
    returns, and [backward] raises [ZeroDivisionError] from
    [0.0 ** (p - 1)], after the root's gradient has been set to 1 and
    before the leaf's gradient is touched. *)
Theorem power_backward_raises_at_zero (p : R) :
  (0 <= p < 1)%R →
  ∃ s,
    power 0 p [] = (s, inl ZeroDivisionError) ∧
    length s = 2 ∧
    grad_at s 1 = Some (Flt 1) ∧ grad_at s 0 = Some (Flt 0).
Proof.
  intros Hp.
  assert (Hf : ∃ d, float_pow 0 p = inr d).
  { unfold float_pow. destruct (Req_dec_T p 0); [by eexists|].
    destruct (Req_dec_T 0 0) as [_|?]; [|done].
    destruct (Rlt_dec p 0); [lra|by eexists]. }
  destruct Hf as [d Hf].
  assert (Hb : float_pow 0 (p - 1) = inl ZeroDivisionError).
  { unfold float_pow. destruct (Req_dec_T (p - 1) 0); [lra|].
    destruct (Req_dec_T 0 0) as [_|?]; [|done].
    destruct (Rlt_dec (p - 1) 0); [done|lra]. }
  rewrite (power_build _ _ _ Hf). eexists. split.
  { unfold bind at 1. unfold backward. rewrite topo_power. unfold leaf.
    cbn [reverse rev_append app]. run_M. cbn [py_pow]. rewrite Hb. run_M.
    reflexivity. }
  cbn. done.
Qed.

Lemma power_backward_raises_at_zero_witness :
  ∃ s,
    power 0 (1 / 2) [] = (s, inl ZeroDivisionError) ∧
    length s = 2 ∧
    grad_at s 1 = Some (Flt 1) ∧ grad_at s 0 = Some (Flt 0).
Proof. apply (power_backward_raises_at_zero (1 / 2)). lra. Defined.

Lemma exponential_build x :
  ¬ overflows (exp x) →
  exponential x []
  = (backward 1 ;; ret 1)
      [ leaf x; mkValue (Flt (exp x)) (Flt 0) (list_to_set [0]) "exp"
                        (RExp 0 1) "" ].
Proof.
  intros Hfin. unfold exponential. unfold bind at 1. unfold __init__ at 1.
  cbn [app length]. unfold Value_exp.
  erewrite bind_ok; [|erewrite bind_ok; [|by apply get_data_spec]].
  2:{ cbn [data math_exp]. rewrite (range_checked_ok _ Hfin).
      unfold bind at 1, lift at 1. apply (new_node_spec _ _ _ (RExp 0)). }
  reflexivity.
Qed.

Lemma exponential_overflow x :
  overflows (exp x) → exponential x [] = ([leaf x], inl OverflowError).
Proof.
  intros Hinf. unfold exponential. unfold bind at 1. unfold __init__ at 1.
  cbn [app length]. unfold Value_exp.
  erewrite bind_raise; [reflexivity|].
  erewrite bind_ok by (by apply get_data_spec).
  cbn [data math_exp]. by rewrite (range_checked_raise _ Hinf).
Qed.

(** X18. The exponential differentiates to itself.  When [e^x] is out of
    the range of a float, [v.exp()] raises [OverflowError] and only the
    leaf has been allocated.  Otherwise, after [y = v.exp()] on a fresh
    leaf holding [x] and [y.backward()], both the data of [y] and the
    gradient of [v] are [e^x]. *)
Theorem exponential_gradient (x : R) :
  if overflows_dec (exp x) then
    exponential x [] = ([leaf x], inl OverflowError)
  else
    ∃ s,
      exponential x [] = (s, inr 1) ∧
      data_at s 1 = Some (Flt (exp x)) ∧
      grad_at s 0 = Some (Flt (exp x)) ∧ grad_at s 1 = Some (Flt 1).
Proof.
  destruct (overflows_dec (exp x)) as [Hinf|Hfin].
  { by apply exponential_overflow. }
  set (s2 := [ leaf x; mkValue (Flt (exp x)) (Flt 0) (list_to_set [0]) "exp"
                               (RExp 0 1) "" ]).
  assert (Htopo : topo_of s2 1 = Some [0; 1]).
  { vm_compute. reflexivity. }
  rewrite (exponential_build x Hfin). fold s2. eexists. split.
  { unfold bind at 1. unfold backward. rewrite Htopo. subst s2. unfold leaf.
    cbn [reverse rev_append app]. run_M. reflexivity. }
  cbn. split_and!; do 2 f_equal; lra.
Qed.

(** ** The forward pass of a network *)










(** * The training loop *)

(** ** What a forward pass refers to *)






Lemma scoped_weaken P n0 V V' {A} (m : M A) ids :
  (∀ i, i ∈ V → i ∈ V') → scoped P n0 V m ids → scoped P n0 V' m ids.
Proof. intros Hsub Hm s Hn Hf HV. apply Hm; [done|done|]. auto. Qed.

























(** ** The value of the loss *)













(** ** The reset of the gradients *)




(** ** The update of the parameters *)

Lemma update_spec ps : ∀ s,
  NoDup ps → (∀ p, p ∈ ps → p < length s) →
  ∃ s',
    update ps s = (s', inr tt) ∧ length s' = length s ∧
    ∀ i n, s !! i = Some n →
      s' !! i
      = Some (if decide (i ∈ ps)
              then with_data (num_add (data n)
                                      (num_mul (Flt (-1 / 10)) (grad n))) n
              else n).
Proof.
  induction ps as [|p ps IH]; intros s Hnd Hps.
  { exists s. split_and!; [done..|]. intros i n Hi.
    by rewrite decide_False by apply not_elem_of_nil. }
  apply NoDup_cons in Hnd as [Hp' Hnd].
  destruct (lookup_lt_is_Some_2 s p) as [np Hp]; [apply Hps; left|].
  set (np' := with_data (num_add (data np)
                                 (num_mul (Flt (-1 / 10)) (grad np))) np).
  destruct (IH (<[p := np']> s)) as (s' & Hrun & Hlen & Hs'); [done| |].
  { intros q Hq. rewrite length_insert. apply Hps. by right. }
  exists s'. unfold update in *. cbn [for_each]. unfold bind at 1.
  rewrite (bind_ok _ _ _ _ _ (get_data_spec _ _ _ Hp)).
  rewrite (bind_ok _ _ _ _ _ (get_grad_spec _ _ _ Hp)).
  unfold set_data at 1. rewrite Hp. fold np'. split_and!; [done| |].
  { by rewrite Hlen, length_insert. }
  intros i n Hi. destruct (decide (i = p)) as [->|Hne].
  - rewrite Hp in Hi. injection Hi as <-.
    rewrite (Hs' p np').
    2:{ apply list_lookup_insert_eq. by eapply lookup_lt_Some. }
    rewrite decide_False by done. by rewrite decide_True by left.
  - rewrite (Hs' i n) by (by rewrite list_lookup_insert_ne).
    f_equal. do 2 case_decide; set_solver.
Qed.

(** X21. The update step moves every parameter once: for a list of
    distinct existing nodes, [p.data += -0.1 * p.grad] returns and
    replaces the data of each listed node by its data minus a tenth of its
    gradient, as they were before the loop; gradients, operands and rules
    stay, and so does every node that is not listed: the data of the
    nodes computed from the parameters is not recomputed. *)
Theorem update_moves_parameters (s : Store) (ps : list nat) :
  NoDup ps → (∀ p, p ∈ ps → p < length s) →
  ∃ s',
    update ps s = (s', inr tt) ∧ length s' = length s ∧
    (∀ i n, s !! i = Some n → i ∈ ps →
       s' !! i = Some (with_data (num_sub (data n)
                                          (num_mul (Flt (1 / 10)) (grad n)))
                                 n)) ∧
    (∀ i, i ∉ ps → s' !! i = s !! i).
Proof.
  intros Hnd Hps. destruct (update_spec ps s Hnd Hps) as (s' & Hrun & Hlen & Hs').
  exists s'. split_and!; [done..| |].
  - intros i n Hi Hin. rewrite (Hs' _ _ Hi), decide_True by done.
    do 2 f_equal. destruct (data n), (grad n); cbn; f_equal; lra.
  - intros i Hi. destruct (s !! i) as [n|] eqn:E.
    + by rewrite (Hs' _ _ E), decide_False.
    + apply lookup_ge_None in E. apply lookup_ge_None. lia.
Qed.

Lemma update_moves_parameters_witness :
  ∃ s',
    update [0; 1] [leaf 1; leaf 2] = (s', inr tt) ∧
    length s' = length [leaf 1; leaf 2] ∧
    (∀ i n, [leaf 1; leaf 2] !! i = Some n → i ∈ [0; 1] →
       s' !! i = Some (with_data (num_sub (data n)
                                          (num_mul (Flt (1 / 10)) (grad n)))
                                 n)) ∧
    (∀ i, i ∉ [0; 1] → s' !! i = [leaf 1; leaf 2] !! i).
Proof.
  apply (update_moves_parameters [leaf 1; leaf 2] [0; 1]).
  - repeat constructor; set_solver.
  - intros p Hp. simpl.
    repeat (apply elem_of_cons in Hp as [->|Hp]; [lia|]).
    by apply elem_of_nil in Hp.
Defined.

(** * When the backward pass returns *)

Lemma iadd_grad_returns v rhs s x :
  v < length s → rhs s = (s, inr x) →
  ∃ s', iadd_grad v rhs s = (s', inr tt) ∧ same_graph s s'.
Proof.
  intros Hv Hrhs. destruct (lookup_lt_is_Some_2 s v Hv) as [n Hn].
  unfold iadd_grad. rewrite (bind_ok _ _ _ _ _ (get_grad_spec _ _ _ Hn)).
  rewrite (bind_ok _ _ _ _ _ Hrhs).
  destruct (set_grad v (num_add (grad n) x) s) as [s' r] eqn:Hset.
  destruct (set_grad_spec _ _ _ _ _ Hset) as (Hg & _ & _ & Hr).
  rewrite Hr by done. by exists s'.
Qed.

Lemma can_run_same_graph s s' r :
  same_graph s s' → can_run s r → can_run s' r.
Proof.
  intros Hg.
  assert (Hd : ∀ v, data_at s' v = data_at s v)
    by (intros v; by apply same_graph_data).
  destruct Hg as [Hl _].
  destruct r; simpl; rewrite <- ?Hl, ?Hd; done.
Qed.

Ltac rhs_returns :=
  repeat first
    [ erewrite bind_ok; [|by (eapply get_grad_spec || eapply get_data_spec)]
    | reflexivity ].

Lemma run_rule_returns s r :
  can_run s r → ∃ s', run_rule r s = (s', inr tt) ∧ same_graph s s'.
Proof.
  destruct r as [|a b o|a b o|a p o|a o|a o|a o]; simpl.
  - intros _. exists s. split; [done|apply same_graph_refl].
  - intros (Ha & Hb & Ho).
    destruct (lookup_lt_is_Some_2 s o Ho) as [no Hno].
    destruct (iadd_grad_returns a
                (let* g := get_grad o in ret (num_mul (Flt 1) g)) s
                (num_mul (Flt 1) (grad no)) Ha)
      as (s1 & Hrun1 & Hg1); [rhs_returns|].
    destruct (same_graph_lookup _ _ _ _ Hg1 Hno) as (no1 & Hno1 & _).
    destruct (iadd_grad_returns b
                (let* g := get_grad o in ret (num_mul (Flt 1) g)) s1
                (num_mul (Flt 1) (grad no1)))
      as (s2 & Hrun2 & Hg2); [destruct Hg1 as [<- _]; done|rhs_returns|].
    exists s2. rewrite (bind_ok _ _ _ _ _ Hrun1). split; [done|].
    by eapply same_graph_trans.
  - intros (Ha & Hb & Ho).
    destruct (lookup_lt_is_Some_2 s o Ho) as [no Hno].
    destruct (lookup_lt_is_Some_2 s a Ha) as [na Hna].
    destruct (lookup_lt_is_Some_2 s b Hb) as [nb Hnb].
    destruct (iadd_grad_returns a
                (let* g := get_grad o in
                 let* d := get_data b in ret (num_mul g d)) s
                (num_mul (grad no) (data nb)) Ha)
      as (s1 & Hrun1 & Hg1); [rhs_returns|].
    destruct (same_graph_lookup _ _ _ _ Hg1 Hno) as (no1 & Hno1 & _).
    destruct (same_graph_lookup _ _ _ _ Hg1 Hna) as (na1 & Hna1 & _).
    destruct (iadd_grad_returns b
                (let* g := get_grad o in
                 let* d := get_data a in ret (num_mul g d)) s1
                (num_mul (grad no1) (data na1)))
      as (s2 & Hrun2 & Hg2); [destruct Hg1 as [<- _]; done|rhs_returns|].
    exists s2. rewrite (bind_ok _ _ _ _ _ Hrun1). split; [done|].
    by eapply same_graph_trans.
  - intros (Ho & x & q & Hx & Hq).
    destruct (lookup_lt_is_Some_2 s o Ho) as [no Hno].
    apply data_at_Some in Hx as (na & Hna & Hda).
    eapply (iadd_grad_returns a _ s
              (num_mul (grad no) (num_mul (Flt p) q))).
    { by eapply lookup_lt_Some. }
    rhs_returns. rewrite Hda. cbn [py_pow]. rewrite Hq. reflexivity.
  - intros (Ha & Ho).
    destruct (lookup_lt_is_Some_2 s o Ho) as [no Hno].
    eapply (iadd_grad_returns a _ s (num_mul (grad no) (data no)) Ha).
    rhs_returns.
  - intros (Ha & t & Ht & Hfin).
    apply data_at_Some in Ht as (no & Hno & Hdo).
    eapply (iadd_grad_returns a _ s
              (num_mul (grad no) (num_sub (Flt 1) (Flt (t * t)))) Ha).
    rhs_returns. rewrite Hdo. cbn [py_pow].
    rewrite float_pow_square, (range_checked_ok _ Hfin). reflexivity.
  - intros (Ho & x & Hx).
    destruct (lookup_lt_is_Some_2 s o Ho) as [no Hno].
    apply data_at_Some in Hx as (na & Hna & Hda).
    destruct (Rlt_dec 0 x) as [Hpos|Hneg].
    + eapply (iadd_grad_returns a _ s (grad no)).
      { by eapply lookup_lt_Some. }
      rhs_returns. rewrite Hda. cbn [py_gt0].
      destruct (Rlt_dec 0 x); [|done]. unfold bind at 1, lift at 1.
      rhs_returns. by apply get_grad_spec.
    + eapply (iadd_grad_returns a _ s (Flt 0)).
      { by eapply lookup_lt_Some. }
      rhs_returns. rewrite Hda. cbn [py_gt0].
      destruct (Rlt_dec 0 x); [done|]. reflexivity.
Qed.

Lemma for_each_returns l : ∀ s,
  (∀ node, node ∈ l → ∃ n, s !! node = Some n ∧ can_run s (_backward n)) →
  ∃ s', for_each call_backward l s = (s', inr tt) ∧ same_graph s s'.
Proof.
  induction l as [|node l IH]; intros s Hl.
  { exists s. split; [done|apply same_graph_refl]. }
  destruct (Hl node) as (n & Hn & Hcan); [left|].
  destruct (run_rule_returns s _ Hcan) as (s1 & Hrun & Hg1).
  destruct (IH s1) as (s2 & Hrest & Hg2).
  { intros node' Hin. destruct (Hl node') as (n' & Hn' & Hcan'); [by right|].
    destruct (same_graph_lookup _ _ _ _ Hg1 Hn')
      as (n1 & Hn1 & _ & _ & _ & Hb & _).
    exists n1. split; [done|]. rewrite Hb. by eapply can_run_same_graph. }
  exists s2. cbn [for_each]. unfold bind at 1, call_backward at 1.
  unfold bind at 1, deref at 1. rewrite Hn, Hrun.
  split; [done|]. by eapply same_graph_trans.
Qed.

(** X22. A sufficient condition for the backward pass to return, the
    recursion of [build_topo] being given the depth it needs: on a store
    built by the class, when every node reachable from the root holds a
    float, the power [x ** (p - 1)] evaluates for every reachable power
    node (the base is not 0.0 with [p < 1] and the result is in range),
    and every reachable [tanh] node holds a value between -1 and 1, as
    [tanh] builds it, then [backward] raises nothing, and it changes
    gradients only.  The rules of [+], [*], [exp] and [relu] cannot
    fail on floats. *)
Theorem backward_returns_on_floats (s : Store) (root : nat) :
  wf s → root < length s →
  (∀ c n, reach s root c → s !! c = Some n → ∃ x, data n = Flt x) →
  (∀ c n self p out x,
     reach s root c → s !! c = Some n → _backward n = RPow self p out →
     data_at s self = Some (Flt x) → ∃ q, float_pow x (p - 1) = inr q) →
  (∀ c n self out t,
     reach s root c → s !! c = Some n → _backward n = RTanh self out →
     data n = Flt t → (-1 <= t <= 1)%R) →
  ∃ s', backward root s = (s', inr tt) ∧ same_graph s s'.
Proof.
  intros Hwf Hroot Hflt Hpow Htanh.
  destruct (backward_order_spec s root Hwf Hroot)
    as (order & Hord & _ & Hreach & _).
  rewrite (backward_unfold _ _ _ Hord).
  destruct (set_grad root (Flt 1) s) as [s0 r0] eqn:Hset.
  destruct (set_grad_spec _ _ _ _ _ Hset) as (Hg0 & _ & _ & Hr0).
  rewrite Hr0 in Hset by (by apply lookup_lt_is_Some_2).
  destruct (for_each_returns order s0) as (s' & Hrun & Hg').
  { intros c Hc. apply Hreach in Hc.
    assert (c < length s) as Hlt.
    { pose proof (reach_le _ _ _ Hwf Hc). lia. }
    destruct (lookup_lt_is_Some_2 s c Hlt) as [n Hn].
    destruct (same_graph_lookup _ _ _ _ Hg0 Hn)
      as (n0 & Hn0 & _ & _ & _ & Hb & _).
    exists n0. split; [done|]. rewrite Hb.
    apply (can_run_same_graph s); [done|].
    destruct (Hwf c n Hn) as (Hprev & Htgt & Hout).
    assert (Hop : ∀ t, t ∈ rule_targets (_backward n) →
                       t < length s ∧ ∃ x, data_at s t = Some (Flt x)).
    { intros t Ht. apply Htgt in Ht. pose proof (Hprev t Ht).
      assert (t < length s) as Htl by lia.
      destruct (lookup_lt_is_Some_2 s t Htl) as [nt Hnt].
      destruct (Hflt t nt) as [x Hx]; [|done|].
      { eapply reach_operand; [exact Hc|]. by exists n. }
      split; [done|]. exists x. unfold data_at. rewrite Hnt. cbn. by f_equal. }
    destruct (Hflt c n Hc Hn) as [xc Hxc].
    destruct (_backward n) as [|a b o|a b o|a p o|a o|a o|a o] eqn:Hrule;
      simpl in *.
    - done.
    - rewrite (Hout o eq_refl). split_and!; [apply Hop|apply Hop|done];
        set_solver.
    - rewrite (Hout o eq_refl). split_and!; [apply Hop|apply Hop|done];
        set_solver.
    - rewrite (Hout o eq_refl). split; [done|].
      destruct (Hop a) as (_ & x & Hx); [set_solver|].
      destruct (Hpow c n a p o x Hc Hn Hrule Hx) as [q Hq]. by exists x, q.
    - rewrite (Hout o eq_refl). split; [apply Hop; set_solver|done].
    - rewrite (Hout o eq_refl). split; [apply Hop; set_solver|].
      exists xc. split; [unfold data_at; rewrite Hn; cbn; by f_equal|].
      pose proof (Htanh c n a o xc Hc Hn Hrule Hxc).
      apply not_overflows_unit. nra.
    - rewrite (Hout o eq_refl). split; [done|].
      destruct (Hop a) as (_ & x & Hx); [set_solver|]. by exists x. }
  exists s'. unfold bind. rewrite Hset. split; [done|].
  by eapply same_graph_trans.
Qed.

Lemma wf_pow_tanh : wf pow_tanh_store.
Proof. unfold pow_tanh_store, leaf. wf_concrete. Qed.

Lemma backward_returns_on_floats_witness :
  ∃ s', backward 2 pow_tanh_store = (s', inr tt) ∧
        same_graph pow_tanh_store s'.
Proof.
  apply (backward_returns_on_floats pow_tanh_store 2).
  - apply wf_pow_tanh.
  - simpl. lia.
  - intros c n _ Hn.
    repeat (destruct c as [|c]; [injection Hn as <-; by eexists|]). done.
  - intros c n self p out x _ Hn Hb Hx.
    destruct c as [|[|[|c]]]; try done; injection Hn as <-; try done.
    injection Hb as <- <- <-. injection Hx as <-.
    replace (3 - 1)%R with (IZR 2) by lra.
    rewrite float_pow_integer, decide_False by lia. eexists.
    apply range_checked_ok. apply (not_overflows_le _ 4); [|done].
    simpl. apply Rabs_le. lra.
  - intros c n self out t _ Hn Hb Hd.
    destruct c as [|[|[|c]]]; try done; injection Hn as <-; try done.
    injection Hd as <-. pose proof (tanh_formula_bounds 8). lra.
Defined.
